(** * GymWebsite: the behaviour layer of [assets/js/script.js]

    A shallow embedding of the script's timing utilities, scroll-driven
    behaviours and contact-form logic, with the properties stated about
    them in the specification.

    Conventions of the embedding:
    - [Date.now()], timer delays, pixel offsets: [Z] (milliseconds, pixels);
    - JavaScript numbers of the counter animation: [jsnum], the IEEE 754
      binary64 values with the operations of the Standard Library's
      [SpecFloat]; [Binary64] runs the additions of the animation on the
      doubles of the machine for comparison;
    - DOM strings: [string], code units below 256;
    - the browser's event loop: explicit state passing; every handler is a
      function from the state before the event to the state after it. *)

From Stdlib Require Import ZArith QArith Qround Lia Lqa Ascii String.
From Stdlib Require Import PrimFloat SpecFloat.
From Stdlib Require FloatOps.
From stdpp Require Import base option list gmap strings.

Open Scope Z_scope.

(** ** Timing utilities: [debounce] and [throttle] *)

Module Timing.
Section Wrappers.

(** The argument list of one invocation of the wrapped action. *)
Context {A : Type}.

(** A pending [setTimeout]: the instant it is due and the arguments the
    scheduled closure has captured. *)
Record timer := Timer { due : Z; captured : A }.

(** [setTimeout(cb, ms)] issued at instant [now]; a negative delay is
    clamped to zero by the platform. *)
Definition setTimeout (now ms : Z) (args : A) : timer :=
  {| due := now + Z.max 0 ms; captured := args |}.

(** One execution of the underlying action: when, and with which
    arguments ([func.apply(this, args)]). *)
Definition execution : Type := Z * A.

(** *** debounce *)

(** The closure state of [debounce]: the [timeout] variable, [None] when
    no timer is pending, and the executions of [func] so far. *)
Record debounced := Debounced {
  timeout : option timer;
  d_executed : list execution
}.

Definition debounce : debounced :=
  {| timeout := None; d_executed := [] |}.

(** [executedFunction(...args)] at instant [now]:
    [clearTimeout(timeout); timeout = setTimeout(later, wait)]. *)
Definition executedFunction (wait now : Z) (args : A) (s : debounced)
  : debounced :=
  {| timeout := Some (setTimeout now wait args);
     d_executed := d_executed s |}.

(** [later()]: the pending timer fires; [clearTimeout(timeout)] on the
    timer that is firing, then [func.apply(this, args)]. *)
Definition later (s : debounced) : debounced :=
  match timeout s with
  | Some tm => {| timeout := None;
                  d_executed := d_executed s ++ [(due tm, captured tm)] |}
  | None => s
  end.

(** The event loop reaches instant [now]: a timer that is due runs
    before the event of that instant is dispatched. *)
Definition d_tick (now : Z) (s : debounced) : debounced :=
  match timeout s with
  | Some tm => if due tm <=? now then later s else s
  | None => s
  end.

(** A chronological list of invocations, then the loop runs until no
    timer is left. *)
Fixpoint d_run (wait : Z) (calls : list (Z * A)) (s : debounced)
  : debounced :=
  match calls with
  | [] => later s
  | (t, args) :: rest =>
      d_run wait rest (executedFunction wait t args (d_tick t s))
  end.

(** *** throttle *)

(** The closure state of [throttle]: [timeoutId], [lastExecTime] and the
    executions of [func] so far. *)
Record throttled := Throttled {
  timeoutId : option timer;
  lastExecTime : Z;
  t_executed : list execution
}.

Definition throttle : throttled :=
  {| timeoutId := None; lastExecTime := 0; t_executed := [] |}.

(** The returned function, invoked at [currentTime = Date.now()]. The
    first branch leaves [timeoutId] alone; the second replaces it. *)
Definition throttled_call (delay currentTime : Z) (args : A) (s : throttled)
  : throttled :=
  if delay <? currentTime - lastExecTime s then
    {| timeoutId := timeoutId s;
       lastExecTime := currentTime;
       t_executed := t_executed s ++ [(currentTime, args)] |}
  else
    {| timeoutId :=
         Some (setTimeout currentTime
                 (delay - (currentTime - lastExecTime s)) args);
       lastExecTime := lastExecTime s;
       t_executed := t_executed s |}.

(** The trailing timer fires at the instant it is due:
    [func.apply(this, args); lastExecTime = Date.now()]. *)
Definition trailing (s : throttled) : throttled :=
  match timeoutId s with
  | Some tm => {| timeoutId := None;
                  lastExecTime := due tm;
                  t_executed := t_executed s ++ [(due tm, captured tm)] |}
  | None => s
  end.

(** The same callback run late, at an instant [now] after the one it was
    due ([setTimeout] promises no more than "not before"). *)
Definition trailing_late (now : Z) (s : throttled) : throttled :=
  match timeoutId s with
  | Some tm =>
      if due tm <=? now then
        {| timeoutId := None;
           lastExecTime := now;
           t_executed := t_executed s ++ [(now, captured tm)] |}
      else s
  | None => s
  end.

(** The event loop reaches instant [now]; timers fire at the instant they
    are due, before the event of that instant is dispatched. *)
Definition t_tick (now : Z) (s : throttled) : throttled :=
  match timeoutId s with
  | Some tm => if due tm <=? now then trailing s else s
  | None => s
  end.

Fixpoint t_run (delay : Z) (calls : list (Z * A)) (s : throttled)
  : throttled :=
  match calls with
  | [] => trailing s
  | (t, args) :: rest =>
      t_run delay rest (throttled_call delay t args (t_tick t s))
  end.

(** Consecutive invocations are in chronological order and less than
    [w] apart. *)
Fixpoint burst (w : Z) (t : Z) (rest : list (Z * A)) : Prop :=
  match rest with
  | [] => True
  | (t', _) :: rest' => t <= t' /\ t' - t < w /\ burst w t' rest'
  end.

(** Every two consecutive executions are at least [d] apart. *)
Definition spaced (d : Z) (log : list execution) : Prop :=
  forall l1 e1 e2 l2, log = l1 ++ e1 :: e2 :: l2 -> d <= e2.1 - e1.1.

(** What the closure state satisfies between events: a pending timer is
    due one [delay] after the last execution, the log is spaced, and
    [lastExecTime] is the instant of the last logged execution. *)
Definition t_inv (delay : Z) (s : throttled) : Prop :=
  (forall tm, timeoutId s = Some tm -> due tm = lastExecTime s + delay)
  /\ spaced delay (t_executed s)
  /\ (forall e, last (t_executed s) = Some e -> e.1 = lastExecTime s).

End Wrappers.
Arguments timer : clear implicits.
Arguments debounced : clear implicits.
Arguments throttled : clear implicits.
Arguments execution : clear implicits.
End Timing.

(** ** Active-link highlighting ([ActiveNavigation.init]) *)

Module ActiveNavigation.

(** A [section[id]] element: its [id] attribute, [offsetTop] and
    [offsetHeight]. *)
Record page_section := PageSection {
  id : string;
  offsetTop : Z;
  offsetHeight : Z
}.

(** A [.nav-link] element: its [href] attribute and whether its class
    list holds ['active']. *)
Record nav_link := NavLink {
  href : string;
  active : bool
}.

(** The test of the first [forEach], for one section. *)
Definition in_range (scrollY : Z) (s : page_section) : bool :=
  let sectionTop := offsetTop s - 120 in
  let sectionHeight := offsetHeight s in
  (sectionTop <=? scrollY) && (scrollY <? sectionTop + sectionHeight).

(** [let current = ''; sections.forEach(...)]: every section that passes
    the test overwrites [current]. *)
Definition current_section (scrollY : Z) (sections : list page_section)
  : string :=
  foldl (fun current s => if in_range scrollY s then id s else current)
        "" sections.

(** The second [forEach]: remove ['active'], add it again when the href
    is [`#${current}`]. *)
Definition mark (current : string) (l : nav_link) : nav_link :=
  {| href := href l;
     active := if decide (href l = "#" +:+ current) then true else false |}.

Definition handleScroll (scrollY : Z) (sections : list page_section)
    (navLinks : list nav_link) : list nav_link :=
  mark (current_section scrollY sections) <$> navLinks.

End ActiveNavigation.

(** ** JavaScript numbers, as far as the counter animation uses them *)

Module JsNum.

(** A JavaScript number is an IEEE 754 binary64 value: [spec_float] of the
    Standard Library with a mantissa of 53 bits and the exponent of the
    infinities at 1024; the operations round to nearest, ties to even. *)
Definition prec : Z := 53.
Definition emax : Z := 1024.

Definition jsnum : Type := spec_float.

Definition NaN : jsnum := S754_nan.

(** [a + b] *)
Definition add (a b : jsnum) : jsnum := SFadd prec emax a b.

(** [a / b] *)
Definition div (a b : jsnum) : jsnum := SFdiv prec emax a b.

(** [a < b]; false as soon as one side is NaN. *)
Definition lt (a b : jsnum) : bool := SFltb a b.

(** [a <= b] *)
Definition le (a b : jsnum) : bool := SFleb a b.

(** An integer as a number: the nearest binary64 value. *)
Definition of_Z (z : Z) : jsnum := binary_normalize prec emax z 0 false.

(** [Math.floor(a)]: a number whose exponent is not negative is an
    integer; otherwise the integer below [m * 2 ^ e], which has fewer than
    53 bits and keeps the sign of [a] when it is zero. *)
Definition floor (a : jsnum) : jsnum :=
  match a with
  | S754_finite s m e =>
      if 0 <=? e then a
      else binary_normalize prec emax (cond_Zopp s (Z.pos m) / 2 ^ (- e)) 0 s
  | _ => a
  end.

(** The position of a positive finite number among the binary64 values,
    and the numbers whose mantissa and exponent are the ones of the
    format. *)
Definition ord (m : positive) (e : Z) : Z :=
  (e - emin prec emax) * 2 ^ prec + Z.pos m.

Definition canonical (m : positive) (e : Z) : Prop :=
  fexp prec emax (Z.pos (digits2_pos m) + e) = e.

End JsNum.

(** ** Counter animation ([CounterAnimation]) *)

Module CounterAnimation.
Import JsNum.

(** The variables the [updateCounter] closure captures. *)
Record counter := Counter {
  target : jsnum;
  increment : jsnum;
  current : jsnum
}.

(** What [parseInt] returns: NaN, an integer (the nearest number when the
    integer has more than 53 bits), or minus zero. *)
Inductive parsed : jsnum -> Prop :=
| parsed_NaN : parsed NaN
| parsed_minus_zero : parsed (S754_zero true)
| parsed_integer (z : Z) : parsed (of_Z z).

(** The closure as [animateCounter] builds it; [target] is the result of
    [parseInt(element.getAttribute('data-target'))]. *)
Definition new_counter (target : jsnum) : counter :=
  let duration := of_Z 2000 in
  {| target := target;
     increment := div target (div duration (of_Z 16));
     current := of_Z 0 |}.

(** One call of [updateCounter]: the value written to [textContent], and
    the closure to run on the next animation frame when
    [requestAnimationFrame(updateCounter)] was called. *)
Definition updateCounter (c : counter) : jsnum * option counter :=
  let current' := add (current c) (increment c) in
  if lt current' (target c) then
    (floor current',
     Some {| target := target c; increment := increment c;
             current := current' |})
  else
    (target c, None).

(** The frames of one animation, at most [fuel] of them: the values
    written, in order; [None] when the animation is still running after
    [fuel] frames. *)
Fixpoint frames (fuel : nat) (c : counter) : option (list jsnum) :=
  match fuel with
  | O => None
  | S fuel' =>
      match updateCounter c with
      | (text, None) => Some [text]
      | (text, Some c') => cons text <$> frames fuel' c'
      end
  end.

Definition animateCounter (fuel : nat) (target : jsnum)
  : option (list jsnum) :=
  frames fuel (new_counter target).

(** The running values [current] takes, frame after frame. *)
Fixpoint running (n : nat) (c : counter) : list jsnum :=
  match n with
  | O => []
  | S n' =>
      let current' := add (current c) (increment c) in
      current' :: running n' {| target := target c;
                                increment := increment c;
                                current := current' |}
  end.

(** Consecutive values related by a comparison. *)
Fixpoint chain (R : jsnum -> jsnum -> bool) (l : list jsnum) : bool :=
  match l with
  | a :: ((b :: _) as rest) => R a b && chain R rest
  | _ => true
  end.

Definition strictly_increasing : list jsnum -> bool := chain lt.
Definition non_decreasing : list jsnum -> bool := chain le.

(** A positive number of the format that is below [t]. *)
Definition below (t x : jsnum) : Prop :=
  exists m e, x = S754_finite false m e /\ canonical m e /\ lt x t = true.

(** *** The scroll handler of [init] *)

(** What an element shows: the text of the page as authored, or a number
    written by the animation. *)
Inductive content :=
| Markup (text : string)
| Written (n : jsnum).

(** A [[data-target]] element: the parsed attribute and [textContent]. *)
Record stat := Stat {
  data_target : jsnum;
  textContent : content
}.

(** [getBoundingClientRect()] of an element at the time of an event. *)
Record rect := Rect { top : Z; bottom : Z }.

(** What one run of the handler reads from the window: [innerHeight] and
    the rectangle of every element of [statNumbers], by position. *)
Record viewport := Viewport {
  innerHeight : Z;
  bounding : nat -> rect
}.

(** The page as the counter behaviour sees it. Elements are identified by
    their position in [statNumbers]; [animated] is the [Set] of the class;
    [frame_queue] holds the closures passed to [requestAnimationFrame];
    [started] records every call of [animateCounter] (it is not a variable
    of the script). *)
Record page := Page {
  statNumbers : list stat;
  animated : gset nat;
  frame_queue : list (nat * counter);
  started : list nat
}.

Definition isInViewport (v : viewport) (element : nat) : bool :=
  let r := bounding v element in
  (top r <? innerHeight v) && (0 <? bottom r).

Definition write (text : jsnum) (s : stat) : stat :=
  {| data_target := data_target s; textContent := Written text |}.

(** [animateCounter(element)] as the handler runs it: the first
    [updateCounter()] is called directly, the following ones are left to
    the frame queue. *)
Definition start_animation (element : nat) (p : page) : page :=
  match statNumbers p !! element with
  | None => p
  | Some s =>
      let (text, next) := updateCounter (new_counter (data_target s)) in
      {| statNumbers := alter (write text) element (statNumbers p);
         animated := animated p;
         frame_queue :=
           match next with
           | Some c => frame_queue p ++ [(element, c)]
           | None => frame_queue p
           end;
         started := started p ++ [element] |}
  end.

Definition mark_animated (element : nat) (p : page) : page :=
  {| statNumbers := statNumbers p;
     animated := animated p ∪ {[element]};
     frame_queue := frame_queue p;
     started := started p |}.

(** The body of [statNumbers.forEach] for one element. *)
Definition visit (v : viewport) (p : page) (element : nat) : page :=
  if decide (element ∈ animated p) then p
  else if isInViewport v element then
    mark_animated element (start_animation element p)
  else p.

(** The (throttled) handler, one execution. *)
Definition handleScroll (v : viewport) (p : page) : page :=
  foldl (visit v) p (seq 0 (length (statNumbers p))).

(** One animation frame: every queued closure runs once. *)
Definition run_callback (p : page) (cb : nat * counter) : page :=
  let (text, next) := updateCounter cb.2 in
  {| statNumbers := alter (write text) cb.1 (statNumbers p);
     animated := animated p;
     frame_queue :=
       match next with
       | Some c => frame_queue p ++ [(cb.1, c)]
       | None => frame_queue p
       end;
     started := started p |}.

Definition animation_frame (p : page) : page :=
  foldl run_callback
        {| statNumbers := statNumbers p; animated := animated p;
           frame_queue := []; started := started p |}
        (frame_queue p).

Inductive event :=
| Scroll (v : viewport)
| Frame.

Definition step (p : page) (e : event) : page :=
  match e with
  | Scroll v => handleScroll v p
  | Frame => animation_frame p
  end.

(** The page after [new CounterAnimation()] and any later events; the
    constructor runs the handler once ("Check initially"). *)
Definition init (stats : list stat) (v : viewport) : page :=
  handleScroll v {| statNumbers := stats; animated := ∅;
                    frame_queue := []; started := [] |}.

Definition run (p : page) (events : list event) : page :=
  foldl step p events.

(** How many animations have been started on an element, and the
    closures queued for it. *)
Definition animations_started (element : nat) (p : page) : nat :=
  length (filter (fun e => e = element) (started p)).

Definition queued_for (element : nat) (p : page) : list (nat * counter) :=
  filter (fun cb => cb.1 = element) (frame_queue p).

(** Elements outside the visited set have no animation; no element has
    more than one. *)
Definition once (p : page) : Prop :=
  forall element,
    (element ∉ animated p -> animations_started element p = 0%nat)
    /\ (animations_started element p <= 1)%nat.

End CounterAnimation.

(** ** The running value of the counter on the doubles of the machine

    The additions of [CounterAnimation] on the primitive floating-point
    numbers, to compare them with the model on a given target. *)

Module Binary64.

(** [target / (duration / 16)] with [duration = 2000]. *)
Definition increment (target : float) : float :=
  PrimFloat.div target (PrimFloat.div 2000%float 16%float).

(** [current += increment], [n] times: the running values, in order. *)
Fixpoint running (n : nat) (increment current : float) : list float :=
  match n with
  | O => []
  | S n' =>
      let current' := PrimFloat.add current increment in
      current' :: running n' increment current'
  end.

(** The running values that are below the target: the frames that show a
    floor and request another frame. *)
Definition below (target : float) (values : list float) : list bool :=
  (fun current => PrimFloat.ltb current target) <$> values.

End Binary64.

(** ** Regular expressions, as far as the form validation uses them *)

Module Regex.

(** Character classes, concatenation, alternation and iteration. *)
Inductive regex :=
| Void
| Eps
| Class (p : ascii -> bool)
| Seq (r1 r2 : regex)
| Alt (r1 r2 : regex)
| Star (r : regex).

(** [r+] *)
Definition plus (r : regex) : regex := Seq r (Star r).

(** [r{n,}] *)
Fixpoint at_least (n : nat) (r : regex) : regex :=
  match n with
  | O => Star r
  | S n' => Seq r (at_least n' r)
  end.

Fixpoint nullable (r : regex) : bool :=
  match r with
  | Void => false
  | Eps => true
  | Class _ => false
  | Seq r1 r2 => nullable r1 && nullable r2
  | Alt r1 r2 => nullable r1 || nullable r2
  | Star _ => true
  end.

(** The derivative of [r] by the character [c]. *)
Fixpoint deriv (c : ascii) (r : regex) : regex :=
  match r with
  | Void => Void
  | Eps => Void
  | Class p => if p c then Eps else Void
  | Seq r1 r2 =>
      if nullable r1 then Alt (Seq (deriv c r1) r2) (deriv c r2)
      else Seq (deriv c r1) r2
  | Alt r1 r2 => Alt (deriv c r1) (deriv c r2)
  | Star r1 => Seq (deriv c r1) (Star r1)
  end.

(** [/^r$/.test(s)]: the whole of [s] matches [r]. *)
Fixpoint test (r : regex) (s : string) : bool :=
  match s with
  | EmptyString => nullable r
  | String c s' => test (deriv c r) s'
  end.

(** [\s], on code units below 256: tab, line feed, vertical tab, form
    feed, carriage return, space and no-break space. *)
Definition space (c : ascii) : bool :=
  let n := nat_of_ascii c in
  ((9 <=? n) && (n <=? 13) || (n =? 32) || (n =? 160))%nat.

(** [\d] *)
Definition digit (c : ascii) : bool :=
  let n := nat_of_ascii c in
  ((48 <=? n) && (n <=? 57))%nat.

Definition lit (a : ascii) (c : ascii) : bool :=
  if decide (c = a) then true else false.

End Regex.

(** ** Contact form ([FormValidation]) *)

Module FormValidation.
Import Regex.

(** *** The elements of the form *)

(** A [.form-error] element: [textContent] and [style.display]. *)
Record errorElement := ErrorElement {
  message : string;
  display : string
}.

(** A [.form-group] element: whether its class list holds ['error'], and
    the [.form-error] element inside it, if any. *)
Record formGroup := FormGroup {
  error : bool;
  formError : option errorElement
}.

(** An [input] or [textarea] (or any element carrying [required]).
    [closest] is [field.closest('.form-group')], a position in the groups
    of the form, so that two fields inside one group share it.
    [validity] is the last value [validateField] returned for the field
    (it is not a property of the element). *)
Record field := Field {
  value : string;
  type : string;
  required : bool;
  defaultValue : string;
  closest : option nat;
  validity : option bool
}.

(** The [button[type="submit"]]. *)
Record button := Button {
  disabled : bool;
  label : string
}.

(** The form. [generalErrors] are the [.form-error-general] children and
    [successes] the [.form-success] children, first child first;
    [submissions] counts the calls of [submitForm] and [defaultPrevented]
    the calls of [e.preventDefault()] (neither is a variable of the
    script). *)
Record form := Form {
  fields : list field;
  groups : list formGroup;
  submitButton : option button;
  generalErrors : list string;
  successes : list string;
  submissions : nat;
  defaultPrevented : nat
}.

(** *** Strings *)

Fixpoint trimStart (s : string) : string :=
  match s with
  | String c s' => if space c then trimStart s' else s
  | EmptyString => EmptyString
  end.

(** [s.trim()] *)
Definition trim (s : string) : string :=
  String.rev (trimStart (String.rev (trimStart s))).

(** A string in a boolean position: empty is false. *)
Definition truthy (s : string) : bool :=
  match s with
  | EmptyString => false
  | _ => true
  end.

(** [/^[^\s@]+@[^\s@]+\.[^\s@]+$/] *)
Definition emailRegex : regex :=
  let other := Class (fun c => negb (space c || lit "@" c)) in
  Seq (plus other)
      (Seq (Class (lit "@"))
           (Seq (plus other) (Seq (Class (lit ".")) (plus other)))).

(** [/^[\(\)\s\-\+\d]{10,}$/] *)
Definition phoneRegex : regex :=
  at_least 10
    (Class (fun c => lit "(" c || lit ")" c || space c || lit "-" c
                     || lit "+" c || digit c)).

(** *** Field errors *)

Definition fieldGroup (f : field) (fm : form) : option nat :=
  match closest f with
  | Some g => if decide (g < length (groups fm))%nat then Some g else None
  | None => None
  end.

Definition with_groups (gs : list formGroup) (fm : form) : form :=
  {| fields := fields fm; groups := gs; submitButton := submitButton fm;
     generalErrors := generalErrors fm; successes := successes fm;
     submissions := submissions fm; defaultPrevented := defaultPrevented fm |}.

Definition with_fields (fs : list field) (fm : form) : form :=
  {| fields := fs; groups := groups fm; submitButton := submitButton fm;
     generalErrors := generalErrors fm; successes := successes fm;
     submissions := submissions fm; defaultPrevented := defaultPrevented fm |}.

(** [showFieldError(fieldGroup, errorElement, message)] *)
Definition showFieldError (fieldGroup : option nat) (msg : string) (fm : form)
  : form :=
  match fieldGroup with
  | Some g =>
      with_groups
        (alter (fun grp =>
                  {| error := true;
                     formError :=
                       (fun _ => {| message := msg; display := "block" |})
                         <$> formError grp |})
               g (groups fm)) fm
  | None => fm
  end.

(** [clearFieldError(fieldGroup, errorElement)] *)
Definition clearFieldError (fieldGroup : option nat) (fm : form) : form :=
  match fieldGroup with
  | Some g =>
      with_groups
        (alter (fun grp =>
                  {| error := false;
                     formError :=
                       (fun e => {| message := message e; display := "none" |})
                         <$> formError grp |})
               g (groups fm)) fm
  | None => fm
  end.

(** [clearError(field)] *)
Definition clearError (f : field) (fm : form) : form :=
  clearFieldError (fieldGroup f fm) fm.

(** [validateField(field)]: the result, and the form with the error of the
    field's group updated. *)
Definition validateField (f : field) (fm : form) : bool * form :=
  let value := trim (value f) in
  let type := type f in
  let fieldGroup := fieldGroup f fm in
  let fm := clearFieldError fieldGroup fm in
  if required f && negb (truthy value) then
    (false, showFieldError fieldGroup "Este campo é obrigatório." fm)
  else if (if decide (type = "email") then truthy value else false)
          && negb (test emailRegex value) then
    (false, showFieldError fieldGroup "Por favor, insira um e-mail válido." fm)
  else if (if decide (type = "tel") then truthy value else false)
          && negb (test phoneRegex value) then
    (false, showFieldError fieldGroup "Por favor, insira um telefone válido." fm)
  else
    (true, fm).

(** The result is remembered in the field at position [i]. *)
Definition record_validity (v : bool) (f : field) : field :=
  {| value := value f; type := type f; required := required f;
     defaultValue := defaultValue f; closest := closest f;
     validity := Some v |}.

(** [validateField] on the field at position [i] of the form; this is the
    [blur] listener of that field. *)
Definition validate_at (i : nat) (fm : form) : bool * form :=
  match fields fm !! i with
  | Some f =>
      let (ok, fm') := validateField f fm in
      (ok, with_fields (alter (record_validity ok) i (fields fm')) fm')
  | None => (true, fm)
  end.

(** [validateForm()]: [validateField] on every [[required]] element, in
    document order, none skipped. *)
Definition validate_required (acc : bool * form) (i : nat) : bool * form :=
  let (isValid, fm) := acc in
  match fields fm !! i with
  | Some f =>
      if required f then
        let (ok, fm') := validate_at i fm in
        (if negb ok then false else isValid, fm')
      else acc
  | None => acc
  end.

Definition validateForm (fm : form) : bool * form :=
  foldl validate_required (true, fm) (seq 0 (length (fields fm))).

(** [showFormError(message)]: the first [.form-error-general] element is
    reused, one is created when there is none. *)
Definition showFormError (msg : string) (fm : form) : form :=
  {| fields := fields fm; groups := groups fm;
     submitButton := submitButton fm;
     generalErrors :=
       match generalErrors fm with
       | [] => [msg]
       | _ :: others => msg :: others
       end;
     successes := successes fm;
     submissions := submissions fm; defaultPrevented := defaultPrevented fm |}.

(** [showSuccessMessage(message)]: a new first child. *)
Definition showSuccessMessage (msg : string) (fm : form) : form :=
  {| fields := fields fm; groups := groups fm;
     submitButton := submitButton fm;
     generalErrors := generalErrors fm;
     successes := msg :: successes fm;
     submissions := submissions fm; defaultPrevented := defaultPrevented fm |}.

(** [form.reset()] *)
Definition reset (fm : form) : form :=
  with_fields
    ((fun f => {| value := defaultValue f; type := type f;
                  required := required f; defaultValue := defaultValue f;
                  closest := closest f; validity := validity f |})
       <$> fields fm) fm.

Definition with_button (b : option button) (fm : form) : form :=
  {| fields := fields fm; groups := groups fm; submitButton := b;
     generalErrors := generalErrors fm; successes := successes fm;
     submissions := submissions fm; defaultPrevented := defaultPrevented fm |}.

(** *** Statements that may throw *)

Inductive completion (A : Type) :=
| Normal (a : A)
| Throw (e : string).
Arguments Normal {A} a.
Arguments Throw {A} e.

Definition M (A : Type) : Type := form -> completion A * form.

#[global] Instance M_ret : MRet M := fun A a fm => (Normal a, fm).

#[global] Instance M_bind : MBind M := fun A B k m fm =>
  match m fm with
  | (Normal a, fm') => k a fm'
  | (Throw e, fm') => (Throw e, fm')
  end.

Definition throw {A} (e : string) : M A := fun fm => (Throw e, fm).

(** A statement that cannot throw. *)
Definition exec (f : form -> form) : M unit := fun fm => (Normal tt, f fm).

(** [try { body } catch (error) { handler } finally { finalizer }] *)
Definition try_catch_finally {A} (body : M A) (handler : string -> M A)
    (finalizer : M unit) : M A :=
  fun fm =>
    let (c, fm1) :=
      match body fm with
      | (Throw e, fm') => handler e fm'
      | done => done
      end in
    match finalizer fm1 with
    | (Normal _, fm2) => (c, fm2)
    | (Throw e, fm2) => (Throw e, fm2)
    end.

(** [this.form.querySelector('button[type="submit"]')], at the first
    property access: reading a property of [null] throws. *)
Definition the_submitButton : M button :=
  fun fm =>
    match submitButton fm with
    | Some b => (Normal b, fm)
    | None => (Throw "TypeError", fm)
    end.

Definition set_disabled (d : bool) : M unit :=
  exec (fun fm =>
          with_button
            ((fun b => {| disabled := d; label := label b |})
               <$> submitButton fm) fm).

Definition set_label (text : string) : M unit :=
  exec (fun fm =>
          with_button
            ((fun b => {| disabled := disabled b; label := text |})
               <$> submitButton fm) fm).

(** [await] on the submission: it settles by resolving or by rejecting.
    (The script's stand-in, a 1500 ms timer, always resolves.) *)
Definition await (resolves : bool) : M unit :=
  if resolves then mret tt else throw "rejected".

Definition entered : M unit :=
  exec (fun fm =>
          {| fields := fields fm; groups := groups fm;
             submitButton := submitButton fm;
             generalErrors := generalErrors fm; successes := successes fm;
             submissions := S (submissions fm);
             defaultPrevented := defaultPrevented fm |}).

(** [submitForm()], from the call to the settling of the promise it
    returns. *)
Definition submitForm (resolves : bool) : M unit :=
  entered ;;
  submitButton ← the_submitButton;
  let originalText := label submitButton in
  try_catch_finally
    (set_disabled true ;;
     set_label "Enviando..." ;;
     await resolves ;;
     exec (showSuccessMessage
             "Mensagem enviada com sucesso! Entraremos em contato em breve.") ;;
     exec reset)
    (fun error => exec (showFormError "Erro ao enviar mensagem. Tente novamente."))
    (set_disabled false ;;
     set_label originalText).

(** The same function in two pieces, cut at the [await]: what runs inside
    the [submit] event (its result is [originalText]), and what runs when
    the awaited promise has settled. Other events can be dispatched
    between the two. *)
Definition submitForm_begin : M string :=
  entered ;;
  submitButton ← the_submitButton;
  let originalText := label submitButton in
  set_disabled true ;;
  set_label "Enviando..." ;;
  mret originalText.

Definition submitForm_resume (resolves : bool) (originalText : string)
  : M unit :=
  try_catch_finally
    (await resolves ;;
     exec (showSuccessMessage
             "Mensagem enviada com sucesso! Entraremos em contato em breve.") ;;
     exec reset)
    (fun error => exec (showFormError "Erro ao enviar mensagem. Tente novamente."))
    (set_disabled false ;;
     set_label originalText).

Definition preventDefault (fm : form) : form :=
  {| fields := fields fm; groups := groups fm;
     submitButton := submitButton fm;
     generalErrors := generalErrors fm; successes := successes fm;
     submissions := submissions fm;
     defaultPrevented := S (defaultPrevented fm) |}.

(** [handleSubmit(e)]; the promise of [submitForm()] is dropped. *)
Definition handleSubmit (resolves : bool) (fm : form) : form :=
  let fm := preventDefault fm in
  let (isValid, fm) := validateForm fm in
  if isValid then
    (submitForm resolves fm).2
  else
    showFormError "Por favor, corrija os erros antes de enviar." fm.

(** *** Events *)

Inductive event :=
| Blur (i : nat)
| Input (i : nat) (text : string)
| Submit (resolves : bool).

(** The [input] listener runs after the element has taken the new value. *)
Definition typed (i : nat) (text : string) (fm : form) : form :=
  with_fields
    (alter (fun f => {| value := text; type := type f;
                        required := required f;
                        defaultValue := defaultValue f;
                        closest := closest f; validity := validity f |})
           i (fields fm)) fm.

Definition step (fm : form) (e : event) : form :=
  match e with
  | Blur i => (validate_at i fm).2
  | Input i text =>
      let fm := typed i text fm in
      match fields fm !! i with
      | Some f => clearError f fm
      | None => fm
      end
  | Submit resolves => handleSubmit resolves fm
  end.

Definition run (fm : form) (events : list event) : form :=
  foldl step fm events.

(** Whether the error of a field is on display: the ['error'] class of
    its group. *)
Definition error_shown (f : field) (fm : form) : option bool :=
  g ← fieldGroup f fm; error <$> groups fm !! g.

(** The claimed invariant: a field that has been validated shows an error
    exactly when the last validation failed. *)
Definition display_follows_validity (fm : form) : Prop :=
  forall i f v shown,
    fields fm !! i = Some f ->
    validity f = Some v ->
    error_shown f fm = Some shown ->
    shown = negb v.

(** What a validation reads of a field. *)
Definition inputs (f : field)
  : string * string * bool * string * option nat :=
  (value f, type f, required f, defaultValue f, closest f).

(** What validation leaves alone: everything but the validity of the
    fields and the contents of the groups. *)
Definition static (fm : form) :=
  (inputs <$> fields fm, length (groups fm), submitButton fm,
   generalErrors fm, successes fm, submissions fm, defaultPrevented fm).

(** What the error display of the fields is a function of. *)
Definition shape (fm : form) :=
  ((fun f => (closest f, validity f)) <$> fields fm, groups fm).

(** No two fields stand in the same [.form-group]. *)
Definition distinct_groups (fm : form) : Prop :=
  forall i j f f' g,
    fields fm !! i = Some f -> fields fm !! j = Some f' ->
    fieldGroup f fm = Some g -> fieldGroup f' fm = Some g -> i = j.

(** The [submit] events. *)
Definition submits (e : event) : bool :=
  match e with
  | Submit _ => true
  | _ => false
  end.

(** What an event does to the field at position [i]: its own [blur], and
    [submit] when the field is [[required]], validate it; its own [input]
    clears its error; no other event runs a listener on it. *)
Inductive effect :=
| Validated
| Cleared
| Untouched.

Definition effect_on (e : event) (i : nat) (f : field) : effect :=
  match e with
  | Blur j => if decide (j = i) then Validated else Untouched
  | Input j _ => if decide (j = i) then Cleared else Untouched
  | Submit _ => if required f then Validated else Untouched
  end.

(** One half of the claimed invariant: an error is on display only for a
    field whose last validation failed. *)
Definition shown_only_if_invalid (fm : form) : Prop :=
  forall i f,
    fields fm !! i = Some f ->
    error_shown f fm = Some true ->
    validity f = Some false.

End FormValidation.

(** * The rest of the script *)

(** ** [debounce] in the event loop *)

Module Debounced.
Section Loop.
Context {A : Type}.

(** What the event loop does with the closure of [debounce]: a task
    invokes the wrapper at instant [now], or the loop looks at the timers
    at instant [now]. Nothing makes the loop look at the timers as soon
    as one is due: a timer may run late, and an invocation made before it
    has run clears it ([clearTimeout]), due or not. *)
Inductive event :=
| Invoke (now : Z) (args : A)
| Timers (now : Z).

(** The loop looks at the timers at instant [now]: [later()] runs if its
    timer is pending and due; the execution is logged at [now]. *)
Definition later_at (now : Z) (s : Timing.debounced A) : Timing.debounced A :=
  match Timing.timeout s with
  | Some tm =>
      if Timing.due tm <=? now then
        {| Timing.timeout := None;
           Timing.d_executed :=
             Timing.d_executed s ++ [(now, Timing.captured tm)] |}
      else s
  | None => s
  end.

Definition step (wait : Z) (s : Timing.debounced A) (e : event)
  : Timing.debounced A :=
  match e with
  | Invoke now args => Timing.executedFunction wait now args s
  | Timers now => later_at now s
  end.

Definition run (wait : Z) (events : list event) : Timing.debounced A :=
  foldl (step wait) Timing.debounce events.

(** The invocations among the events, as pairs of instant and arguments. *)
Definition invocation (e : event) : option (Z * A) :=
  match e with
  | Invoke now args => Some (now, args)
  | Timers _ => None
  end.

Definition invocations (events : list event) : list (Z * A) :=
  omap invocation events.

(** When a timer due at [due] runs, given the events that follow its
    [setTimeout]: at the first look at the timers at which it is due,
    unless the wrapper is invoked before that. *)
Fixpoint fires (due : Z) (events : list event) : option Z :=
  match events with
  | [] => None
  | Invoke _ _ :: _ => None
  | Timers now :: rest => if due <=? now then Some now else fires due rest
  end.

(** The executions of the action, read off the events invocation by
    invocation. *)
Fixpoint executions (wait : Z) (events : list event)
  : list (Timing.execution A) :=
  match events with
  | [] => []
  | Invoke t args :: rest =>
      match fires (t + Z.max 0 wait) rest with
      | Some now => (now, args) :: executions wait rest
      | None => executions wait rest
      end
  | Timers _ :: rest => executions wait rest
  end.

(** An execution [x] of the invocation [c]: the same arguments, at least
    [wait] later. *)
Definition executes (wait : Z) (c : Z * A) (x : Timing.execution A) : Prop :=
  x.2 = c.2 /\ c.1 + Z.max 0 wait <= x.1.

End Loop.
Arguments event : clear implicits.
End Debounced.

(** ** [throttle]: executions against invocations *)

Module Throttled.
Section Accounted.
Context {A : Type}.

(** What the closure of [throttle] keeps while it handles the invocations
    [made] so far: no more executions and pending timers than
    invocations, and every execution and every pending timer with the
    arguments of an invocation made no later. *)
Definition accounted (made : list (Z * A)) (s : Timing.throttled A) : Prop :=
  (length (Timing.t_executed s)
   + match Timing.timeoutId s with Some _ => 1 | None => 0 end
   <= length made)%nat
  /\ Forall (fun e => exists c, c ∈ made /\ c.2 = e.2 /\ c.1 <= e.1)
            (Timing.t_executed s)
  /\ (forall tm, Timing.timeoutId s = Some tm ->
        exists c, c ∈ made /\ c.2 = Timing.captured tm
                  /\ c.1 <= Timing.due tm).

End Accounted.
End Throttled.

(** ** A throttled scroll listener and the page it works on

    Every scroll behaviour of the script registers
    [throttle(() => this.handler(), delay)] as its listener: the wrapped
    callback takes no arguments and reads the window when it runs. Here
    the closure of [throttle] carries the page of type [W] the callback
    works on, in place of the log of [Timing]. *)

Module ThrottledListener.
Section Listener.
Context {W : Type}.
Variable func : W -> W.
Variable delay : Z.

(** [timeoutId] (the instant the pending timer is due), [lastExecTime],
    and the page. *)
Record listener := Listener {
  timeoutId : option Z;
  lastExecTime : Z;
  world : W
}.

Definition throttle (w : W) : listener :=
  {| timeoutId := None; lastExecTime := 0; world := w |}.

(** The returned function, invoked at [currentTime = Date.now()]. *)
Definition invoke (currentTime : Z) (s : listener) : listener :=
  if delay <? currentTime - lastExecTime s then
    {| timeoutId := timeoutId s;
       lastExecTime := currentTime;
       world := func (world s) |}
  else
    {| timeoutId :=
         Some (currentTime + Z.max 0 (delay - (currentTime - lastExecTime s)));
       lastExecTime := lastExecTime s;
       world := world s |}.

(** The timer callback, run at instant [now]:
    [func.apply(this, args); lastExecTime = Date.now()]. *)
Definition callback (now : Z) (s : listener) : listener :=
  {| timeoutId := None; lastExecTime := now; world := func (world s) |}.

(** The loop looks at the timer at instant [now]: it runs when it is
    pending and due, not before. *)
Definition expire (now : Z) (s : listener) : listener :=
  match timeoutId s with
  | Some due => if due <=? now then callback now s else s
  | None => s
  end.

(** What the event loop does: the window scrolls ([move] changes the page)
    and the scroll event is dispatched, the loop looks at the timer, or
    something else changes the page and the listener is not told. *)
Inductive loop_event :=
| Scrolled (t : Z) (move : W -> W)
| Expired (t : Z)
| Changed (change : W -> W).

Definition step (s : listener) (e : loop_event) : listener :=
  match e with
  | Scrolled t move =>
      invoke t {| timeoutId := timeoutId s;
                  lastExecTime := lastExecTime s;
                  world := move (world s) |}
  | Expired t => expire t s
  | Changed change =>
      {| timeoutId := timeoutId s;
         lastExecTime := lastExecTime s;
         world := change (world s) |}
  end.

(** A pending timer runs in the end. *)
Definition settle (s : listener) : listener :=
  match timeoutId s with
  | Some due => callback due s
  | None => s
  end.

Definition run (s : listener) (events : list loop_event) : listener :=
  settle (foldl step s events).

(** What a property [K] of the page needs of an event to survive it. *)
Definition keeps (K : W -> Prop) (e : loop_event) : Prop :=
  match e with
  | Scrolled _ move => forall w, K w -> K (move w)
  | Expired _ => True
  | Changed change => forall w, K w -> K (change w)
  end.

(** The same for the events after the last scroll, where [P] is what the
    last scroll has set up and [Q] what the callback brings about. *)
Definition quiet (P Q : W -> Prop) (e : loop_event) : Prop :=
  match e with
  | Scrolled _ _ => False
  | Expired _ => True
  | Changed change =>
      forall w, P w -> P (change w) /\ (Q w -> Q (change w))
  end.

End Listener.
Arguments listener : clear implicits.
Arguments loop_event : clear implicits.
Arguments Expired {W} t.

(** A schedule: at each instant either the window scrolls to a position
    or the loop looks at the timer. *)
Definition schedule {W Y : Type} (scroll_to : Y -> W -> W)
    (ticks : list (Z * option Y)) : list (loop_event W) :=
  (fun tick =>
     match tick.2 with
     | Some y => Scrolled tick.1 (scroll_to y)
     | None => Expired tick.1
     end) <$> ticks.

(** The last scroll of a schedule is to [y] at [t], after the ticks
    [before]; then the loop looks at the timer at the instants
    [timers]. *)
Definition ending_at {Y : Type} (before : list (Z * option Y)) (t : Z)
    (y : Y) (timers : list Z) : list (Z * option Y) :=
  before ++ (t, Some y) :: ((fun t' => (t', None)) <$> timers).

End ThrottledListener.

(** ** Header style ([HeaderScrollEffect]) *)

Module HeaderScrollEffect.

(** [window.scrollY], the ['scrolled'] class of the [.header] element
    ([None] when the page has no such element), and [this.lastScrollY]. *)
Record page := Page {
  scrollY : Z;
  header : option bool;
  lastScrollY : Z
}.

(** [handleScroll()] *)
Definition handleScroll (p : page) : page :=
  let currentScrollY := scrollY p in
  {| scrollY := scrollY p;
     header :=
       if 100 <? currentScrollY then (fun _ => true) <$> header p
       else (fun _ => false) <$> header p;
     lastScrollY := currentScrollY |}.

(** The window scrolls to [y]. *)
Definition scroll_to (y : Z) (p : page) : page :=
  {| scrollY := y; header := header p; lastScrollY := lastScrollY p |}.

(** [new HeaderScrollEffect()]: [lastScrollY] is read, the listener is
    registered with a delay of 16, and [handleScroll()] runs once. *)
Definition init (p : page) : ThrottledListener.listener page :=
  ThrottledListener.throttle
    (handleScroll {| scrollY := scrollY p; header := header p;
                     lastScrollY := scrollY p |}).

End HeaderScrollEffect.

(** ** Scroll-to-top button ([ScrollToTop]) *)

Module ScrollToTop.

(** [window.scrollY], whether the button has the ['visible'] class, and
    the calls of [window.scrollTo] made by the button. *)
Record page := Page {
  scrollY : Z;
  visible : bool;
  scrollTo : list Z
}.

(** The throttled handler of [init]. *)
Definition handleScroll (p : page) : page :=
  {| scrollY := scrollY p;
     visible := if 500 <? scrollY p then true else false;
     scrollTo := scrollTo p |}.

(** The [click] listener: [window.scrollTo({ top: 0, behavior: 'smooth' })]. *)
Definition click (p : page) : page :=
  {| scrollY := scrollY p; visible := visible p;
     scrollTo := scrollTo p ++ [0] |}.

Definition scroll_to (y : Z) (p : page) : page :=
  {| scrollY := y; visible := visible p; scrollTo := scrollTo p |}.

End ScrollToTop.

(** ** Parallax ([ParallaxEffect]) *)

Module ParallaxEffect.

(** [window.pageYOffset], [window.innerHeight], the [offsetHeight] of the
    hero section, and the number [r] of its
    [style.transform = `translateY(${r}px)`] ([None]: as authored). *)
Record page := Page {
  pageYOffset : Z;
  innerHeight : Z;
  offsetHeight : Z;
  transform : option Q
}.

(** [handleParallax()] *)
Definition handleParallax (p : page) : page :=
  let scrolled := pageYOffset p in
  let heroHeight := offsetHeight p in
  let windowHeight := innerHeight p in
  if scrolled <? heroHeight + windowHeight then
    let rate := (inject_Z scrolled * - (1 # 2))%Q in
    {| pageYOffset := pageYOffset p; innerHeight := innerHeight p;
       offsetHeight := offsetHeight p; transform := Some rate |}
  else p.

Definition scroll_to (y : Z) (p : page) : page :=
  {| pageYOffset := y; innerHeight := innerHeight p;
     offsetHeight := offsetHeight p; transform := transform p |}.

End ParallaxEffect.

(** ** The throttled listeners of [ActiveNavigation] and
    [CounterAnimation] *)

Module ScrollListeners.

(** The page of [ActiveNavigation]: [window.scrollY] and the nav links;
    the sections do not change. *)
Record nav_page := NavPage {
  scrollY : Z;
  navLinks : list ActiveNavigation.nav_link
}.

Definition highlight (sections : list ActiveNavigation.page_section)
    (p : nav_page) : nav_page :=
  {| scrollY := scrollY p;
     navLinks := ActiveNavigation.handleScroll (scrollY p) sections (navLinks p) |}.

Definition nav_scroll_to (y : Z) (p : nav_page) : nav_page :=
  {| scrollY := y; navLinks := navLinks p |}.

(** The page of [CounterAnimation]: what the window shows and the
    counters. *)
Definition counter_page : Type :=
  CounterAnimation.viewport * CounterAnimation.page.

Definition count (w : counter_page) : counter_page :=
  (w.1, CounterAnimation.handleScroll w.1 w.2).

Definition counter_scroll_to (v : CounterAnimation.viewport)
    (w : counter_page) : counter_page :=
  (v, w.2).

(** What happens to the counters: the window scrolls and shows [v], the
    loop looks at the timer of the listener, or an animation frame
    runs. *)
Inductive counter_tick :=
| Scroll (t : Z) (v : CounterAnimation.viewport)
| Timer (t : Z)
| Frame.

Definition counter_event (tick : counter_tick)
  : ThrottledListener.loop_event counter_page :=
  match tick with
  | Scroll t v => ThrottledListener.Scrolled t (counter_scroll_to v)
  | Timer t => ThrottledListener.Expired t
  | Frame =>
      ThrottledListener.Changed
        (fun w => (w.1, CounterAnimation.animation_frame w.2))
  end.

(** A tick that is not a scroll. *)
Definition no_scroll (tick : counter_tick) : bool :=
  match tick with
  | Scroll _ _ => false
  | _ => true
  end.

(** The page [new CounterAnimation()] starts from, before its first
    check. *)
Definition fresh (stats : list CounterAnimation.stat) : CounterAnimation.page :=
  {| CounterAnimation.statNumbers := stats;
     CounterAnimation.animated := ∅;
     CounterAnimation.frame_queue := [];
     CounterAnimation.started := [] |}.

(** The visited set is the set of the elements that have had an
    animation started, each exactly one, and holds elements of
    [statNumbers] only. *)
Definition started_once (p : CounterAnimation.page) : Prop :=
  forall element,
    CounterAnimation.animations_started element p
    = (if decide (element ∈ CounterAnimation.animated p) then 1 else 0)%nat
    /\ (element ∈ CounterAnimation.animated p ->
        (element < length (CounterAnimation.statNumbers p))%nat).

End ScrollListeners.

(** ** The animations of the counters, frame after frame *)

Module CounterFrames.
Import CounterAnimation.

(** The closure writes its target within [n] more frames. *)
Definition finishes_within (n : nat) (c : counter) : Prop :=
  exists trace, frames n c = Some trace /\ last trace = Some (target c).

(** The element shows the number of its [data-target]. *)
Definition settled (s : stat) : Prop :=
  textContent s = Written (data_target s).

(** Every element of the visited set shows its target or has one closure
    queued that writes it within [n] frames; no closure is queued for
    another element. *)
Definition settling (n : nat) (p : page) : Prop :=
  forall element,
    (element ∉ animated p -> queued_for element p = [])
    /\ (element ∈ animated p ->
        exists s,
          statNumbers p !! element = Some s
          /\ ((queued_for element p = [] /\ settled s)
              \/ exists c,
                   queued_for element p = [(element, c)]
                   /\ target c = data_target s
                   /\ finishes_within n c)).

(** The animation of every counter takes at most [S k] frames. *)
Definition within (k : nat) (stats : list stat) : Prop :=
  Forall (fun s => finishes_within (S k) (new_counter (data_target s)))
         stats.

End CounterFrames.

(** ** Mobile menu ([MobileMenu]) *)

Module MobileMenu.

(** [this.isOpen], the ['active'] class of the navbar, the
    [aria-expanded] attribute of the toggle ([None]: absent) and
    [document.body.style.overflow]. *)
Record menu := Menu {
  isOpen : bool;
  active : bool;
  aria_expanded : option string;
  overflow : string
}.

(** [open()] *)
Definition open (m : menu) : menu :=
  {| isOpen := true; active := true; aria_expanded := Some "true";
     overflow := "hidden" |}.

(** [close()] *)
Definition close (m : menu) : menu :=
  {| isOpen := false; active := false; aria_expanded := Some "false";
     overflow := "" |}.

(** [toggle()] *)
Definition toggle (m : menu) : menu :=
  if isOpen m then close m else open m.

(** An element on the way of a click from its target up to the document:
    whether it is [menuToggle], one of [navLinks], [navbar]. *)
Record element := Element {
  is_menuToggle : bool;
  is_navLink : bool;
  is_navbar : bool
}.

(** The listeners of one element, in the order [init] registered them. *)
Definition listeners (m : menu) (el : element) : menu :=
  let m := if is_menuToggle el then toggle m else m in
  if is_navLink el then close m else m.

(** The [click] listener of the document. [path] is the target followed
    by its ancestors, so [navbar.contains(e.target)] is "the navbar is on
    the path". *)
Definition outside (path : list element) (m : menu) : menu :=
  if negb (existsb is_navbar path) && negb (existsb is_menuToggle path)
  then close m else m.

(** A click bubbles from its target to the document. [wired] is the guard
    of [init], [menuToggle && navbar]: without it no listener exists. *)
Definition click (wired : bool) (path : list element) (m : menu) : menu :=
  if wired then outside path (foldl listeners m path) else m.

(** The [keydown] listener of the document. *)
Definition keydown (wired : bool) (key : string) (m : menu) : menu :=
  if wired then
    if (if decide (key = "Escape") then isOpen m else false) then close m
    else m
  else m.

Inductive event :=
| Click (path : list element)
| Keydown (key : string).

Definition step (wired : bool) (m : menu) (e : event) : menu :=
  match e with
  | Click path => click wired path m
  | Keydown key => keydown wired key m
  end.

(** The page agrees with [isOpen]. *)
Definition consistent (m : menu) : Prop :=
  active m = isOpen m
  /\ aria_expanded m = Some (if isOpen m then "true" else "false")
  /\ overflow m = (if isOpen m then "hidden" else "").

(** [menuToggle] is one element: it is on a path at most once. *)
Definition toggles (path : list element) : nat :=
  length (filter (fun el => is_menuToggle el = true) path).

End MobileMenu.

(** ** Smooth scrolling ([SmoothScroll]) *)

Module SmoothScroll.

(** A clicked element: whether it is one of [navLinks], whether it is an
    [a] element, and its [href] attribute ([None]: absent). *)
Record link := Link {
  is_navLink : bool;
  is_anchor : bool;
  href : option string
}.

(** What a click has done when its listeners have run: whether
    [e.preventDefault()] was called, the ids of the elements
    [scrollIntoView] was called on, in order, and the errors thrown by
    listeners. *)
Record outcome := Outcome {
  defaultPrevented : bool;
  scrolledIntoView : list string;
  thrown : list string
}.

(** [s.substring(1)] *)
Definition substring1 (s : string) : string :=
  match s with
  | String _ rest => rest
  | EmptyString => EmptyString
  end.

(** [document.getElementById(id)], for a document whose elements have the
    ids [ids]: the id of the element found. No element has the empty id. *)
Definition getElementById (ids : gset string) (id : string) : option string :=
  if decide (id <> "" /\ id ∈ ids) then Some id else None.

(** [targetSection.scrollIntoView(...)] when [targetSection] is not null. *)
Definition scrollIntoView (ids : gset string) (targetId : string)
    (o : outcome) : outcome :=
  match getElementById ids targetId with
  | Some id =>
      {| defaultPrevented := defaultPrevented o;
         scrolledIntoView := scrolledIntoView o ++ [id];
         thrown := thrown o |}
  | None => o
  end.

Definition preventDefault (o : outcome) : outcome :=
  {| defaultPrevented := true;
     scrolledIntoView := scrolledIntoView o;
     thrown := thrown o |}.

(** The listener of the first loop, registered on every nav link. *)
Definition on_navLink (ids : gset string) (l : link) (o : outcome) : outcome :=
  let o := preventDefault o in
  match href l with
  | None =>
      {| defaultPrevented := defaultPrevented o;
         scrolledIntoView := scrolledIntoView o;
         thrown := thrown o ++ ["TypeError"] |}
  | Some h => scrollIntoView ids (substring1 h) o
  end.

(** The listener of the second loop, registered on every [a[href^="#"]]. *)
Definition on_anchor (ids : gset string) (h : string) (o : outcome) : outcome :=
  if decide (h = "#" \/ h = "#!") then o
  else scrollIntoView ids (substring1 h) (preventDefault o).

(** Whether the second loop finds the element. *)
Definition in_page (l : link) : option string :=
  match href l with
  | Some h => if is_anchor l && String.prefix "#" h then Some h else None
  | None => None
  end.

(** A click on the element: its listeners run in the order [init]
    registered them; an error in one does not stop the next. *)
Definition click (ids : gset string) (l : link) : outcome :=
  let o := {| defaultPrevented := false; scrolledIntoView := [];
              thrown := [] |} in
  let o := if is_navLink l then on_navLink ids l o else o in
  match in_page l with
  | Some h => on_anchor ids h o
  | None => o
  end.

(** What the listeners keep of an outcome: what was scrolled into view is
    an element of the document named by the href [h], and nothing is
    scrolled unless the default action is prevented. *)
Definition sound_for (ids : gset string) (h : string) (o : outcome) : Prop :=
  Forall (fun id => id = substring1 h /\ id <> "" /\ id ∈ ids)
         (scrolledIntoView o)
  /\ (scrolledIntoView o <> [] -> defaultPrevented o = true).

End SmoothScroll.

(** ** Fade-in reveal ([ScrollAnimations]) *)

Module ScrollAnimations.

(** The elements the observer watches, and the elements that have the
    ['fade-in-up'] class; elements are positions in [animateElements]. *)
Record state := State {
  observed : gset nat;
  fade_in_up : gset nat
}.

(** An [IntersectionObserverEntry]. *)
Record entry := Entry {
  target : nat;
  isIntersecting : bool
}.

(** The body of [entries.forEach]. *)
Definition on_entry (st : state) (e : entry) : state :=
  if isIntersecting e then
    {| observed := observed st ∖ {[target e]};
       fade_in_up := fade_in_up st ∪ {[target e]} |}
  else st.

(** The callback of the observer. *)
Definition callback (st : state) (entries : list entry) : state :=
  foldl on_entry st entries.

(** The observer reports on the elements it watches when the batch is
    put together, and on no other. *)
Definition deliver (st : state) (entries : list entry) : state :=
  callback st (filter (fun e => target e ∈ observed st) entries).

(** [init()]: every element of [animateElements] is observed; [styled]
    are the elements that have the class as authored. *)
Definition init (animateElements : nat) (styled : gset nat) : state :=
  {| observed := list_to_set (seq 0 animateElements);
     fade_in_up := styled |}.

Definition run (st : state) (batches : list (list entry)) : state :=
  foldl deliver st batches.

End ScrollAnimations.

(** ** What the patterns of the form accept *)

Module RegexLanguage.
Import Regex.

(** The strings of a regular expression. *)
Inductive matches : regex -> string -> Prop :=
| matches_Eps : matches Eps ""
| matches_Class p c : p c = true -> matches (Class p) (String c "")
| matches_Seq r1 r2 s1 s2 :
    matches r1 s1 -> matches r2 s2 -> matches (Seq r1 r2) (s1 +:+ s2)
| matches_Alt_l r1 r2 s : matches r1 s -> matches (Alt r1 r2) s
| matches_Alt_r r1 r2 s : matches r2 s -> matches (Alt r1 r2) s
| matches_Star_nil r : matches (Star r) ""
| matches_Star_cons r s1 s2 :
    matches r s1 -> matches (Star r) s2 -> matches (Star r) (s1 +:+ s2).

(** Every character of [s] is in the class [p]. *)
Fixpoint all (p : ascii -> bool) (s : string) : bool :=
  match s with
  | EmptyString => true
  | String c s' => p c && all p s'
  end.

(** [[^\s@]]: neither white space nor an at sign. *)
Definition plain (c : ascii) : bool := negb (space c || lit "@" c).

(** [[\(\)\s\-\+\d]] *)
Definition dialable (c : ascii) : bool :=
  lit "(" c || lit ")" c || space c || lit "-" c || lit "+" c || digit c.

(** A non-empty string of plain characters. *)
Definition word (s : string) : Prop := s <> "" /\ all plain s = true.

(** [local@domain.tld] *)
Definition email_shape (s : string) : Prop :=
  exists local domain tld,
    s = local +:+ "@" +:+ domain +:+ "." +:+ tld
    /\ word local /\ word domain /\ word tld.

(** At least ten dialable characters and nothing else. *)
Definition phone_shape (s : string) : Prop :=
  (10 <= String.length s)%nat /\ all dialable s = true.

(** [String c "" +:+ s] is [String c s]. *)
Ltac cons_app :=
  repeat match goal with
         | |- context [String ?c "" +:+ ?s] =>
             change (String c "" +:+ s) with (String c s)
         end.

End RegexLanguage.

(** * Properties *)

(** ** Timing utilities *)

Section TimingFacts.
Import Timing.
Context {A : Type}.
Implicit Types (s : throttled A) (calls : list (Z * A)).

(** *** debounce *)

Lemma d_run_pending (w : Z) (rest : list (Z * A)) :
  forall t a log tn an,
    burst w t rest ->
    last ((t, a) :: rest) = Some (tn, an) ->
    d_executed
      (d_run w rest {| timeout := Some (setTimeout t w a);
                       d_executed := log |})
    = log ++ [(tn + Z.max 0 w, an)].
Proof.
  induction rest as [|[t' a'] rest IH]; intros t a log tn an Hb Hl.
  - simpl in Hl. injection Hl as <- <-. reflexivity.
  - destruct Hb as (Hle & Hlt & Hb).
    cbn [d_run]. unfold d_tick. cbn [timeout setTimeout due].
    destruct (Z.leb_spec (t + Z.max 0 w) t') as [Hdue|_]; [lia|].
    unfold executedFunction. cbn [d_executed].
    apply (IH t' a' log tn an Hb).
    rewrite last_cons_cons in Hl. exact Hl.
Qed.

(** *** throttle *)

Lemma spaced_snoc (d : Z) (log : list (execution A)) (x : execution A) :
  spaced d log ->
  (forall e, last log = Some e -> d <= x.1 - e.1) ->
  spaced d (log ++ [x]).
Proof.
  intros Hs Hx l1 e1 e2 l2 Heq.
  destruct l2 as [|y l2 _] using rev_ind.
  - replace (l1 ++ [e1; e2]) with ((l1 ++ [e1]) ++ [e2]) in Heq
      by (rewrite <- app_assoc; reflexivity).
    apply app_inj_tail in Heq as [-> ->].
    apply Hx. apply last_snoc.
  - replace (l1 ++ e1 :: e2 :: l2 ++ [y])
      with ((l1 ++ e1 :: e2 :: l2) ++ [y]) in Heq
      by (rewrite <- app_assoc; reflexivity).
    apply app_inj_tail in Heq as [-> _].
    exact (Hs l1 e1 e2 l2 eq_refl).
Qed.

(** The two branches of the wrapper, and the three cases of the loop
    reaching an instant. *)
Lemma throttled_call_now (delay now : Z) (a : A) s :
  delay < now - lastExecTime s ->
  throttled_call delay now a s
  = {| timeoutId := timeoutId s; lastExecTime := now;
       t_executed := t_executed s ++ [(now, a)] |}.
Proof.
  intros H. unfold throttled_call.
  destruct (Z.ltb_spec delay (now - lastExecTime s)); [reflexivity|lia].
Qed.

Lemma throttled_call_soon (delay now : Z) (a : A) s :
  now - lastExecTime s <= delay ->
  throttled_call delay now a s
  = {| timeoutId := Some {| due := lastExecTime s + delay; captured := a |};
       lastExecTime := lastExecTime s;
       t_executed := t_executed s |}.
Proof.
  intros H. unfold throttled_call, setTimeout.
  destruct (Z.ltb_spec delay (now - lastExecTime s)); [lia|].
  do 3 f_equal. lia.
Qed.

Lemma t_tick_idle (now : Z) s : timeoutId s = None -> t_tick now s = s.
Proof. intros H. unfold t_tick. rewrite H. reflexivity. Qed.

Lemma t_tick_due (now : Z) s (tm : timer A) :
  timeoutId s = Some tm -> due tm <= now -> t_tick now s = trailing s.
Proof.
  intros H Hd. unfold t_tick. rewrite H.
  destruct (Z.leb_spec (due tm) now); [reflexivity|lia].
Qed.

Lemma t_tick_pending (now : Z) s (tm : timer A) :
  timeoutId s = Some tm -> now < due tm -> t_tick now s = s.
Proof.
  intros H Hd. unfold t_tick. rewrite H.
  destruct (Z.leb_spec (due tm) now); [lia|reflexivity].
Qed.

Lemma t_inv_init (delay : Z) : t_inv delay (@throttle A).
Proof.
  repeat split; cbn; try discriminate.
  intros l1 e1 e2 l2 H. destruct l1; discriminate.
Qed.

Lemma t_inv_trailing (delay : Z) s :
  t_inv delay s -> t_inv delay (trailing s) /\ timeoutId (trailing s) = None.
Proof.
  intros Hinv. pose proof Hinv as (Hdue & Hsp & Hlast). unfold trailing.
  destruct (timeoutId s) as [tm|] eqn:E.
  - split; [|reflexivity]. repeat split; cbn.
    + discriminate.
    + apply spaced_snoc; [exact Hsp|]. cbn.
      intros e He. rewrite (Hlast e He), (Hdue tm eq_refl). lia.
    + intros e. rewrite last_snoc. intros [= <-]. reflexivity.
  - split; [exact Hinv|exact E].
Qed.

(** After [t_tick now], a timer that is still pending is due later. *)
Lemma t_inv_tick (delay now : Z) s :
  t_inv delay s ->
  t_inv delay (t_tick now s)
  /\ (forall tm, timeoutId (t_tick now s) = Some tm -> now < due tm).
Proof.
  intros Hinv. unfold t_tick.
  destruct (timeoutId s) as [tm|] eqn:E.
  - destruct (Z.leb_spec (due tm) now) as [Hle|Hgt].
    + destruct (t_inv_trailing delay s Hinv) as [H1 H2].
      split; [exact H1|]. rewrite H2. discriminate.
    + split; [exact Hinv|]. rewrite E. intros ? [= <-]. exact Hgt.
  - split; [exact Hinv|]. rewrite E. discriminate.
Qed.

(** One invocation, after the loop has reached its instant: either the
    action ran at once and no timer is pending, or a timer holding the
    arguments of this invocation is pending. *)
Lemma t_inv_call (delay now : Z) (a : A) s :
  t_inv delay s ->
  let s' := throttled_call delay now a (t_tick now s) in
  t_inv delay s'
  /\ ((timeoutId s' = None /\ last (t_executed s') = Some (now, a))
      \/ (exists tm, timeoutId s' = Some tm /\ captured tm = a)).
Proof.
  intros Hinv.
  destruct (t_inv_tick delay now s Hinv) as [(Hdue & Hsp & Hlast) Hlater].
  cbn zeta. unfold throttled_call.
  set (s1 := t_tick now s) in *.
  destruct (Z.ltb_spec delay (now - lastExecTime s1)) as [Hnow|Hsoon].
  - assert (Hnone : timeoutId s1 = None).
    { destruct (timeoutId s1) as [tm|] eqn:E; [|reflexivity].
      specialize (Hdue tm eq_refl). specialize (Hlater tm eq_refl). lia. }
    split.
    + repeat split; cbn.
      * rewrite Hnone. discriminate.
      * apply spaced_snoc; [exact Hsp|]. cbn.
        intros e He. rewrite (Hlast e He). lia.
      * intros e. rewrite last_snoc. intros [= <-]. reflexivity.
    + left. cbn. split; [exact Hnone|apply last_snoc].
  - split.
    + repeat split; cbn.
      * intros tm [= <-]. cbn. lia.
      * exact Hsp.
      * exact Hlast.
    + right. eexists. cbn. split; reflexivity.
Qed.

Lemma t_run_inv (delay : Z) calls :
  forall s, t_inv delay s -> t_inv delay (t_run delay calls s).
Proof.
  induction calls as [|[t a] calls IH]; intros s Hinv; cbn [t_run].
  - apply t_inv_trailing, Hinv.
  - apply IH. apply (t_inv_call delay t a s Hinv).
Qed.

Lemma t_run_last (delay : Z) calls (t : Z) (a : A) :
  forall s, t_inv delay s ->
    exists t', last (t_executed (t_run delay (calls ++ [(t, a)]) s))
               = Some (t', a).
Proof.
  induction calls as [|[t0 a0] calls IH]; intros s Hinv.
  - cbn [app t_run].
    destruct (t_inv_call delay t a s Hinv) as [_ [[Hnone Hl]|(tm & Hsome & Hc)]].
    + unfold trailing. rewrite Hnone. eauto.
    + unfold trailing. rewrite Hsome. cbn. rewrite last_snoc, Hc. eauto.
  - cbn [app t_run]. apply IH. apply (t_inv_call delay t0 a0 s Hinv).
Qed.

End TimingFacts.

(** C9. For the debounce wrapper with wait [w]: a burst of one or more
    invocations [(t, a) :: rest], in chronological order and each less
    than [w] after the one before, executes the underlying action exactly
    once, [w] after the last invocation of the burst (at [tn + w]; a
    negative wait counts as zero), and with the arguments [an] of that
    last invocation. *)
Theorem debounce_burst_executes_once {A : Type} (w t : Z) (a : A)
    (rest : list (Z * A)) (tn : Z) (an : A) :
  Timing.burst w t rest ->
  last ((t, a) :: rest) = Some (tn, an) ->
  Timing.d_executed (Timing.d_run w ((t, a) :: rest) Timing.debounce)
  = [(tn + Z.max 0 w, an)].
Proof.
  intros Hb Hl. cbn [Timing.d_run].
  change (Timing.d_tick t Timing.debounce) with (@Timing.debounce A).
  unfold Timing.executedFunction.
  apply (d_run_pending w rest t a [] tn an Hb Hl).
Qed.

(** The burst at 0, 5 and 12 with wait 10. *)
Lemma debounce_burst_executes_once_witness :
  Timing.burst 10 0 [(5, "second"); (12, "third")]
  /\ Timing.d_executed
       (Timing.d_run 10 [(0, "first"); (5, "second"); (12, "third")]
          Timing.debounce)
     = [(22, "third")].
Proof.
  assert (Hb : Timing.burst 10 0 [(5, "second"); (12, "third")])
    by (cbn; lia).
  split; [exact Hb|].
  exact (debounce_burst_executes_once 10 0 "first"
           [(5, "second"); (12, "third")] 12 "third" Hb eq_refl).
Defined.

(** C1, as the code has it. With delay 10 and invocations at [T0],
    [T0 + 5] and [T0 + 12] on a clock that reads more than the delay at the
    first one, the action executes three times: at once at [T0], then at
    [T0 + 10] with the arguments of the second invocation, then at
    [T0 + 20] with the arguments of the third. For every call sequence,
    with timers that fire at the instant they are due, two consecutive
    executions are at least [delay] apart, and the last execution carries
    the arguments of the last invocation. *)
Theorem throttle_executions {A : Type} :
  (forall (T0 : Z) (a0 a5 a12 : A),
      10 < T0 ->
      Timing.t_executed
        (Timing.t_run 10 [(T0, a0); (T0 + 5, a5); (T0 + 12, a12)]
           Timing.throttle)
      = [(T0, a0); (T0 + 10, a5); (T0 + 20, a12)])
  /\ (forall (delay : Z) (calls : list (Z * A)),
         Timing.spaced delay
           (Timing.t_executed (Timing.t_run delay calls Timing.throttle)))
  /\ (forall (delay : Z) (calls : list (Z * A)) (t : Z) (a : A),
         exists t',
           last (Timing.t_executed
                   (Timing.t_run delay (calls ++ [(t, a)]) Timing.throttle))
           = Some (t', a)).
Proof.
  split; [|split].
  - intros T0 a0 a5 a12 HT0.
    cbn [Timing.t_run].
    rewrite (t_tick_idle T0) by reflexivity.
    rewrite (throttled_call_now 10 T0) by (cbn; lia).
    rewrite (t_tick_idle (T0 + 5)) by reflexivity.
    rewrite (throttled_call_soon 10 (T0 + 5)) by (cbn; lia).
    erewrite (t_tick_due (T0 + 12)) by (reflexivity || (cbn; lia)).
    rewrite (throttled_call_soon 10 (T0 + 12)) by (cbn; lia).
    cbn. replace (T0 + 10 + 10) with (T0 + 20) by lia. reflexivity.
  - intros delay calls.
    apply (t_run_inv delay calls _ (t_inv_init delay)).
  - intros delay calls t a.
    apply (t_run_last delay calls t a _ (t_inv_init delay)).
Qed.

(** The three invocations on a clock that reads 1000 at the first. *)
Lemma throttle_executions_witness :
  10 < 1000
  /\ Timing.t_executed
       (Timing.t_run 10 [(1000, "first"); (1000 + 5, "second");
                         (1000 + 12, "third")] Timing.throttle)
     = [(1000, "first"); (1000 + 10, "second"); (1000 + 20, "third")].
Proof.
  assert (H : 10 < 1000) by lia.
  split; [exact H|].
  exact (proj1 throttle_executions 1000 "first" "second" "third" H).
Defined.

(** C1, as the spec states it, fails: with delay 10 and invocations at
    1000, 1005 and 1012 the action executes three times, and the execution
    at 1010 carries the arguments of the second invocation; the log is not
    "one execution at the first instant and one trailing execution, at or
    after 10 ms, with the arguments of the third invocation". *)
Lemma throttle_two_executions_counterexample :
  let log :=
    Timing.t_executed
      (Timing.t_run 10 [(1000, "first"); (1005, "second"); (1012, "third")]
         Timing.throttle) in
  log = [(1000, "first"); (1010, "second"); (1020, "third")]
  /\ ~ (exists t, 1000 + 10 <= t /\ log = [(1000, "first"); (t, "third")]).
Proof.
  cbn zeta. split; [reflexivity|].
  intros (t & _ & H). vm_compute in H. discriminate H.
Qed.

(** The same invocations on a clock that starts at zero: the first
    invocation does not execute at once ([lastExecTime] starts at zero
    too), and again no execution at 10 carries the third arguments. *)
Example throttle_clock_from_zero :
  Timing.t_executed
    (Timing.t_run 10 [(0, "first"); (5, "second"); (12, "third")]
       Timing.throttle)
  = [(10, "second"); (20, "third")].
Proof. reflexivity. Qed.

(** The same invocations when the timer of the second one is late and
    runs only after the third invocation: that invocation executes at
    once (12 ms after the first execution) and does not cancel the pending
    timer, which then runs with the arguments of the second invocation.
    Three executions again. *)
Example throttle_late_timer :
  Timing.t_executed
    (Timing.trailing_late 1013
       (Timing.throttled_call 10 1012 "third"
          (Timing.throttled_call 10 1005 "second"
             (Timing.throttled_call 10 1000 "first" Timing.throttle))))
  = [(1000, "first"); (1012, "third"); (1013, "second")].
Proof. reflexivity. Qed.

(** ** Active-link highlighting *)

Section ActiveNavigationFacts.
Import ActiveNavigation.

Lemma in_range_spec (scrollY : Z) (s : page_section) :
  in_range scrollY s = true
  <-> offsetTop s - 120 <= scrollY
      /\ scrollY < offsetTop s - 120 + offsetHeight s.
Proof. unfold in_range. cbn zeta. rewrite andb_true_iff. lia. Qed.

Lemma forEach_none (scrollY : Z) (sections : list page_section) (current : string) :
  Forall (fun s => in_range scrollY s = false) sections ->
  foldl (fun current s => if in_range scrollY s then id s else current)
        current sections = current.
Proof.
  induction 1 as [|s l Hs _ IH]; cbn; [reflexivity|].
  rewrite Hs. exact IH.
Qed.

Lemma current_section_last (scrollY : Z) (before : list page_section)
    (s : page_section) (after : list page_section) :
  in_range scrollY s = true ->
  Forall (fun s' => in_range scrollY s' = false) after ->
  current_section scrollY (before ++ s :: after) = id s.
Proof.
  intros Hs Hafter. unfold current_section.
  rewrite foldl_app. cbn. rewrite Hs. apply forEach_none, Hafter.
Qed.

Lemma handleScroll_lookup (scrollY : Z) (sections : list page_section)
    (navLinks : list nav_link) (i : nat) (l : nav_link) :
  handleScroll scrollY sections navLinks !! i = Some l ->
  exists l0, navLinks !! i = Some l0 /\ href l = href l0
             /\ (active l = true
                 <-> href l0 = "#" +:+ current_section scrollY sections).
Proof.
  unfold handleScroll. rewrite list_lookup_fmap.
  destruct (navLinks !! i) as [l0|]; [|discriminate].
  intros [= <-]. exists l0. split; [reflexivity|]. split; [reflexivity|].
  cbn. destruct (decide _); split; congruence.
Qed.

End ActiveNavigationFacts.

(** C2, as the code has it. A section passes the test when the scroll
    offset lies in [[offsetTop - 120, offsetTop - 120 + offsetHeight)]; the
    last section in document order that passes is the current one, and a
    nav link is active exactly when its href is ["#"] followed by the
    current id (the empty id when no section passes). For sections at
    0, 800 and 1600, each 800 high: offset 850 makes the second current,
    offset -50 makes the FIRST current (-50 is not below 0 - 120), and no
    section is current for an offset below -120. *)
Theorem active_link_is_last_section_in_range :
  (forall scrollY s,
      ActiveNavigation.in_range scrollY s = true
      <-> ActiveNavigation.offsetTop s - 120 <= scrollY
          /\ scrollY < ActiveNavigation.offsetTop s - 120
                       + ActiveNavigation.offsetHeight s)
  /\ (forall scrollY before s after,
         ActiveNavigation.in_range scrollY s = true ->
         Forall (fun s' => ActiveNavigation.in_range scrollY s' = false) after ->
         ActiveNavigation.current_section scrollY (before ++ s :: after)
         = ActiveNavigation.id s)
  /\ (forall scrollY sections,
         Forall (fun s => ActiveNavigation.in_range scrollY s = false) sections ->
         ActiveNavigation.current_section scrollY sections = "")
  /\ (forall scrollY sections navLinks i l,
         ActiveNavigation.handleScroll scrollY sections navLinks !! i = Some l ->
         exists l0,
           navLinks !! i = Some l0
           /\ ActiveNavigation.href l = ActiveNavigation.href l0
           /\ (ActiveNavigation.active l = true
               <-> ActiveNavigation.href l0
                   = "#" +:+ ActiveNavigation.current_section scrollY sections))
  /\ (forall id1 id2 id3,
         let sections :=
           [ActiveNavigation.PageSection id1 0 800;
            ActiveNavigation.PageSection id2 800 800;
            ActiveNavigation.PageSection id3 1600 800] in
         ActiveNavigation.current_section 850 sections = id2
         /\ ActiveNavigation.current_section (-50) sections = id1
         /\ forall scrollY, scrollY < -120 ->
              ActiveNavigation.current_section scrollY sections = "").
Proof.
  split; [exact in_range_spec|].
  split; [exact current_section_last|].
  split; [intros; apply forEach_none; assumption|].
  split; [exact handleScroll_lookup|].
  intros id1 id2 id3 sections. split; [reflexivity|]. split; [reflexivity|].
  intros y Hy. apply forEach_none.
  repeat constructor; unfold ActiveNavigation.in_range; cbn; lia.
Qed.

(** Offset -150 on the three sections. *)
Lemma active_link_is_last_section_in_range_witness :
  -150 < -120
  /\ ActiveNavigation.current_section (-150)
       [ActiveNavigation.PageSection "inicio" 0 800;
        ActiveNavigation.PageSection "sobre" 800 800;
        ActiveNavigation.PageSection "contato" 1600 800] = "".
Proof.
  assert (H : -150 < -120) by lia.
  split; [exact H|].
  exact (proj2 (proj2
           (proj2 (proj2 (proj2 (proj2 active_link_is_last_section_in_range)))
              "inicio" "sobre" "contato"))
           (-150) H).
Defined.

(** C2, as the spec states it, fails at offset -50: the first section
    (top 0, so tested against [-120, 680)) is current and its link is
    active, where the claim has no active link. *)
Lemma active_link_negative_offset_counterexample :
  let sections :=
    [ActiveNavigation.PageSection "inicio" 0 800;
     ActiveNavigation.PageSection "sobre" 800 800;
     ActiveNavigation.PageSection "contato" 1600 800] in
  let navLinks :=
    [ActiveNavigation.NavLink "#inicio" false;
     ActiveNavigation.NavLink "#sobre" false;
     ActiveNavigation.NavLink "#contato" false] in
  ActiveNavigation.active
    <$> ActiveNavigation.handleScroll (-50) sections navLinks
  = [true; false; false]
  /\ ~ Forall (fun l => ActiveNavigation.active l = false)
         (ActiveNavigation.handleScroll (-50) sections navLinks).
Proof.
  cbn zeta. split; [reflexivity|].
  intros H. apply Forall_inv in H. vm_compute in H. discriminate H.
Qed.

(** ** Binary64 arithmetic *)

Section Binary64Facts.
Import JsNum.

Lemma fexp_eq (e : Z) : fexp prec emax e = Z.max (e - 53) (-1074).
Proof. reflexivity. Qed.

Lemma digits_size (m : positive) : digits2_pos m = Pos.size m.
Proof. induction m as [m IH|m IH|]; cbn; [rewrite IH|rewrite IH|]; reflexivity. Qed.

Lemma digits_log2 (m : positive) :
  Z.pos (digits2_pos m) = Z.log2 (Z.pos m) + 1.
Proof.
  rewrite digits_size. destruct m as [m|m|]; cbn; [| |reflexivity];
    rewrite Pos2Z.inj_succ; lia.
Qed.

Lemma digits_bounds (m : positive) :
  2 ^ (Z.pos (digits2_pos m) - 1) <= Z.pos m < 2 ^ Z.pos (digits2_pos m).
Proof.
  rewrite digits_log2.
  pose proof (Z.log2_spec (Z.pos m) ltac:(lia)) as H.
  replace (Z.log2 (Z.pos m) + 1 - 1) with (Z.log2 (Z.pos m)) by lia.
  replace (Z.log2 (Z.pos m) + 1) with (Z.succ (Z.log2 (Z.pos m))) by lia.
  exact H.
Qed.

Lemma Zdigits2_log2 (z : Z) : 0 < z -> Zdigits2 z = Z.log2 z + 1.
Proof. destruct z as [|m|m]; try lia. intros _. apply digits_log2. Qed.

(** Shifting to the right, one bit at a time. *)
Lemma shr_1_m (mrs : shr_record) :
  0 <= shr_m mrs -> shr_m (shr_1 mrs) = shr_m mrs / 2.
Proof.
  destruct mrs as [m r s]. cbn [shr_m]. intros Hm.
  rewrite <- Z.div2_div.
  destruct m as [|[p|p|]|p]; try reflexivity; lia.
Qed.

Lemma iter_shr_1_m (n : positive) :
  forall mrs,
    0 <= shr_m mrs ->
    shr_m (SpecFloat.iter_pos shr_1 n mrs) = shr_m mrs / 2 ^ Z.pos n.
Proof.
  assert (Hpow : forall k : positive, 0 < 2 ^ Z.pos k)
    by (intros; apply Z.pow_pos_nonneg; lia).
  induction n as [n IH|n IH|]; intros mrs Hm; cbn [SpecFloat.iter_pos].
  - assert (H1 : 0 <= shr_m (shr_1 mrs))
      by (rewrite shr_1_m by exact Hm; apply Z.div_pos; lia).
    assert (H2 : 0 <= shr_m (SpecFloat.iter_pos shr_1 n (shr_1 mrs)))
      by (rewrite IH by exact H1; apply Z.div_pos; [exact H1|apply Hpow]).
    rewrite (IH _ H2), (IH _ H1), shr_1_m by exact Hm.
    pose proof (Hpow n).
    rewrite !Z.div_div by lia.
    f_equal. change (Z.pos n~1) with (2 * Z.pos n + 1).
    replace (2 * Z.pos n + 1) with (1 + Z.pos n + Z.pos n) by lia.
    rewrite !Z.pow_add_r by lia. change (2 ^ 1) with 2. lia.
  - assert (H2 : 0 <= shr_m (SpecFloat.iter_pos shr_1 n mrs))
      by (rewrite IH by exact Hm; apply Z.div_pos; [exact Hm|apply Hpow]).
    rewrite (IH _ H2), (IH _ Hm).
    pose proof (Hpow n).
    rewrite !Z.div_div by lia.
    f_equal. change (Z.pos n~0) with (2 * Z.pos n).
    replace (2 * Z.pos n) with (Z.pos n + Z.pos n) by lia.
    rewrite !Z.pow_add_r by lia. lia.
  - rewrite shr_1_m by exact Hm. reflexivity.
Qed.

Lemma shr_spec (mrs : shr_record) (e n : Z) :
  0 <= shr_m mrs -> 0 <= n ->
  (shr mrs e n).2 = e + n
  /\ shr_m (shr mrs e n).1 = shr_m mrs / 2 ^ n.
Proof.
  intros Hm Hn. destruct n as [|n|n]; [| |lia]; cbn [shr fst snd].
  - rewrite Z.div_1_r. lia.
  - split; [reflexivity|]. apply iter_shr_1_m, Hm.
Qed.

Lemma round_nearest_even_bounds (m : Z) (l : location) :
  m <= round_nearest_even m l <= m + 1.
Proof.
  destruct l as [|[| |]]; cbn; try lia. destruct (Z.even m); lia.
Qed.

Lemma shr_record_of_loc_m (m : Z) (l : location) :
  shr_m (shr_record_of_loc m l) = m.
Proof. destruct l as [|[| |]]; reflexivity. Qed.

End Binary64Facts.

Section RoundingFacts.
Import JsNum.

Lemma log2_div_pow2 (a n : Z) :
  0 < a -> 0 <= n -> n <= Z.log2 a ->
  0 < a / 2 ^ n /\ Z.log2 (a / 2 ^ n) = Z.log2 a - n.
Proof.
  intros Ha Hn Hle.
  rewrite <- Z.shiftr_div_pow2 by exact Hn.
  rewrite Z.log2_shiftr by exact Ha. split; [|lia].
  rewrite Z.shiftr_div_pow2 by exact Hn.
  apply Z.div_str_pos. split; [apply Z.pow_pos_nonneg; lia|].
  pose proof (Z.log2_spec a Ha) as [H _].
  apply Z.le_trans with (2 ^ Z.log2 a); [|exact H].
  apply Z.pow_le_mono_r; lia.
Qed.

Lemma div_lower (a b : Z) : 0 < b -> a < (a / b + 1) * b.
Proof.
  intros Hb. pose proof (Z.div_mod a b ltac:(lia)).
  pose proof (Z.mod_pos_bound a b Hb). nia.
Qed.

(** Rounding a positive mantissa that has enough bits: the result is
    canonical, its exponent is the one of the format or one more, and it
    is not below the truncation of the mantissa. *)
Lemma round_aux_pos (sx : bool) (mx : positive) (ex : Z) (lx : location) :
  let f := fexp prec emax (Z.pos (digits2_pos mx) + ex) in
  ex <= f -> -1074 <= ex ->
  exists m e,
    binary_round_aux prec emax sx (Z.pos mx) ex lx
    = (if e <=? emax - prec then S754_finite sx m e else S754_infinity sx)
    /\ canonical m e
    /\ f <= e <= f + 1
    /\ Z.pos mx < (Z.pos m + 1) * 2 ^ (e - ex).
Proof.
  intros f Hf Hex. unfold binary_round_aux, shr_fexp.
  change (Zdigits2 (Z.pos mx)) with (Z.pos (digits2_pos mx)). fold f.
  pose proof (digits_log2 mx) as Hdg.
  assert (Hfeq : f = Z.max (Z.pos (digits2_pos mx) + ex - 53) (-1074))
    by reflexivity.
  pose proof (Z.log2_nonneg (Z.pos mx)) as Hl0.
  set (n := f - ex).
  assert (Hn : 0 <= n <= Z.log2 (Z.pos mx)) by lia.
  destruct (shr_spec (shr_record_of_loc (Z.pos mx) lx) ex n) as [He1 Hm1];
    [rewrite shr_record_of_loc_m; lia|lia|].
  destruct (shr (shr_record_of_loc (Z.pos mx) lx) ex n) as [mrs1 e1].
  cbn [fst snd] in He1, Hm1. rewrite shr_record_of_loc_m in Hm1.
  destruct (log2_div_pow2 (Z.pos mx) n ltac:(lia) ltac:(lia) ltac:(lia))
    as [Hm0 Hlog0].
  rewrite <- Hm1 in Hm0, Hlog0.
  set (m0 := shr_m mrs1) in *.
  pose proof (round_nearest_even_bounds m0 (loc_of_shr_record mrs1)) as Hr.
  set (r1 := round_nearest_even m0 (loc_of_shr_record mrs1)) in *.
  assert (Hr1 : 0 < r1) by lia.
  rewrite (Zdigits2_log2 r1 Hr1).
  assert (Hlog1 : Z.log2 m0 <= Z.log2 r1 <= Z.log2 m0 + 1).
  { split; [apply Z.log2_le_mono; lia|].
    apply Z.le_trans with (Z.log2 (2 * m0)); [apply Z.log2_le_mono; lia|].
    rewrite Z.log2_double by lia. lia. }
  set (f1 := fexp prec emax (Z.log2 r1 + 1 + e1)).
  assert (Hf1eq : f1 = Z.max (Z.log2 r1 + 1 + e1 - 53) (-1074))
    by reflexivity.
  assert (He1f : e1 = f) by lia.
  set (n1 := f1 - e1).
  assert (Hn1 : 0 <= n1 <= 1 /\ n1 <= Z.log2 r1) by lia.
  destruct (shr_spec (shr_record_of_loc r1 loc_Exact) e1 n1) as [He2 Hm2];
    [cbn; lia|lia|].
  destruct (shr (shr_record_of_loc r1 loc_Exact) e1 n1) as [mrs2 e2].
  cbn [fst snd shr_record_of_loc shr_m] in He2, Hm2.
  destruct (log2_div_pow2 r1 n1 ltac:(lia) ltac:(lia) ltac:(lia))
    as [Hm2pos Hlog2].
  rewrite <- Hm2 in Hm2pos, Hlog2.
  destruct (shr_m mrs2) as [|m2|m2] eqn:Em2; [lia| |lia].
  exists m2, e2. split; [reflexivity|].
  split.
  { unfold canonical. rewrite digits_log2, fexp_eq. lia. }
  split; [lia|].
  assert (Hdiv : Z.pos mx / 2 ^ (e2 - ex) <= Z.pos m2).
  { replace (e2 - ex) with (n + n1) by lia.
    rewrite Z.pow_add_r, <- Z.div_div by (try apply Z.pow_pos_nonneg; lia).
    rewrite <- Hm1. fold m0. rewrite Hm2.
    apply Z.div_le_mono; [apply Z.pow_pos_nonneg; lia|lia]. }
  pose proof (div_lower (Z.pos mx) (2 ^ (e2 - ex))
                ltac:(apply Z.pow_pos_nonneg; lia)) as Hlow.
  assert (0 < 2 ^ (e2 - ex)) by (apply Z.pow_pos_nonneg; lia).
  nia.
Qed.

End RoundingFacts.

Section OperationFacts.
Import JsNum.

(** A canonical mantissa with nothing to round is left as it is. *)
Lemma round_aux_exact (sx : bool) (mx : positive) (ex : Z) :
  canonical mx ex ->
  binary_round_aux prec emax sx (Z.pos mx) ex loc_Exact
  = (if ex <=? emax - prec then S754_finite sx mx ex else S754_infinity sx).
Proof.
  unfold canonical. intros H. unfold binary_round_aux, shr_fexp.
  change (Zdigits2 (Z.pos mx)) with (Z.pos (digits2_pos mx)).
  rewrite H, Z.sub_diag.
  cbn [shr shr_record_of_loc shr_m loc_of_shr_record round_nearest_even].
  change (Zdigits2 (Z.pos mx)) with (Z.pos (digits2_pos mx)).
  rewrite H, Z.sub_diag. reflexivity.
Qed.

Lemma iter_xO (d mx : positive) :
  Z.pos (Pos.iter xO mx d) = Z.pos mx * 2 ^ Z.pos d.
Proof.
  induction d as [|d IH] using Pos.peano_ind.
  - cbn. lia.
  - rewrite Pos.iter_succ, Pos2Z.inj_xO, IH, Pos2Z.inj_succ,
      Z.pow_succ_r by lia. lia.
Qed.

Lemma shl_align_down (mx : positive) (ex ex' : Z) :
  ex' <= ex ->
  Z.pos (shl_align mx ex ex').1 = Z.pos mx * 2 ^ (ex - ex')
  /\ (shl_align mx ex ex').2 = Z.min ex ex'.
Proof.
  intros H. unfold shl_align.
  destruct (ex' - ex) as [|d|d] eqn:E; cbn [fst snd]; try lia.
  - replace (ex - ex') with 0 by lia. lia.
  - rewrite iter_xO. replace (ex - ex') with (Z.pos d) by lia. lia.
Qed.

Lemma shl_align_up (mx : positive) (ex ex' : Z) :
  ex <= ex' -> shl_align mx ex ex' = (mx, ex).
Proof.
  intros H. unfold shl_align.
  destruct (ex' - ex) as [|d|d] eqn:E; try reflexivity. lia.
Qed.

Lemma digits_mul_pow2 (m m' : positive) (k : Z) :
  0 <= k -> Z.pos m' = Z.pos m * 2 ^ k ->
  Z.pos (digits2_pos m') = Z.pos (digits2_pos m) + k.
Proof.
  intros Hk E. rewrite !digits_log2, E, Z.log2_mul_pow2 by lia. lia.
Qed.

(** Rounding [M * 2 ^ ez]. *)
Lemma binary_round_pos (sx : bool) (M : positive) (ez : Z) :
  -1074 <= ez ->
  let f := fexp prec emax (Z.pos (digits2_pos M) + ez) in
  let lo := Z.min ez f in
  exists m e,
    binary_round prec emax sx M ez
    = (if e <=? emax - prec then S754_finite sx m e else S754_infinity sx)
    /\ canonical m e
    /\ f <= e <= f + 1
    /\ Z.pos M * 2 ^ (ez - lo) < (Z.pos m + 1) * 2 ^ (e - lo).
Proof.
  intros Hez f lo. unfold binary_round. fold f.
  assert (Hf : f = Z.max (Z.pos (digits2_pos M) + ez - 53) (-1074))
    by reflexivity.
  destruct (Z.le_gt_cases ez f) as [Hle|Hgt].
  - rewrite (shl_align_up M ez f Hle).
    destruct (round_aux_pos sx M ez loc_Exact Hle Hez)
      as (m & e & E & Hc & He & Hv).
    exists m, e. fold f in He. split; [exact E|]. split; [exact Hc|].
    split; [exact He|].
    replace lo with ez by lia. rewrite Z.sub_diag, Z.mul_1_r. exact Hv.
  - destruct (shl_align_down M ez f ltac:(lia)) as [Hm He'].
    destruct (shl_align M ez f) as [mz ez']. cbn [fst snd] in Hm, He'.
    assert (ez' = f) as -> by lia.
    pose proof (digits_mul_pow2 M mz (ez - f) ltac:(lia) Hm) as Hd.
    assert (Hf' : fexp prec emax (Z.pos (digits2_pos mz) + f) = f).
    { rewrite Hd. replace (Z.pos (digits2_pos M) + (ez - f) + f)
        with (Z.pos (digits2_pos M) + ez) by lia. reflexivity. }
    destruct (round_aux_pos sx mz f loc_Exact) as (m & e & E & Hc & He & Hv);
      [rewrite Hf'; lia|lia|].
    rewrite Hf' in He.
    exists m, e. split; [exact E|]. split; [exact Hc|]. split; [exact He|].
    replace lo with f by lia. rewrite <- Hm. exact Hv.
Qed.

Lemma lt_pos (m1 : positive) (e1 : Z) (m2 : positive) (e2 : Z) :
  lt (S754_finite false m1 e1) (S754_finite false m2 e2) = true
  <-> e1 < e2 \/ (e1 = e2 /\ Z.pos m1 < Z.pos m2).
Proof.
  unfold lt, SFltb, SFcompare.
  change (Pos.compare_cont Eq m1 m2) with (Pos.compare m1 m2).
  destruct (Z.compare_spec e1 e2) as [E|E|E].
  - pose proof (Pos.compare_spec m1 m2) as Hc.
    destruct Hc; split; (discriminate || lia || (intros; reflexivity)).
  - split; [lia|reflexivity].
  - split; [discriminate|lia].
Qed.

Lemma le_pos (m1 : positive) (e1 : Z) (m2 : positive) (e2 : Z) :
  le (S754_finite false m1 e1) (S754_finite false m2 e2) = true
  <-> e1 < e2 \/ (e1 = e2 /\ Z.pos m1 <= Z.pos m2).
Proof.
  unfold le, SFleb, SFcompare.
  change (Pos.compare_cont Eq m1 m2) with (Pos.compare m1 m2).
  destruct (Z.compare_spec e1 e2) as [E|E|E].
  - pose proof (Pos.compare_spec m1 m2) as Hc.
    destruct Hc; split; (discriminate || lia || (intros; reflexivity)).
  - split; [lia|reflexivity].
  - split; [discriminate|lia].
Qed.

(** The sum of two positive numbers, the second at least one unit in the
    last place of the first: infinite or a number above the first. *)
Lemma add_pos (mx : positive) (ex : Z) (my : positive) (ey : Z) :
  canonical mx ex -> -1074 <= ey ->
  ex <= ey \/ 2 ^ (ex - ey) <= Z.pos my ->
  exists m e,
    add (S754_finite false mx ex) (S754_finite false my ey)
    = (if e <=? emax - prec then S754_finite false m e
       else S754_infinity false)
    /\ canonical m e
    /\ (ex < e \/ (e = ex /\ Z.pos mx < Z.pos m)).
Proof.
  intros Hx Hey Hbig. unfold add, SFadd. cbn [cond_Zopp].
  assert (Hex : -1074 <= ex)
    by (unfold canonical in Hx; rewrite fexp_eq in Hx; lia).
  set (ez := Z.min ex ey).
  destruct (shl_align_down mx ex ez ltac:(lia)) as [Ha _].
  destruct (shl_align_down my ey ez ltac:(lia)) as [Hb _].
  set (a := (shl_align mx ex ez).1) in *.
  set (b := (shl_align my ey ez).1) in *.
  change (Z.pos a + Z.pos b) with (Z.pos (a + b)).
  cbn [binary_normalize].
  destruct (binary_round_pos false (a + b) ez ltac:(lia))
    as (m & e & E & Hc & He & Hv).
  exists m, e. split; [exact E|]. split; [exact Hc|].
  set (f := fexp prec emax (Z.pos (digits2_pos (a + b)) + ez)) in *.
  assert (Hf : f = Z.max (Z.pos (digits2_pos (a + b)) + ez - 53) (-1074))
    by reflexivity.
  assert (Hxf : ex = Z.max (Z.pos (digits2_pos mx) + ex - 53) (-1074))
    by (symmetry; exact Hx).
  assert (Hpow : 0 < 2 ^ (ex - ez)) by (apply Z.pow_pos_nonneg; lia).
  assert (Hpowy : 0 < 2 ^ (ey - ez)) by (apply Z.pow_pos_nonneg; lia).
  assert (Hdg : Z.pos (digits2_pos mx) + ex
                <= Z.pos (digits2_pos (a + b)) + ez).
  { rewrite !digits_log2.
    assert (Z.log2 (Z.pos mx) + (ex - ez) <= Z.log2 (Z.pos (a + b)));
      [|lia].
    rewrite Z.add_comm, <- Z.log2_mul_pow2 by lia.
    apply Z.log2_le_mono. rewrite Pos2Z.inj_add. lia. }
  destruct (Z.eq_dec e ex) as [->|Hne]; [right|left; lia].
  split; [reflexivity|].
  replace (Z.min ez f) with ez in Hv by lia.
  rewrite Z.sub_diag, Z.mul_1_r, Pos2Z.inj_add, Ha, Hb in Hv.
  assert (Hy : 2 ^ (ex - ez) <= Z.pos my * 2 ^ (ey - ez)).
  { destruct (Z.le_gt_cases ex ey) as [Hle|Hgt].
    - replace (ex - ez) with 0 by lia. change (2 ^ 0) with 1. nia.
    - destruct Hbig as [|Hbig]; [lia|].
      replace (ey - ez) with 0 by lia. replace (ex - ez) with (ex - ey) by lia.
      lia. }
  nia.
Qed.

End OperationFacts.

Section DivisionFacts.
Import JsNum.

(** [2000 / 16] is 125, exactly. *)
Lemma frames_per_animation :
  div (of_Z 2000) (of_Z 16) = S754_finite false 8796093022208000 (-46)
  /\ of_Z 125 = S754_finite false 8796093022208000 (-46).
Proof. split; vm_compute; reflexivity. Qed.

Lemma canonical_normal (m : positive) (e : Z) :
  canonical m e -> -1074 < e -> Z.pos (digits2_pos m) = 53.
Proof. unfold canonical. rewrite fexp_eq. lia. Qed.

Lemma canonical_bounds (m : positive) (e : Z) :
  canonical m e -> -1074 <= e /\ Z.pos m < 2 ^ 53.
Proof.
  unfold canonical. rewrite fexp_eq. intros H. split; [lia|].
  pose proof (digits_bounds m) as [_ Hm].
  apply Z.lt_le_trans with (2 ^ Z.pos (digits2_pos m)); [exact Hm|].
  apply Z.pow_le_mono_r; lia.
Qed.

Lemma normal_canonical (m : positive) (e : Z) :
  Z.pos (digits2_pos m) = 53 -> -1074 <= e -> canonical m e.
Proof. unfold canonical. rewrite fexp_eq. lia. Qed.

(** A normal number divided by 125 is a normal number five to seven
    binades below it. *)
Lemma div_125 (s : bool) (mt : positive) (et : Z) :
  Z.pos (digits2_pos mt) = 53 -> -1066 <= et <= 971 ->
  exists mi ei,
    div (S754_finite s mt et) (S754_finite false 8796093022208000 (-46))
    = S754_finite s mi ei
    /\ Z.pos (digits2_pos mi) = 53
    /\ et - 7 <= ei <= et - 5.
Proof.
  intros Hd Het. unfold div, SFdiv. rewrite xorb_false_r.
  pose proof (digits_bounds mt) as Hmt. rewrite Hd in Hmt.
  assert (Hcore : exists q lz,
             SFdiv_core_binary prec emax (Z.pos mt) et
               (Z.pos 8796093022208000) (-46) = (Z.pos q, et - 7, lz)
             /\ 2 ^ 52 <= Z.pos q < 2 ^ 54).
  { unfold SFdiv_core_binary.
    change (Zdigits2 (Z.pos mt)) with (Z.pos (digits2_pos mt)). rewrite Hd.
    change (Zdigits2 (Z.pos 8796093022208000)) with 53.
    rewrite fexp_eq.
    replace (Z.min (Z.max (53 + et - (53 + -46) - 53) (-1074)) (et - -46))
      with (et - 7) by lia.
    replace (et - -46 - (et - 7)) with 53 by lia.
    cbv iota beta.
    rewrite Z.shiftl_mul_pow2 by lia.
    pose proof (Z.div_eucl_eq (Z.pos mt * 2 ^ 53) (Z.pos 8796093022208000)
                  ltac:(lia)) as Heq.
    pose proof (Z.mod_pos_bound (Z.pos mt * 2 ^ 53) (Z.pos 8796093022208000)
                  ltac:(lia)) as Hmod.
    unfold Z.modulo in Hmod.
    destruct (Z.div_eucl (Z.pos mt * 2 ^ 53) (Z.pos 8796093022208000))
      as [q r].
    change (2 ^ 53) with 9007199254740992 in *.
    change (2 ^ 52) with 4503599627370496 in *.
    change (2 ^ 54) with 18014398509481984.
    destruct q as [|q|q]; try lia.
    exists q, (new_location (Z.pos 8796093022208000) r).
    split; [reflexivity|]. lia. }
  destruct Hcore as (q & lz & -> & Hq).
  assert (Hdq : 53 <= Z.pos (digits2_pos q) <= 54).
  { rewrite digits_log2.
    pose proof (Z.log2_le_mono _ _ (proj1 Hq)) as H1.
    pose proof (Z.log2_lt_pow2 (Z.pos q) 54 ltac:(lia)) as [H2 _].
    rewrite Z.log2_pow2 in H1 by lia. specialize (H2 (proj2 Hq)). lia. }
  destruct (round_aux_pos s q (et - 7) lz) as (m & e & E & Hc & He & _);
    [rewrite fexp_eq; lia|lia|].
  rewrite fexp_eq in He.
  exists m, e. rewrite E.
  assert ((e <=? emax - prec) = true) as -> by (apply Z.leb_le; unfold emax, prec; lia).
  split; [reflexivity|].
  split; [apply (canonical_normal m e Hc); lia|lia].
Qed.

(** A positive integer is a normal number, unless it is too large. *)
Lemma of_Z_sign (z : Z) :
  z <> 0 ->
  let s := z <? 0 in
  of_Z z = S754_infinity s
  \/ exists m e,
       of_Z z = S754_finite s m e
       /\ Z.pos (digits2_pos m) = 53 /\ -52 <= e <= 971.
Proof.
  intros Hz s. unfold of_Z.
  assert (Hround : forall p : positive,
             binary_round prec emax s p 0 = S754_infinity s
             \/ exists m e,
                  binary_round prec emax s p 0 = S754_finite s m e
                  /\ Z.pos (digits2_pos m) = 53 /\ -52 <= e <= 971).
  { intros p.
    destruct (binary_round_pos s p 0 ltac:(lia)) as (m & e & E & Hc & He & _).
    rewrite fexp_eq in He. rewrite E.
    pose proof (digits_log2 p). pose proof (Z.log2_nonneg (Z.pos p)).
    destruct (Z.leb_spec e (emax - prec)) as [Hle|Hgt]; [right|left; reflexivity].
    exists m, e. split; [reflexivity|].
    split; [apply (canonical_normal m e Hc); lia|].
    unfold emax, prec in Hle. lia. }
  destruct z as [|p|p]; [lia| |]; cbn [binary_normalize]; subst s.
  - change (Z.pos p <? 0) with false. apply Hround.
  - change (Z.neg p <? 0) with true. apply Hround.
Qed.

End DivisionFacts.

Section FloorFacts.
Import JsNum.

(** A positive integer of at most 53 bits is a number, exactly. *)
Lemma of_Z_exact (n : positive) :
  Z.pos (digits2_pos n) <= 53 ->
  exists mz,
    binary_round prec emax false n 0
    = S754_finite false mz (Z.pos (digits2_pos n) - 53)
    /\ Z.pos mz = Z.pos n * 2 ^ (53 - Z.pos (digits2_pos n)).
Proof.
  intros Hd. unfold binary_round. rewrite fexp_eq.
  pose proof (Pos2Z.is_pos (digits2_pos n)) as Hd0.
  replace (Z.max (Z.pos (digits2_pos n) + 0 - 53) (-1074))
    with (Z.pos (digits2_pos n) - 53) by lia.
  destruct (shl_align_down n 0 (Z.pos (digits2_pos n) - 53) ltac:(lia))
    as [Hm He].
  destruct (shl_align n 0 (Z.pos (digits2_pos n) - 53)) as [mz ez].
  cbn [fst snd] in Hm, He.
  replace (0 - (Z.pos (digits2_pos n) - 53))
    with (53 - Z.pos (digits2_pos n)) in Hm by lia.
  assert (ez = Z.pos (digits2_pos n) - 53) as -> by lia.
  exists mz. split; [|exact Hm].
  rewrite round_aux_exact.
  - assert ((Z.pos (digits2_pos n) - 53 <=? emax - prec) = true) as ->
      by (apply Z.leb_le; unfold emax, prec; lia).
    reflexivity.
  - unfold canonical.
    rewrite (digits_mul_pow2 n mz (53 - Z.pos (digits2_pos n))
               ltac:(lia) Hm), fexp_eq. lia.
Qed.

Lemma floor_int (s : bool) (m : positive) (e : Z) :
  0 <= e -> floor (S754_finite s m e) = S754_finite s m e.
Proof. intros H. cbn. destruct (Z.leb_spec 0 e); [reflexivity|lia]. Qed.

Lemma floor_zero (m : positive) (e : Z) :
  e < 0 -> Z.pos m / 2 ^ (- e) = 0 ->
  floor (S754_finite false m e) = S754_zero false.
Proof.
  intros H Hn. cbn [floor cond_Zopp].
  destruct (Z.leb_spec 0 e); [lia|]. rewrite Hn. reflexivity.
Qed.

Lemma floor_frac (m : positive) (e : Z) (n : positive) :
  e < 0 -> canonical m e -> Z.pos m / 2 ^ (- e) = Z.pos n ->
  Z.pos (digits2_pos n) <= 52
  /\ exists mz,
       floor (S754_finite false m e)
       = S754_finite false mz (Z.pos (digits2_pos n) - 53)
       /\ Z.pos mz = Z.pos n * 2 ^ (53 - Z.pos (digits2_pos n)).
Proof.
  intros H Hc Hn. cbn [floor cond_Zopp].
  destruct (Z.leb_spec 0 e); [lia|]. rewrite Hn. cbn [binary_normalize].
  assert (Hd : Z.pos (digits2_pos n) <= 52).
  { destruct (canonical_bounds m e Hc) as [_ Hm].
    rewrite digits_log2.
    assert (Z.log2 (Z.pos n) < 52); [|lia].
    apply Z.log2_lt_pow2; [lia|]. rewrite <- Hn.
    apply Z.div_lt_upper_bound; [apply Z.pow_pos_nonneg; lia|].
    assert (2 ^ 1 <= 2 ^ (- e)) by (apply Z.pow_le_mono_r; lia).
    change (2 ^ 53) with (2 ^ 1 * 2 ^ 52) in Hm.
    change (2 ^ 1) with 2 in *.
    assert (0 < 2 ^ 52) by (apply Z.pow_pos_nonneg; lia). nia. }
  split; [exact Hd|]. apply of_Z_exact. lia.
Qed.

(** Integers of at most 53 bits keep their order as numbers. *)
Lemma exact_le (n1 n2 mz1 mz2 : positive) :
  Z.pos n1 <= Z.pos n2 ->
  Z.pos (digits2_pos n2) <= 53 ->
  Z.pos mz1 = Z.pos n1 * 2 ^ (53 - Z.pos (digits2_pos n1)) ->
  Z.pos mz2 = Z.pos n2 * 2 ^ (53 - Z.pos (digits2_pos n2)) ->
  le (S754_finite false mz1 (Z.pos (digits2_pos n1) - 53))
     (S754_finite false mz2 (Z.pos (digits2_pos n2) - 53)) = true.
Proof.
  intros Hle Hd2 H1 H2. apply le_pos.
  assert (Hd : Z.pos (digits2_pos n1) <= Z.pos (digits2_pos n2)).
  { rewrite !digits_log2.
    pose proof (Z.log2_le_mono _ _ Hle). lia. }
  destruct (Z.eq_dec (Z.pos (digits2_pos n1)) (Z.pos (digits2_pos n2)))
    as [E|E]; [right|left; lia].
  split; [lia|]. rewrite H1, H2, E.
  apply Z.mul_le_mono_nonneg_r; [apply Z.pow_nonneg; lia|exact Hle].
Qed.

Lemma le_zero_pos (m : positive) (e : Z) :
  le (S754_zero false) (S754_finite false m e) = true.
Proof. reflexivity. Qed.

(** [Math.floor] keeps the order of positive numbers. *)
Lemma floor_le (m1 : positive) (e1 : Z) (m2 : positive) (e2 : Z) :
  canonical m1 e1 -> canonical m2 e2 ->
  le (S754_finite false m1 e1) (S754_finite false m2 e2) = true ->
  le (floor (S754_finite false m1 e1)) (floor (S754_finite false m2 e2))
  = true.
Proof.
  intros Hc1 Hc2 Hle. pose proof Hle as Hlex. apply le_pos in Hlex.
  destruct (canonical_bounds m1 e1 Hc1) as [He1 Hm1].
  destruct (canonical_bounds m2 e2 Hc2) as [He2 Hm2].
  destruct (Z.le_gt_cases 0 e1) as [H1|H1].
  { rewrite !floor_int by lia. exact Hle. }
  assert (Hp1 : 0 < 2 ^ (- e1)) by (apply Z.pow_pos_nonneg; lia).
  destruct (Z.pos m1 / 2 ^ (- e1)) as [|n1|n1] eqn:En1.
  - rewrite (floor_zero m1 e1 H1 En1).
    destruct (Z.le_gt_cases 0 e2) as [H2|H2].
    + rewrite floor_int by lia. reflexivity.
    + assert (Hp2 : 0 < 2 ^ (- e2)) by (apply Z.pow_pos_nonneg; lia).
      destruct (Z.pos m2 / 2 ^ (- e2)) as [|n2|n2] eqn:En2.
      * rewrite (floor_zero m2 e2 H2 En2). reflexivity.
      * destruct (floor_frac m2 e2 n2 H2 Hc2 En2) as (_ & mz2 & -> & _).
        reflexivity.
      * pose proof (Z.div_pos (Z.pos m2) (2 ^ (- e2)) ltac:(lia) Hp2). lia.
  - destruct (floor_frac m1 e1 n1 H1 Hc1 En1) as (Hd1 & mz1 & -> & Hz1).
    destruct (Z.le_gt_cases 0 e2) as [H2|H2].
    + rewrite floor_int by lia. apply le_pos. left. lia.
    + assert (Hp2 : 0 < 2 ^ (- e2)) by (apply Z.pow_pos_nonneg; lia).
      assert (Hn : Z.pos n1 <= Z.pos m2 / 2 ^ (- e2)).
      { rewrite <- En1. destruct Hlex as [Hlt|[-> Hm]].
        - pose proof (canonical_normal m2 e2 Hc2 ltac:(lia)) as Hd2.
          pose proof (digits_bounds m2) as [Hlo _]. rewrite Hd2 in Hlo.
          replace (- e1) with ((e2 - e1) + - e2) by lia.
          rewrite Z.pow_add_r, <- Z.div_div
            by (try apply Z.pow_pos_nonneg; lia).
          apply Z.div_le_mono; [exact Hp2|].
          apply Z.lt_le_incl, Z.div_lt_upper_bound;
            [apply Z.pow_pos_nonneg; lia|].
          assert (2 ^ 1 <= 2 ^ (e2 - e1)) by (apply Z.pow_le_mono_r; lia).
          change (2 ^ 53) with (2 * 2 ^ (53 - 1)) in Hm1.
          change (2 ^ 1) with 2 in *.
          assert (0 < 2 ^ (53 - 1)) by (apply Z.pow_pos_nonneg; lia). nia.
        - apply Z.div_le_mono; [exact Hp2|exact Hm]. }
      destruct (Z.pos m2 / 2 ^ (- e2)) as [|n2|n2] eqn:En2; try lia.
      destruct (floor_frac m2 e2 n2 H2 Hc2 En2) as (Hd2 & mz2 & -> & Hz2).
      apply (exact_le n1 n2); [exact Hn|lia|exact Hz1|exact Hz2].
  - pose proof (Z.div_pos (Z.pos m1) (2 ^ (- e1)) ltac:(lia) Hp1). lia.
Qed.

(** [Math.floor] of a positive number is not above it. *)
Lemma floor_below (m : positive) (e : Z) :
  canonical m e ->
  le (floor (S754_finite false m e)) (S754_finite false m e) = true.
Proof.
  intros Hc. destruct (canonical_bounds m e Hc) as [He Hm].
  destruct (Z.le_gt_cases 0 e) as [H|H].
  { rewrite floor_int by lia. apply le_pos. right. lia. }
  assert (Hp : 0 < 2 ^ (- e)) by (apply Z.pow_pos_nonneg; lia).
  destruct (Z.pos m / 2 ^ (- e)) as [|n|n] eqn:En.
  - rewrite (floor_zero m e H En). reflexivity.
  - destruct (floor_frac m e n H Hc En) as (Hd & mz & -> & Hz).
    assert (Hlog : - e <= Z.log2 (Z.pos m)).
    { apply Z.log2_le_pow2; [lia|].
      destruct (Z.le_gt_cases (2 ^ (- e)) (Z.pos m)) as [Hle|Hgt];
        [exact Hle|].
      rewrite Z.div_small in En by lia. discriminate En. }
    destruct (log2_div_pow2 (Z.pos m) (- e) ltac:(lia) ltac:(lia) Hlog)
      as [_ Hl].
    rewrite En in Hl.
    assert (Hdm : Z.pos (digits2_pos m) = 53).
    { apply (canonical_normal m e Hc).
      destruct (Z.eq_dec e (-1074)) as [->|]; [|lia].
      pose proof (digits_log2 m) as Hdl.
      pose proof (digits_bounds m) as [Hlo _].
      assert (Z.log2 (Z.pos m) < 53); [|lia].
      apply Z.log2_lt_pow2; lia. }
    pose proof (digits_log2 n) as Hdn. pose proof (digits_log2 m) as Hdl.
    apply le_pos. right.
    split; [lia|]. rewrite Hz.
    replace (53 - Z.pos (digits2_pos n)) with (- e) by lia.
    rewrite <- En. rewrite Z.mul_comm. apply Z.mul_div_le. exact Hp.
  - pose proof (Z.div_pos (Z.pos m) (2 ^ (- e)) ltac:(lia) Hp). lia.
Qed.

Lemma le_lt_trans_pos (a : jsnum) (m1 : positive) (e1 : Z) (m2 : positive)
    (e2 : Z) :
  le a (S754_finite false m1 e1) = true ->
  lt (S754_finite false m1 e1) (S754_finite false m2 e2) = true ->
  le a (S754_finite false m2 e2) = true.
Proof.
  intros H1 H2. apply lt_pos in H2.
  destruct a as [[|]|[|]| |[|] m e]; try reflexivity; try discriminate H1.
  apply le_pos in H1. apply le_pos. lia.
Qed.

End FloorFacts.

(** ** Counter animation *)

Section CounterFacts.
Import JsNum CounterAnimation.

Lemma frames_more (fuel : nat) :
  forall fuel' c trace,
    frames fuel c = Some trace -> (fuel <= fuel')%nat ->
    frames fuel' c = Some trace.
Proof.
  induction fuel as [|fuel IH]; intros fuel' c trace H Hle; [discriminate|].
  destruct fuel' as [|fuel']; [lia|].
  cbn [frames] in *.
  destruct (updateCounter c) as [text [c'|]]; [|exact H].
  destruct (frames fuel c') as [rest|] eqn:E; [|discriminate].
  rewrite (IH fuel' c' rest E) by lia. exact H.
Qed.

Lemma frames_S (fuel : nat) (c : counter) :
  frames (S fuel) c
  = match updateCounter c with
    | (text, None) => Some [text]
    | (text, Some c') => cons text <$> frames fuel c'
    end.
Proof. reflexivity. Qed.

(** The frames an animation takes are the ones it needs. *)
Lemma frames_exact (fuel : nat) :
  forall c trace,
    frames fuel c = Some trace -> frames (length trace) c = Some trace.
Proof.
  induction fuel as [|fuel IH]; intros c trace H; [discriminate|].
  rewrite frames_S in H.
  destruct (updateCounter c) as [text [c'|]] eqn:E.
  - destruct (frames fuel c') as [rest|] eqn:F; [|discriminate].
    injection H as <-. cbn [length]. rewrite frames_S, E, (IH c' rest F).
    reflexivity.
  - injection H as <-. cbn [length]. rewrite frames_S, E. reflexivity.
Qed.

(** The values written are the floors of the running values, as long as
    these are below the target; then the target is written. *)
Lemma frames_running (fuel : nat) :
  forall c trace,
    frames fuel c = Some trace ->
    exists n,
      trace = (floor <$> running n c) ++ [target c]
      /\ Forall (fun x => lt x (target c) = true) (running n c)
      /\ (exists x, last (running (S n) c) = Some x
                    /\ lt x (target c) = false).
Proof.
  induction fuel as [|fuel IH]; intros c trace H; [discriminate|].
  rewrite frames_S in H. unfold updateCounter in H. cbn zeta in H.
  destruct (lt (add (current c) (increment c)) (target c)) eqn:E.
  - destruct (frames fuel _) as [rest|] eqn:F; [|discriminate].
    injection H as <-.
    destruct (IH _ _ F) as (n & -> & Hall & x & Hx & Hstop).
    exists (S n). cbn [running target] in *. repeat split.
    + constructor; assumption.
    + exists x. split; [|exact Hstop].
      rewrite <- Hx. apply last_cons_cons.
  - injection H as <-. exists 0%nat. repeat split.
    + constructor.
    + eexists. split; [reflexivity|exact E].
Qed.

Lemma running_length (n : nat) : forall c, length (running n c) = n.
Proof.
  induction n as [|n IH]; intros c; cbn; [reflexivity|].
  rewrite IH. reflexivity.
Qed.

(** The closure of a normal target: the increment is a normal number of
    the same sign, five to seven binades below the target. *)
Lemma new_counter_normal (s : bool) (mt : positive) (et : Z) :
  Z.pos (digits2_pos mt) = 53 -> -1066 <= et <= 971 ->
  exists mi ei,
    new_counter (S754_finite s mt et)
    = {| target := S754_finite s mt et;
         increment := S754_finite s mi ei;
         current := S754_zero false |}
    /\ Z.pos (digits2_pos mi) = 53
    /\ et - 7 <= ei <= et - 5.
Proof.
  intros Hd He. unfold new_counter. cbn zeta.
  rewrite (proj1 frames_per_animation).
  destruct (div_125 s mt et Hd He) as (mi & ei & -> & Hi).
  exists mi, ei. split; [reflexivity|exact Hi].
Qed.

Lemma ord_lt (m1 : positive) (e1 : Z) (m2 : positive) (e2 : Z) :
  canonical m1 e1 -> canonical m2 e2 ->
  lt (S754_finite false m1 e1) (S754_finite false m2 e2) = true ->
  0 <= ord m1 e1 < ord m2 e2.
Proof.
  intros H1 H2 Hlt. apply lt_pos in Hlt.
  destruct (canonical_bounds m1 e1 H1). destruct (canonical_bounds m2 e2 H2).
  unfold ord. change (emin prec emax) with (-1074).
  change (2 ^ prec) with (2 ^ 53) in *.
  assert (0 < 2 ^ 53) by (apply Z.pow_pos_nonneg; lia). nia.
Qed.

Lemma chain_cons (R : jsnum -> jsnum -> bool) (x y : jsnum) (l : list jsnum) :
  chain R (x :: y :: l) = R x y && chain R (y :: l).
Proof. reflexivity. Qed.

Lemma chain_tail (R : jsnum -> jsnum -> bool) (x : jsnum) (l : list jsnum) :
  chain R (x :: l) = true -> chain R l = true.
Proof.
  destruct l as [|y l]; [reflexivity|]. cbn [chain].
  intros H. apply andb_true_iff in H. tauto.
Qed.

(** One addition of the increment to a running value below the target:
    the sum is above the running value, and a number of the format when
    it is below the target. *)
Lemma add_below (t : jsnum) (et : Z) (mi : positive) (ei : Z) (x : jsnum) :
  (forall m e, lt (S754_finite false m e) t = true -> e <= et) ->
  Z.pos (digits2_pos mi) = 53 -> et - 7 <= ei -> -1074 <= ei ->
  below t x ->
  lt x (add x (S754_finite false mi ei)) = true
  /\ (lt (add x (S754_finite false mi ei)) t = true ->
      below t (add x (S754_finite false mi ei))).
Proof.
  intros Ht Hi Hei Hmin (mc & ec & -> & Hc & Hlt).
  pose proof (Ht mc ec Hlt) as Hec.
  pose proof (digits_bounds mi) as [Hlo _]. rewrite Hi in Hlo.
  destruct (add_pos mc ec mi ei Hc Hmin) as (m & e & E & Hc' & Hup).
  { destruct (Z.le_gt_cases ec ei) as [Hle|Hgt]; [left; exact Hle|right].
    apply Z.le_trans with (2 ^ 52); [|exact Hlo].
    apply Z.pow_le_mono_r; lia. }
  rewrite E.
  destruct (e <=? emax - prec).
  - split; [apply lt_pos; lia|].
    intros H. exists m, e. split; [reflexivity|]. split; [exact Hc'|exact H].
  - split; [reflexivity|]. intros H. exfalso.
    destruct t as [[|]|[|]| |[|] ? ?]; discriminate H.
Qed.

(** The target, the increment and what the loop needs of them: both are
    normal numbers, the increment at most seven binades below the
    target. *)
Lemma add_below_normal (mt : positive) (et : Z) (mi : positive) (ei : Z)
    (x : jsnum) :
  -1066 <= et -> Z.pos (digits2_pos mi) = 53 -> et - 7 <= ei ->
  below (S754_finite false mt et) x ->
  lt x (add x (S754_finite false mi ei)) = true
  /\ (lt (add x (S754_finite false mi ei)) (S754_finite false mt et) = true ->
      below (S754_finite false mt et) (add x (S754_finite false mi ei))).
Proof.
  intros Het Hi Hei Hx.
  apply (add_below _ et); try assumption; [|lia].
  intros m e H. apply lt_pos in H. lia.
Qed.

(** From a running value below the target, the animation ends. *)
Lemma frames_below (mt : positive) (et : Z) (mi : positive) (ei : Z)
    (k : nat) :
  Z.pos (digits2_pos mt) = 53 -> -1066 <= et ->
  Z.pos (digits2_pos mi) = 53 -> et - 7 <= ei ->
  forall x,
    below (S754_finite false mt et) x ->
    (match x with
     | S754_finite _ m e => Z.to_nat (ord mt et - ord m e)
     | _ => 0
     end <= k)%nat ->
    exists fuel trace,
      frames fuel {| target := S754_finite false mt et;
                     increment := S754_finite false mi ei;
                     current := x |}
      = Some trace.
Proof.
  intros Ht Het Hi Hei.
  assert (Hct : canonical mt et) by (apply normal_canonical; [exact Ht|lia]).
  induction k as [|k IH]; intros x Hx Hk.
  - destruct Hx as (m & e & -> & Hc & Hlt).
    pose proof (ord_lt m e mt et Hc Hct Hlt). lia.
  - destruct (add_below_normal mt et mi ei x Het Hi Hei Hx) as [Hup Hnext].
    destruct (lt (add x (S754_finite false mi ei)) (S754_finite false mt et))
      eqn:E.
    + specialize (Hnext eq_refl).
      destruct (IH _ Hnext) as (fuel & trace & H).
      { destruct Hx as (m & e & -> & Hc & Hlt).
        destruct Hnext as (m' & e' & E' & Hc' & Hlt'). rewrite E' in *.
        pose proof (ord_lt m e m' e' Hc Hc' Hup).
        pose proof (ord_lt m' e' mt et Hc' Hct Hlt'). lia. }
      exists (S fuel), (floor (add x (S754_finite false mi ei)) :: trace).
      rewrite frames_S. unfold updateCounter. cbn [current increment target].
      rewrite E, H. reflexivity.
    + exists 1%nat, [S754_finite false mt et].
      rewrite frames_S. unfold updateCounter.
      cbn [current increment target]. rewrite E. reflexivity.
Qed.

Lemma below_increment (t : jsnum) (mi : positive) (ei : Z) :
  Z.pos (digits2_pos mi) = 53 -> -1074 <= ei ->
  lt (S754_finite false mi ei) t = true -> below t (S754_finite false mi ei).
Proof.
  intros Hi Hei H. exists mi, ei. split; [reflexivity|].
  split; [apply normal_canonical; assumption|exact H].
Qed.

(** The animation of a normal target ends: the first frame makes the
    increment the running value. *)
Lemma frames_start (mt : positive) (et : Z) (mi : positive) (ei : Z) :
  Z.pos (digits2_pos mt) = 53 -> -1066 <= et ->
  Z.pos (digits2_pos mi) = 53 -> et - 7 <= ei ->
  exists fuel trace,
    frames fuel {| target := S754_finite false mt et;
                   increment := S754_finite false mi ei;
                   current := S754_zero false |} = Some trace.
Proof.
  intros Ht Het Hi Hei.
  destruct (lt (S754_finite false mi ei) (S754_finite false mt et)) eqn:E.
  - destruct (frames_below mt et mi ei (Z.to_nat (ord mt et - ord mi ei))
                Ht Het Hi Hei (S754_finite false mi ei))
      as (fuel & trace & H).
    + apply below_increment; [exact Hi|lia|exact E].
    + apply Nat.le_refl.
    + exists (S fuel), (floor (S754_finite false mi ei) :: trace).
      rewrite frames_S. unfold updateCounter. cbn [current increment target].
      change (add (S754_zero false) (S754_finite false mi ei))
        with (S754_finite false mi ei).
      rewrite E, H. reflexivity.
  - exists 1%nat, [S754_finite false mt et].
    rewrite frames_S. unfold updateCounter.
    cbn [current increment target].
    change (add (S754_zero false) (S754_finite false mi ei))
      with (S754_finite false mi ei).
    rewrite E. reflexivity.
Qed.

(** The running values climb: each is a number of the format below the
    target and above the one before; the value that ends the animation
    is above the last of them. *)
Lemma running_below (mt : positive) (et : Z) (mi : positive) (ei : Z)
    (n : nat) :
  -1066 <= et -> Z.pos (digits2_pos mi) = 53 -> et - 7 <= ei ->
  forall x,
    below (S754_finite false mt et) x ->
    Forall (fun y => lt y (S754_finite false mt et) = true)
      (running n {| target := S754_finite false mt et;
                    increment := S754_finite false mi ei; current := x |}) ->
    Forall (below (S754_finite false mt et))
      (running n {| target := S754_finite false mt et;
                    increment := S754_finite false mi ei; current := x |})
    /\ strictly_increasing
         (x :: running (S n) {| target := S754_finite false mt et;
                                increment := S754_finite false mi ei;
                                current := x |})
       = true.
Proof.
  intros Het Hi Hei.
  induction n as [|n IH]; intros x Hx Hall.
  - split; [constructor|]. cbn [running current increment].
    unfold strictly_increasing. cbn [chain].
    rewrite (proj1 (add_below_normal mt et mi ei x Het Hi Hei Hx)).
    reflexivity.
  - cbn [running current increment target] in Hall.
    apply Forall_cons in Hall as [Hlt Hall].
    destruct (add_below_normal mt et mi ei x Het Hi Hei Hx) as [Hup Hnext].
    specialize (Hnext Hlt).
    destruct (IH _ Hnext Hall) as [H1 H2].
    split.
    + cbn [running current increment target]. constructor; assumption.
    + change (running (S (S n)) {| target := S754_finite false mt et;
                                   increment := S754_finite false mi ei;
                                   current := x |})
        with (add x (S754_finite false mi ei)
                :: running (S n)
                     {| target := S754_finite false mt et;
                        increment := S754_finite false mi ei;
                        current := add x (S754_finite false mi ei) |}).
      unfold strictly_increasing in *.
      rewrite chain_cons, Hup, H2. reflexivity.
Qed.

Lemma running_start (mt : positive) (et : Z) (mi : positive) (ei : Z)
    (n : nat) :
  -1066 <= et -> Z.pos (digits2_pos mi) = 53 -> et - 7 <= ei ->
  Forall (fun y => lt y (S754_finite false mt et) = true)
    (running n {| target := S754_finite false mt et;
                  increment := S754_finite false mi ei;
                  current := S754_zero false |}) ->
  Forall (below (S754_finite false mt et))
    (running n {| target := S754_finite false mt et;
                  increment := S754_finite false mi ei;
                  current := S754_zero false |})
  /\ strictly_increasing
       (running (S n) {| target := S754_finite false mt et;
                         increment := S754_finite false mi ei;
                         current := S754_zero false |}) = true.
Proof.
  intros Het Hi Hei. destruct n as [|n]; intros Hall.
  - split; [constructor|reflexivity].
  - cbn [running current increment target] in *.
    change (add (S754_zero false) (S754_finite false mi ei))
      with (S754_finite false mi ei) in *.
    apply Forall_cons in Hall as [Hlt Hall].
    assert (Hb : below (S754_finite false mt et) (S754_finite false mi ei))
      by (apply below_increment; [exact Hi|lia|exact Hlt]).
    destruct (running_below mt et mi ei n Het Hi Hei _ Hb Hall) as [H1 H2].
    split; [constructor; [exact Hb|exact H1]|exact H2].
Qed.

Lemma lt_le_pos (t x y : jsnum) :
  below t x -> lt x y = true -> le x y = true.
Proof.
  intros (m & e & -> & _ & _).
  destruct y as [[|]|[|]| |[|] m' e']; try discriminate; try reflexivity.
  intros H. apply lt_pos in H. apply le_pos. lia.
Qed.

(** The floors of climbing values, followed by the target, do not
    decrease. *)
Lemma floors_non_decreasing (mt : positive) (et : Z) (l : list jsnum) :
  Forall (below (S754_finite false mt et)) l ->
  strictly_increasing l = true ->
  non_decreasing ((floor <$> l) ++ [S754_finite false mt et]) = true.
Proof.
  induction l as [|x l IH]; intros Hall Hinc; [reflexivity|].
  apply Forall_cons in Hall as [Hx Hall].
  pose proof (chain_tail _ _ _ Hinc) as Htail.
  specialize (IH Hall Htail).
  destruct l as [|y l].
  - cbn [fmap list_fmap app]. unfold non_decreasing. cbn [chain].
    rewrite andb_true_r.
    destruct Hx as (m & e & -> & Hc & Hlt).
    apply (le_lt_trans_pos _ m e mt et); [apply floor_below, Hc|exact Hlt].
  - rewrite !fmap_cons, <- !app_comm_cons in *. unfold non_decreasing in *.
    rewrite chain_cons, IH, andb_true_r.
    unfold strictly_increasing in Hinc. cbn [chain] in Hinc.
    apply andb_true_iff in Hinc as [Hxy _].
    pose proof (lt_le_pos _ x y Hx Hxy) as Hle.
    apply Forall_cons in Hall as [Hy _].
    destruct Hx as (m & e & -> & Hc & _).
    destruct Hy as (m' & e' & -> & Hc' & _).
    apply floor_le; assumption.
Qed.


End CounterFacts.

Section AnimationFacts.
Import JsNum CounterAnimation.

Lemma chain_app_l (R : jsnum -> jsnum -> bool) (l l' : list jsnum) :
  chain R (l ++ l') = true -> chain R l = true.
Proof.
  induction l as [|x l IH]; [reflexivity|].
  destruct l as [|y l]; [reflexivity|].
  rewrite <- !app_comm_cons, !chain_cons. intros H.
  apply andb_true_iff in H as [H1 H2]. rewrite H1.
  apply IH. rewrite <- app_comm_cons. exact H2.
Qed.

Lemma running_snoc (n : nat) :
  forall c, exists x, running (S n) c = running n c ++ [x].
Proof.
  induction n as [|n IH]; intros c.
  - eexists. reflexivity.
  - destruct (IH {| target := target c; increment := increment c;
                    current := add (current c) (increment c) |}) as [x Hx].
    exists x. change (running (S (S n)) c)
      with (add (current c) (increment c)
              :: running (S n) {| target := target c;
                                  increment := increment c;
                                  current := add (current c) (increment c) |}).
    rewrite Hx. reflexivity.
Qed.

(** The animation of a positive normal target. *)
Lemma animation_positive (mt : positive) (et : Z) :
  Z.pos (digits2_pos mt) = 53 -> -1066 <= et <= 971 ->
  let t : jsnum := S754_finite false mt et in
  let c0 := new_counter t in
  exists n,
    let trace := (floor <$> running n c0) ++ [t] in
    (forall fuel, (n < fuel)%nat -> animateCounter fuel t = Some trace)
    /\ Forall (fun x => lt x t = true) (running n c0)
    /\ (exists x, last (running (S n) c0) = Some x /\ lt x t = false)
    /\ lt (of_Z 0) (increment c0) = true
    /\ strictly_increasing (running (S n) c0) = true
    /\ non_decreasing trace = true.
Proof.
  intros Hd He. cbn zeta.
  destruct (new_counter_normal false mt et Hd He) as (mi & ei & E & Hi & Hei).
  unfold animateCounter. rewrite E.
  destruct (frames_start mt et mi ei Hd ltac:(lia) Hi ltac:(lia))
    as (fuel & trace & H).
  destruct (frames_running fuel _ trace H) as (n & Ht & Hall & Hstop).
  cbn [target] in Ht, Hall, Hstop. subst trace.
  destruct (running_start mt et mi ei n ltac:(lia) Hi ltac:(lia) Hall)
    as [Hbelow Hinc].
  exists n. cbn zeta.
  set (c0 := {| target := S754_finite false mt et;
                increment := S754_finite false mi ei;
                current := S754_zero false |}) in *.
  split.
  { intros fuel' Hfuel. apply (frames_more (S n)); [|lia].
    pose proof (frames_exact fuel _ _ H) as H'.
    rewrite length_app, length_fmap, running_length in H'.
    replace (S n) with (n + 1)%nat by lia. exact H'. }
  split; [exact Hall|]. split; [exact Hstop|].
  split; [reflexivity|]. split; [exact Hinc|].
  apply (floors_non_decreasing mt et); [exact Hbelow|].
  destruct (running_snoc n c0) as [x Hx].
  rewrite Hx in Hinc. exact (chain_app_l _ _ _ Hinc).
Qed.

(** A target whose first comparison fails is written at once. *)
Lemma animation_immediate (t : jsnum) :
  lt (add (current (new_counter t)) (increment (new_counter t))) t = false ->
  forall fuel, (0 < fuel)%nat -> animateCounter fuel t = Some [t].
Proof.
  intros H fuel Hfuel. apply (frames_more 1); [|lia].
  unfold animateCounter. rewrite frames_S. unfold updateCounter.
  cbn zeta. change (target (new_counter t)) with t. rewrite H. reflexivity.
Qed.

(** The first comparison of a negative normal target fails. *)
Lemma first_comparison_negative (mt : positive) (et : Z) :
  Z.pos (digits2_pos mt) = 53 -> -1066 <= et <= 971 ->
  let t : jsnum := S754_finite true mt et in
  lt (add (current (new_counter t)) (increment (new_counter t))) t = false.
Proof.
  intros Hd He. cbn zeta.
  destruct (new_counter_normal true mt et Hd He) as (mi & ei & -> & Hi & Hei).
  cbn [current increment].
  change (add (S754_zero false) (S754_finite true mi ei))
    with (S754_finite true mi ei).
  unfold lt, SFltb, SFcompare.
  destruct (Z.compare_spec ei et); try reflexivity; lia.
Qed.

(** What the parsed targets are. *)
Lemma parsed_cases (t : jsnum) :
  parsed t ->
  t = NaN \/ (exists s, t = S754_zero s) \/ (exists s, t = S754_infinity s)
  \/ exists s m e,
       t = S754_finite s m e
       /\ Z.pos (digits2_pos m) = 53 /\ -1066 <= e <= 971.
Proof.
  intros [| |z]; [left; reflexivity|right; left; eauto|].
  destruct (Z.eq_dec z 0) as [->|Hz]; [right; left; exists false; reflexivity|].
  destruct (of_Z_sign z Hz) as [->|(m & e & -> & Hd & He)].
  - right. right. left. eauto.
  - right. right. right. exists (z <? 0), m, e.
    split; [reflexivity|]. split; [exact Hd|lia].
Qed.

Lemma of_Z_positive (z : Z) :
  0 < z ->
  of_Z z = S754_infinity false
  \/ exists m e,
       of_Z z = S754_finite false m e
       /\ Z.pos (digits2_pos m) = 53 /\ -1066 <= e <= 971.
Proof.
  intros Hz. pose proof (of_Z_sign z ltac:(lia)) as H. cbn zeta in H.
  assert ((z <? 0) = false) as E by (apply Z.ltb_ge; lia).
  rewrite E in H. destruct H as [H|(m & e & H & Hd & He)]; [left; exact H|].
  right. exists m, e. split; [exact H|]. split; [exact Hd|lia].
Qed.

End AnimationFacts.

(** C3, as the code has it. For a counter whose target is the positive
    integer [z]: the running value starts at 0 and the increment
    [target / (2000 / 16)], which is [target / 125], is added to it at
    every frame, in binary64 arithmetic. The animation takes [n + 1]
    frames: each of the first [n] running values is below the target and
    its floor is shown, the next running value is not below the target,
    and that frame shows the target. The running values are strictly
    increasing; the values shown are non-decreasing, and the last value
    shown is exactly the target. *)
Theorem counter_animation_non_decreasing (z : Z) :
  0 < z ->
  let target := JsNum.of_Z z in
  let c0 := CounterAnimation.new_counter target in
  exists n,
    let trace :=
      (JsNum.floor <$> CounterAnimation.running n c0) ++ [target] in
    (forall fuel, (n < fuel)%nat ->
       CounterAnimation.animateCounter fuel target = Some trace)
    /\ CounterAnimation.increment c0 = JsNum.div target (JsNum.of_Z 125)
    /\ Forall (fun x => JsNum.lt x target = true)
              (CounterAnimation.running n c0)
    /\ (exists x, last (CounterAnimation.running (S n) c0) = Some x
                  /\ JsNum.lt x target = false)
    /\ CounterAnimation.strictly_increasing
         (CounterAnimation.running (S n) c0) = true
    /\ CounterAnimation.non_decreasing trace = true
    /\ last trace = Some target.
Proof.
  intros Hz. cbn zeta.
  assert (Hinc : forall t,
             CounterAnimation.increment (CounterAnimation.new_counter t)
             = JsNum.div t (JsNum.of_Z 125)).
  { intros t. unfold CounterAnimation.new_counter. cbn [CounterAnimation.increment].
    rewrite (proj1 frames_per_animation), (proj2 frames_per_animation).
    reflexivity. }
  destruct (of_Z_positive z Hz) as [E|(m & e & E & Hd & He)]; rewrite E.
  - exists 0%nat. cbn zeta.
    split; [intros fuel Hfuel; apply animation_immediate; [reflexivity|lia]|].
    split; [apply Hinc|]. split; [constructor|].
    split; [eexists; split; reflexivity|].
    split; [reflexivity|]. split; reflexivity.
  - destruct (animation_positive m e Hd He)
      as (n & Hrun & Hall & Hstop & _ & Hup & Hshown).
    exists n. cbn zeta.
    split; [exact Hrun|]. split; [apply Hinc|]. split; [exact Hall|].
    split; [exact Hstop|]. split; [exact Hup|]. split; [exact Hshown|].
    apply last_snoc.
Qed.

(** Target 100: the animation takes 126 frames. *)
Lemma counter_animation_non_decreasing_witness :
  0 < 100
  /\ exists n,
       (forall fuel, (n < fuel)%nat ->
          CounterAnimation.animateCounter fuel (JsNum.of_Z 100)
          = Some ((JsNum.floor
                     <$> CounterAnimation.running n
                           (CounterAnimation.new_counter (JsNum.of_Z 100)))
                    ++ [JsNum.of_Z 100]))
       /\ CounterAnimation.non_decreasing
            ((JsNum.floor
                <$> CounterAnimation.running n
                      (CounterAnimation.new_counter (JsNum.of_Z 100)))
               ++ [JsNum.of_Z 100]) = true.
Proof.
  assert (H : 0 < 100) by lia.
  split; [exact H|].
  destruct (counter_animation_non_decreasing 100 H)
    as (n & H1 & _ & _ & _ & _ & H2 & _).
  exists n. split; [exact H1|exact H2].
Defined.

(** C3, as the spec states it, fails for target 100: the running values
    at frames 5 and 6 are 4 and a number between 4 and 5, and both frames
    show 4, so the values shown are not strictly increasing. (The
    animation takes 126 frames: the running value at frame 125 is still
    below 100. Frame 10 shows 7.) *)
Lemma counter_strictly_increasing_counterexample :
  exists trace,
    CounterAnimation.animateCounter 126 (JsNum.of_Z 100) = Some trace
    /\ CounterAnimation.animateCounter 125 (JsNum.of_Z 100) = None
    /\ trace !! 4%nat = Some (JsNum.of_Z 4)
    /\ trace !! 5%nat = Some (JsNum.of_Z 4)
    /\ trace !! 9%nat = Some (JsNum.of_Z 7)
    /\ last trace = Some (JsNum.of_Z 100)
    /\ CounterAnimation.strictly_increasing trace = false.
Proof.
  eexists. split; [vm_compute; reflexivity|].
  split; [vm_compute; reflexivity|].
  split; [reflexivity|]. split; [reflexivity|]. split; [reflexivity|].
  split; vm_compute; reflexivity.
Qed.

(** Target 100 on the doubles of the machine: the running values are the
    ones of the model, frame by frame, and the first that is not below
    100 is the one of frame 126. *)
Example binary64_target_100 :
  let values :=
    Binary64.running 126 (Binary64.increment 100%float) 0%float in
  FloatOps.Prim2SF <$> values
  = CounterAnimation.running 126
      (CounterAnimation.new_counter (JsNum.of_Z 100))
  /\ Binary64.below 100%float values = replicate 125 true ++ [false].
Proof. cbn zeta. split; vm_compute; reflexivity. Qed.



(** ** The visited set of the counter behaviour *)

Section VisitedSetFacts.
Import JsNum CounterAnimation.
Implicit Types (p : page) (v : viewport).

Lemma visit_animated v p (element : nat) :
  element ∈ animated p -> visit v p element = p.
Proof. intros H. unfold visit. rewrite decide_True by exact H. reflexivity. Qed.

Lemma start_animation_animated (i : nat) p :
  animated (start_animation i p) = animated p.
Proof.
  unfold start_animation. destruct (statNumbers p !! i); [|reflexivity].
  destruct (updateCounter _). reflexivity.
Qed.

Lemma visit_animated_mono v p (i j : nat) :
  j ∈ animated p -> j ∈ animated (visit v p i).
Proof.
  intros H. unfold visit. destruct (decide _); [exact H|].
  destruct (isInViewport v i); [|exact H].
  cbn. rewrite start_animation_animated. set_solver.
Qed.

Lemma filter_snoc_other {B} (P : B -> Prop) `{!forall x, Decision (P x)}
    (l : list B) (x : B) :
  ~ P x -> filter P (l ++ [x]) = filter P l.
Proof.
  intros Hx. rewrite filter_app, (filter_cons_False _ _ _ Hx).
  apply app_nil_r.
Qed.

(** A visit to [i] leaves every other element as it was. *)
Lemma visit_other v p (i j : nat) :
  i <> j ->
  statNumbers (visit v p i) !! j = statNumbers p !! j
  /\ queued_for j (visit v p i) = queued_for j p
  /\ animations_started j (visit v p i) = animations_started j p.
Proof.
  intros Hij. unfold visit. destruct (decide _); [auto|].
  destruct (isInViewport v i); [|auto].
  unfold queued_for, animations_started, mark_animated, start_animation.
  cbn [statNumbers frame_queue started].
  destruct (statNumbers p !! i) as [s|]; [|auto].
  destruct (updateCounter _) as [text next].
  cbn [statNumbers frame_queue started].
  split; [apply list_lookup_alter_ne, Hij|].
  split.
  - destruct next; [|reflexivity]. apply filter_snoc_other. cbn. exact Hij.
  - f_equal. apply filter_snoc_other. exact Hij.
Qed.

Lemma forEach_animated v (j : nat) (elements : list nat) :
  forall p,
    j ∈ animated p ->
    let p' := foldl (visit v) p elements in
    statNumbers p' !! j = statNumbers p !! j
    /\ queued_for j p' = queued_for j p
    /\ animations_started j p' = animations_started j p
    /\ j ∈ animated p'.
Proof.
  induction elements as [|i elements IH]; intros p Hj; cbn [foldl]; [auto|].
  destruct (IH (visit v p i) (visit_animated_mono v p i j Hj))
    as (H1 & H2 & H3 & H4).
  cbn zeta in *. rewrite H1, H2, H3. split_and!; [| | |exact H4].
  all: destruct (decide (i = j)) as [->|Hij];
    [rewrite (visit_animated v p j Hj); reflexivity
    |apply (visit_other v p i j Hij)].
Qed.

Lemma handleScroll_animated v p (j : nat) :
  j ∈ animated p ->
  statNumbers (handleScroll v p) !! j = statNumbers p !! j
  /\ queued_for j (handleScroll v p) = queued_for j p
  /\ animations_started j (handleScroll v p) = animations_started j p
  /\ j ∈ animated (handleScroll v p).
Proof. intros Hj. apply (forEach_animated v j _ p Hj). Qed.

Lemma animations_started_snoc (j i : nat) (l : list nat) :
  length (filter (fun e => e = j) (l ++ [i]))
  = (length (filter (fun e => e = j) l) + if decide (i = j) then 1 else 0)%nat.
Proof.
  rewrite filter_app, length_app. f_equal.
  destruct (decide (i = j)) as [->|H].
  - rewrite filter_cons_True by reflexivity. reflexivity.
  - rewrite filter_cons_False by exact H. reflexivity.
Qed.

Lemma visit_once v p (i : nat) : once p -> once (visit v p i).
Proof.
  intros Hp. unfold visit. destruct (decide _) as [|Hi]; [exact Hp|].
  destruct (isInViewport v i); [|exact Hp].
  intros j. destruct (Hp j) as [H0 H1]. destruct (Hp i) as [Hi0 _].
  specialize (Hi0 Hi).
  unfold animations_started, mark_animated, start_animation in *.
  cbn [animated started].
  destruct (statNumbers p !! i) as [s|].
  - destruct (updateCounter _) as [text next]. cbn [animated started].
    rewrite animations_started_snoc.
    destruct (decide (i = j)) as [->|Hij].
    + rewrite Hi0. split; [|lia]. intros Hn. exfalso. apply Hn. set_solver.
    + split; [|lia]. intros Hn. rewrite H0; [lia|]. set_solver.
  - split; [|exact H1]. intros Hn. apply H0. set_solver.
Qed.

Lemma handleScroll_once v p : once p -> once (handleScroll v p).
Proof.
  unfold handleScroll. generalize (seq 0 (length (statNumbers p))).
  intros l. revert p. induction l as [|i l IH]; intros p Hp; cbn [foldl].
  - exact Hp.
  - apply IH, visit_once, Hp.
Qed.

Lemma forEach_callback (cbs : list (nat * counter)) :
  forall p,
    animated (foldl run_callback p cbs) = animated p
    /\ started (foldl run_callback p cbs) = started p.
Proof.
  induction cbs as [|cb cbs IH]; intros p; cbn [foldl]; [auto|].
  destruct (IH (run_callback p cb)) as [-> ->].
  unfold run_callback. destruct (updateCounter _). auto.
Qed.

Lemma animation_frame_once p : once p -> once (animation_frame p).
Proof.
  intros Hp j. unfold animation_frame, animations_started.
  destruct (forEach_callback (frame_queue p)
              {| statNumbers := statNumbers p; animated := animated p;
                 frame_queue := []; started := started p |}) as [-> ->].
  exact (Hp j).
Qed.

Lemma run_once (events : list event) : forall p, once p -> once (run p events).
Proof.
  induction events as [|e events IH]; intros p Hp; cbn; [exact Hp|].
  apply IH. destruct e; [apply handleScroll_once|apply animation_frame_once];
    exact Hp.
Qed.

Lemma init_once (stats : list stat) v : once (init stats v).
Proof.
  apply handleScroll_once. intros j. cbn. split; [reflexivity|lia].
Qed.

Lemma scrolls_animated (j : nat) (vs : list viewport) :
  forall p,
    j ∈ animated p ->
    let p' := run p (Scroll <$> vs) in
    statNumbers p' !! j = statNumbers p !! j
    /\ queued_for j p' = queued_for j p
    /\ animations_started j p' = animations_started j p
    /\ j ∈ animated p'.
Proof.
  induction vs as [|v vs IH]; intros p Hj; cbn; [auto|].
  destruct (handleScroll_animated v p j Hj) as (H1 & H2 & H3 & H4).
  destruct (IH (handleScroll v p) H4) as (K1 & K2 & K3 & K4).
  cbn zeta in *. unfold run in *. rewrite K1, K2, K3. auto.
Qed.


Lemma visit_other_animated v p (i j : nat) :
  i <> j -> j ∈ animated (visit v p i) <-> j ∈ animated p.
Proof.
  intros Hij. unfold visit. destruct (decide _); [reflexivity|].
  destruct (isInViewport v i); [|reflexivity].
  cbn. rewrite start_animation_animated, elem_of_union, elem_of_singleton.
  split; [intros [Hj|Hj]; [exact Hj|congruence]|intros Hj; left; exact Hj].
Qed.

Lemma forEach_elsewhere v (j : nat) (elements : list nat) :
  j ∉ elements ->
  forall p,
    let p' := foldl (visit v) p elements in
    statNumbers p' !! j = statNumbers p !! j
    /\ animations_started j p' = animations_started j p
    /\ (j ∈ animated p' <-> j ∈ animated p).
Proof.
  induction elements as [|i elements IH]; intros Hj p; cbn [foldl].
  - split_and!; reflexivity.
  - destruct (proj1 (not_elem_of_cons _ _ _) Hj) as [Hne Hj'].
    destruct (IH Hj' (visit v p i)) as (H1 & H2 & H3).
    destruct (visit_other v p i j (not_eq_sym Hne)) as (K1 & _ & K3).
    cbn zeta in *. rewrite H1, H2, H3, K1, K3.
    split_and!; [reflexivity|reflexivity|].
    apply visit_other_animated. congruence.
Qed.

(** The first visit to a visible element: its first frame is written, the
    animation is recorded and the element joins the visited set. *)
Lemma visit_first v p (j : nat) (s : stat) :
  j ∉ animated p -> isInViewport v j = true ->
  statNumbers p !! j = Some s ->
  statNumbers (visit v p j) !! j
  = Some (write (updateCounter (new_counter (data_target s))).1 s)
  /\ animations_started j (visit v p j) = S (animations_started j p)
  /\ j ∈ animated (visit v p j).
Proof.
  intros Hj Hv Hs. unfold visit. rewrite decide_False by exact Hj.
  rewrite Hv. unfold mark_animated, start_animation, animations_started.
  rewrite Hs. destruct (updateCounter _) as [text next].
  cbn [statNumbers animated started fst].
  split_and!.
  - rewrite list_lookup_alter_eq, Hs. reflexivity.
  - rewrite animations_started_snoc, decide_True by reflexivity. lia.
  - set_solver.
Qed.

Lemma handleScroll_first v p (j : nat) (s : stat) :
  j ∉ animated p -> isInViewport v j = true ->
  statNumbers p !! j = Some s ->
  statNumbers (handleScroll v p) !! j
  = Some (write (updateCounter (new_counter (data_target s))).1 s)
  /\ animations_started j (handleScroll v p) = S (animations_started j p)
  /\ j ∈ animated (handleScroll v p).
Proof.
  intros Hj Hv Hs. unfold handleScroll.
  pose proof (lookup_lt_Some _ _ _ Hs) as Hlt.
  replace (seq 0 (length (statNumbers p)))
    with (seq 0 j ++ j :: seq (S j) (length (statNumbers p) - S j)).
  2:{ symmetry.
      transitivity (seq 0 (j + S (length (statNumbers p) - S j)));
        [f_equal; lia|apply seq_app]. }
  rewrite foldl_app. cbn [foldl].
  set (p1 := foldl (visit v) p (seq 0 j)).
  destruct (forEach_elsewhere v j (seq 0 j)) with (p := p) as (H1 & H2 & H3).
  { rewrite elem_of_seq. lia. }
  fold p1 in H1, H2, H3.
  destruct (visit_first v p1 j s) as (K1 & K2 & K3).
  { rewrite H3. exact Hj. }
  { exact Hv. }
  { rewrite H1. exact Hs. }
  destruct (forEach_animated v j (seq (S j) (length (statNumbers p) - S j))
              (visit v p1 j) K3) as (L1 & _ & L3 & L4).
  cbn zeta in *. rewrite L1, L3, K1, K2, H2. auto.
Qed.

End VisitedSetFacts.

(** C7. A counter element animates at most once. From the page as the
    constructor leaves it, after any sequence of scroll triggers and
    animation frames, no element has had more than one animation started.
    Once an element is in the visited set, any sequence of further
    triggers leaves its text, the frames queued for it and the number of
    animations started on it unchanged, and leaves it in the set. The
    element enters the set in the trigger that starts its animation: a
    trigger that finds an unvisited element in the viewport writes its
    first frame, starts exactly one animation and adds it to the set. *)
Theorem counter_animates_at_most_once :
  (forall stats v0 events element,
      (CounterAnimation.animations_started element
         (CounterAnimation.run (CounterAnimation.init stats v0) events)
       <= 1)%nat)
  /\ (forall p element triggers,
         element ∈ CounterAnimation.animated p ->
         let p' := CounterAnimation.run p (CounterAnimation.Scroll <$> triggers) in
         CounterAnimation.statNumbers p' !! element
         = CounterAnimation.statNumbers p !! element
         /\ CounterAnimation.queued_for element p'
            = CounterAnimation.queued_for element p
         /\ CounterAnimation.animations_started element p'
            = CounterAnimation.animations_started element p
         /\ element ∈ CounterAnimation.animated p')
  /\ (forall v p element s,
         element ∉ CounterAnimation.animated p ->
         CounterAnimation.isInViewport v element = true ->
         CounterAnimation.statNumbers p !! element = Some s ->
         CounterAnimation.statNumbers (CounterAnimation.handleScroll v p) !! element
         = Some (CounterAnimation.write
                   (CounterAnimation.updateCounter
                      (CounterAnimation.new_counter
                         (CounterAnimation.data_target s))).1 s)
         /\ CounterAnimation.animations_started element
              (CounterAnimation.handleScroll v p)
            = S (CounterAnimation.animations_started element p)
         /\ element ∈ CounterAnimation.animated
                        (CounterAnimation.handleScroll v p)).
Proof.
  split_and!.
  - intros stats v0 events element.
    apply (run_once events _ (init_once stats v0) element).
  - intros p element triggers H. apply (scrolls_animated element triggers p H).
  - intros v p element s. apply handleScroll_first.
Qed.


(** One counter, in the viewport when the page is set up, then two more
    triggers. *)
Lemma counter_animates_at_most_once_witness :
  let v := {| CounterAnimation.innerHeight := 800;
              CounterAnimation.bounding :=
                fun _ => {| CounterAnimation.top := 100;
                            CounterAnimation.bottom := 150 |} |} in
  let p := CounterAnimation.init
             [{| CounterAnimation.data_target := JsNum.of_Z 100;
                 CounterAnimation.textContent := CounterAnimation.Markup "0" |}]
             v in
  0%nat ∈ CounterAnimation.animated p
  /\ CounterAnimation.statNumbers
       (CounterAnimation.run p (CounterAnimation.Scroll <$> [v; v])) !! 0%nat
     = CounterAnimation.statNumbers p !! 0%nat.
Proof.
  intros v p.
  assert (H : 0%nat ∈ CounterAnimation.animated p) by (vm_compute; set_solver).
  split; [exact H|].
  exact (proj1 (proj1 (proj2 counter_animates_at_most_once) p 0%nat [v; v] H)).
Defined.

(** ** Contact form *)

Section FieldFacts.
Import Regex FormValidation.
Implicit Types (f : field) (fm : form).

(** The result of [validateField] and the error it leaves on display. *)
Lemma validateField_cases f fm :
  validateField f fm = (true, clearFieldError (fieldGroup f fm) fm)
  \/ exists msg,
       validateField f fm
       = (false, showFieldError (fieldGroup f fm) msg
                   (clearFieldError (fieldGroup f fm) fm)).
Proof.
  unfold validateField. cbn zeta.
  repeat match goal with
         | |- context [if ?b then _ else _] =>
             match b with
             | andb _ _ => destruct b
             end
         end; eauto.
Qed.

(** The result depends on the field alone. *)
Lemma validateField_result f fm fm' :
  (validateField f fm).1 = (validateField f fm').1.
Proof.
  unfold validateField. cbn zeta.
  repeat match goal with
         | |- context [if ?b then _ else _] =>
             match b with
             | andb _ _ => destruct b
             end
         end; reflexivity.
Qed.

End FieldFacts.

(** C8. An email field whose value is ["a@b"] is invalid and one whose
    value is ["a@b.com"] is valid; a required field whose trimmed value is
    empty is invalid, whatever its type. *)
Theorem validateField_email_and_required :
  (forall f fm,
      FormValidation.type f = "email" -> FormValidation.value f = "a@b" ->
      (FormValidation.validateField f fm).1 = false)
  /\ (forall f fm,
         FormValidation.type f = "email" ->
         FormValidation.value f = "a@b.com" ->
         (FormValidation.validateField f fm).1 = true)
  /\ (forall f fm,
         FormValidation.required f = true ->
         FormValidation.trim (FormValidation.value f) = "" ->
         (FormValidation.validateField f fm).1 = false).
Proof.
  split_and!.
  - intros f fm Ht Hv. unfold FormValidation.validateField. cbn zeta.
    rewrite Ht, Hv.
    change (FormValidation.trim "a@b") with "a@b".
    change (FormValidation.truthy "a@b") with true.
    rewrite andb_false_r. rewrite decide_True by reflexivity.
    change (Regex.test FormValidation.emailRegex "a@b") with false.
    reflexivity.
  - intros f fm Ht Hv. unfold FormValidation.validateField. cbn zeta.
    rewrite Ht, Hv.
    change (FormValidation.trim "a@b.com") with "a@b.com".
    change (FormValidation.truthy "a@b.com") with true.
    rewrite andb_false_r. rewrite decide_True by reflexivity.
    change (Regex.test FormValidation.emailRegex "a@b.com") with true.
    rewrite decide_False by discriminate. reflexivity.
  - intros f fm Hr Hv. unfold FormValidation.validateField. cbn zeta.
    rewrite Hr, Hv. reflexivity.
Qed.

(** A required telephone field holding two spaces. *)
Lemma validateField_email_and_required_witness :
  let f := {| FormValidation.value := "  ";
              FormValidation.type := "tel";
              FormValidation.required := true;
              FormValidation.defaultValue := "";
              FormValidation.closest := None;
              FormValidation.validity := None |} in
  let fm := {| FormValidation.fields := [f];
               FormValidation.groups := [];
               FormValidation.submitButton := None;
               FormValidation.generalErrors := [];
               FormValidation.successes := [];
               FormValidation.submissions := 0;
               FormValidation.defaultPrevented := 0 |} in
  FormValidation.required f = true
  /\ FormValidation.trim (FormValidation.value f) = ""
  /\ (FormValidation.validateField f fm).1 = false.
Proof.
  intros f fm.
  assert (Hr : FormValidation.required f = true) by reflexivity.
  assert (Hv : FormValidation.trim (FormValidation.value f) = "")
    by reflexivity.
  split; [exact Hr|]. split; [exact Hv|].
  exact (proj2 (proj2 validateField_email_and_required) f fm Hr Hv).
Defined.

Section SubmitFacts.
Import FormValidation.
Implicit Types (fm : form).

(** The two pieces make up [submitForm]. *)
Lemma submitForm_split (resolves : bool) fm :
  submitForm resolves fm
  = (originalText ← submitForm_begin;
     submitForm_resume resolves originalText) fm.
Proof.
  destruct fm as [fs gs [sb|] ge su n d]; destruct resolves; reflexivity.
Qed.

(** [blur] and [input] leave the submit control alone. *)
Lemma step_submitButton fm (e : event) :
  submits e = false -> submitButton (step fm e) = submitButton fm.
Proof.
  destruct e as [i|i text|resolves]; intros He; [| |discriminate].
  - cbn [step]. unfold validate_at.
    destruct (fields fm !! i) as [f|]; [|reflexivity].
    destruct (validateField_cases f fm) as [->|[msg ->]];
      destruct (fieldGroup f fm); reflexivity.
  - cbn [step]. destruct (fields (typed i text fm) !! i) as [f|]; [|reflexivity].
    unfold clearError. destruct (fieldGroup f _); reflexivity.
Qed.

Lemma run_submitButton (events : list event) :
  forall fm,
    Forall (fun e => submits e = false) events ->
    submitButton (run fm events) = submitButton fm.
Proof.
  induction events as [|e events IH]; intros fm Hall; [reflexivity|].
  apply Forall_cons in Hall as [He Hall]. cbn [run foldl].
  change (foldl step (step fm e) events) with (run (step fm e) events).
  rewrite (IH _ Hall). apply step_submitButton, He.
Qed.

Lemma submitForm_resume_button (resolves : bool) (originalText : string) fm
    (b : button) :
  submitButton fm = Some b ->
  (submitForm_resume resolves originalText fm).1 = Normal tt
  /\ submitButton (submitForm_resume resolves originalText fm).2
     = Some {| disabled := false; label := originalText |}.
Proof.
  intros Hb. destruct fm as [fs gs sb ge su n d]. cbn in Hb. subst sb.
  destruct resolves; split; reflexivity.
Qed.

End SubmitFacts.

(** C5. Whether the awaited submission resolves or rejects, [submitForm]
    completes normally with the submit control enabled again
    ([disabled = false]) and carrying the label it had when [submitForm]
    was called. The same holds when [blur] and [input] events are
    dispatched while the submission is pending: [submitForm] is its part
    before the [await] followed by its part after it, the first part
    leaves the control disabled with the pending label, and after any such
    events the second part restores it. *)
Theorem submit_control_restored (resolves : bool) (fm : FormValidation.form)
    (b : FormValidation.button) (pending : list FormValidation.event) :
  FormValidation.submitButton fm = Some b ->
  Forall (fun e => FormValidation.submits e = false) pending ->
  let restored := Some {| FormValidation.disabled := false;
                          FormValidation.label := FormValidation.label b |} in
  (FormValidation.submitButton (FormValidation.submitForm resolves fm).2
   = restored
   /\ (FormValidation.submitForm resolves fm).1 = FormValidation.Normal tt)
  /\ FormValidation.submitForm resolves fm
     = (originalText ← FormValidation.submitForm_begin;
        FormValidation.submitForm_resume resolves originalText) fm
  /\ exists fm1,
       FormValidation.submitForm_begin fm
       = (FormValidation.Normal (FormValidation.label b), fm1)
       /\ FormValidation.submitButton fm1
          = Some {| FormValidation.disabled := true;
                    FormValidation.label := "Enviando..." |}
       /\ let fm2 :=
            (FormValidation.submitForm_resume resolves
               (FormValidation.label b)
               (FormValidation.run fm1 pending)).2 in
          FormValidation.submitButton fm2 = restored.
Proof.
  intros Hb Hpending restored. split; [|split].
  - destruct fm as [fs gs sb ge su n d]. cbn in Hb. subst sb.
    destruct resolves; split; reflexivity.
  - apply submitForm_split.
  - destruct fm as [fs gs sb ge su n d]. cbn in Hb. subst sb.
    eexists. split; [lazy; reflexivity|]. split; [reflexivity|].
    cbn zeta.
    apply (submitForm_resume_button resolves (FormValidation.label b) _
             {| FormValidation.disabled := true;
                FormValidation.label := "Enviando..." |}).
    rewrite (run_submitButton pending _ Hpending). reflexivity.
Qed.

(** A rejected submission. *)
Lemma submit_control_restored_witness :
  let b := {| FormValidation.disabled := false;
              FormValidation.label := "Enviar mensagem" |} in
  let fm := {| FormValidation.fields := [];
               FormValidation.groups := [];
               FormValidation.submitButton := Some b;
               FormValidation.generalErrors := [];
               FormValidation.successes := [];
               FormValidation.submissions := 0;
               FormValidation.defaultPrevented := 0 |} in
  let pending := [FormValidation.Input 0 "a"; FormValidation.Blur 0] in
  FormValidation.submitButton fm = Some b
  /\ Forall (fun e => FormValidation.submits e = false) pending
  /\ FormValidation.submitButton (FormValidation.submitForm false fm).2
     = Some b.
Proof.
  intros b fm pending.
  assert (H : FormValidation.submitButton fm = Some b) by reflexivity.
  assert (Hp : Forall (fun e => FormValidation.submits e = false) pending)
    by (repeat constructor).
  split; [exact H|]. split; [exact Hp|].
  exact (proj1 (proj1 (submit_control_restored false fm b pending H Hp))).
Defined.

Section FormFacts.
Import Regex FormValidation.
Implicit Types (f : field) (fm : form).

Lemma validateField_inputs f f' fm fm' :
  inputs f = inputs f' -> (validateField f fm).1 = (validateField f' fm').1.
Proof.
  intros [= Hv Ht Hr _ _]. unfold validateField. cbn zeta.
  rewrite Hv, Ht, Hr.
  repeat match goal with
         | |- context [if ?b then _ else _] =>
             match b with
             | andb _ _ => destruct b
             end
         end; reflexivity.
Qed.

Lemma fieldGroup_Some f fm (g : nat) :
  fieldGroup f fm = Some g <-> closest f = Some g /\ (g < length (groups fm))%nat.
Proof.
  unfold fieldGroup. destruct (closest f) as [k|]; [|split; [discriminate|intros [[=] _]]].
  destruct (decide _); split.
  - intros [= <-]. auto.
  - intros [[= <-] _]. reflexivity.
  - discriminate.
  - intros [[= <-] ?]. lia.
Qed.

Lemma fieldGroup_static f f' fm fm' :
  closest f = closest f' -> length (groups fm) = length (groups fm') ->
  fieldGroup f fm = fieldGroup f' fm'.
Proof. intros Hc Hl. unfold fieldGroup. rewrite Hc, Hl. reflexivity. Qed.

(** [validateField] touches the groups only, and only the group of the
    field, whose ['error'] class it sets to the negation of the result. *)
Lemma validateField_effect f fm :
  let r := validateField f fm in
  fields r.2 = fields fm
  /\ static r.2 = static fm
  /\ (forall k, fieldGroup f fm <> Some k -> groups r.2 !! k = groups fm !! k)
  /\ (forall k, fieldGroup f fm = Some k ->
                error <$> groups r.2 !! k = Some (negb r.1)).
Proof.
  cbn zeta.
  assert (Hclear :
    forall k, fieldGroup f fm = Some k ->
      error <$> groups (clearFieldError (Some k) fm) !! k = Some false).
  { intros k Hk. apply fieldGroup_Some in Hk as [_ Hk].
    destruct (lookup_lt_is_Some_2 _ _ Hk) as [grp Hgrp].
    cbn. rewrite list_lookup_alter_eq, Hgrp. reflexivity. }
  assert (Hshow :
    forall k msg, fieldGroup f fm = Some k ->
      error <$> groups (showFieldError (Some k) msg
                          (clearFieldError (Some k) fm)) !! k = Some true).
  { intros k msg Hk. apply fieldGroup_Some in Hk as [_ Hk].
    destruct (lookup_lt_is_Some_2 _ _ Hk) as [grp Hgrp].
    cbn. rewrite !list_lookup_alter_eq, Hgrp. reflexivity. }
  destruct (validateField_cases f fm) as [->|[msg ->]];
    destruct (fieldGroup f fm) as [g|] eqn:Hg; cbn [fst snd].
  - split_and!; [reflexivity| |intros k Hk|intros k [= <-]; apply Hclear; reflexivity].
    + unfold static. cbn. rewrite length_alter. reflexivity.
    + cbn. apply list_lookup_alter_ne. congruence.
  - split_and!; [reflexivity|reflexivity|reflexivity|discriminate].
  - split_and!; [reflexivity| |intros k Hk|intros k [= <-]; apply Hshow; reflexivity].
    + unfold static. cbn. rewrite !length_alter. reflexivity.
    + cbn. rewrite !list_lookup_alter_ne by congruence. reflexivity.
  - split_and!; [reflexivity|reflexivity|reflexivity|discriminate].
Qed.

Lemma inputs_record_validity (v : bool) f : inputs (record_validity v f) = inputs f.
Proof. reflexivity. Qed.

Lemma fmap_alter_same {B C} (h : B -> C) (g : B -> B) (i : nat) (l : list B) :
  (forall x, h (g x) = h x) -> h <$> alter g i l = h <$> l.
Proof.
  intros H. apply list_eq. intros j. rewrite !list_lookup_fmap.
  destruct (decide (i = j)) as [->|Hij].
  - rewrite list_lookup_alter_eq. destruct (l !! j); cbn; [rewrite H|]; reflexivity.
  - rewrite list_lookup_alter_ne by exact Hij. reflexivity.
Qed.

(** [validateField] on the field at position [i]. *)
Lemma validate_at_effect (i : nat) f fm :
  fields fm !! i = Some f ->
  let r := validate_at i fm in
  r.1 = (validateField f fm).1
  /\ fields r.2 = alter (record_validity r.1) i (fields fm)
  /\ static r.2 = static fm
  /\ (forall k, fieldGroup f fm <> Some k -> groups r.2 !! k = groups fm !! k)
  /\ (forall k, fieldGroup f fm = Some k ->
                error <$> groups r.2 !! k = Some (negb r.1)).
Proof.
  intros Hf. cbn zeta. unfold validate_at. rewrite Hf.
  destruct (validateField_effect f fm) as (H1 & H2 & H3 & H4).
  destruct (validateField f fm) as [ok fm'] eqn:E. cbn [fst snd] in *.
  split_and!; [reflexivity|rewrite H1; reflexivity| |exact H3|exact H4].
  unfold static in *. cbn [fields groups submitButton generalErrors successes
                            submissions defaultPrevented with_fields].
  rewrite (fmap_alter_same inputs) by apply inputs_record_validity.
  exact H2.
Qed.

Lemma validate_at_static (i : nat) fm : static (validate_at i fm).2 = static fm.
Proof.
  destruct (fields fm !! i) as [f|] eqn:Hf.
  - apply (validate_at_effect i f fm Hf).
  - unfold validate_at. rewrite Hf. reflexivity.
Qed.

Lemma static_lookup fm fm' (i : nat) f :
  static fm = static fm' -> fields fm !! i = Some f ->
  exists f', fields fm' !! i = Some f' /\ inputs f' = inputs f.
Proof.
  intros [= Hin _ _ _ _ _ _] Hf.
  assert (H : (inputs <$> fields fm') !! i = Some (inputs f))
    by (rewrite <- Hin, list_lookup_fmap, Hf; reflexivity).
  rewrite list_lookup_fmap in H.
  destruct (fields fm' !! i) as [f'|]; [|discriminate].
  exists f'. split; [reflexivity|]. cbn in H. congruence.
Qed.

(** The [forEach] of [validateForm], over any list of positions. *)
Lemma forEach_required fm0 (l : list nat) :
  forall (b : bool) fm,
    static fm = static fm0 ->
    let r := foldl validate_required (b, fm) l in
    static r.2 = static fm0
    /\ (r.1 = true <->
        b = true
        /\ forall i f, i ∈ l -> fields fm0 !! i = Some f -> required f = true ->
                       (validateField f fm0).1 = true).
Proof.
  induction l as [|i l IH]; intros b fm Hst; cbn [foldl].
  - split; [exact Hst|]. cbn. split; [intros ->; split; [reflexivity|]|tauto].
    intros i f Hi. apply elem_of_nil in Hi as [].
  - assert (Hstep :
      static (validate_required (b, fm) i).2 = static fm0
      /\ ((validate_required (b, fm) i).1 = true <->
          b = true /\ forall f, fields fm0 !! i = Some f -> required f = true ->
                                (validateField f fm0).1 = true)).
    { unfold validate_required.
      destruct (fields fm !! i) as [f|] eqn:Hf.
      - destruct (static_lookup fm fm0 i f Hst Hf) as (f0 & Hf0 & Hin).
        assert (Hr : required f0 = required f) by (injection Hin; auto).
        destruct (required f) eqn:Hreq.
        + destruct (validate_at_effect i f fm Hf) as (Hres & _ & Hs & _).
          destruct (validate_at i fm) as [ok fm'] eqn:E. cbn [fst snd] in *.
          split; [congruence|].
          rewrite (validateField_inputs f f0 fm fm0) in Hres by (symmetry; exact Hin).
          split.
          * intros Hb. destruct ok; cbn in Hb; [|discriminate].
            split; [exact Hb|]. intros f1 Hf1 _. congruence.
          * intros [-> Hall]. rewrite Hres, (Hall f0 Hf0 Hr). reflexivity.
        + cbn [fst snd]. split; [exact Hst|].
          split; [intros ->; split; [reflexivity|]|tauto].
          intros f1 Hf1 Hr1. congruence.
      - cbn [fst snd]. split; [exact Hst|].
        split; [intros ->; split; [reflexivity|]|tauto].
        intros f1 Hf1 _. exfalso.
        destruct (static_lookup fm0 fm i f1 (eq_sym Hst) Hf1) as (? & ? & _).
        congruence. }
    destruct Hstep as [Hs Hb].
    destruct (validate_required (b, fm) i) as [b1 fm1]. cbn [fst snd] in *.
    destruct (IH b1 fm1 Hs) as [IH1 IH2]. cbn zeta in *.
    split; [exact IH1|]. rewrite IH2, Hb. split.
    + intros [[-> Hi] Hl]. split; [reflexivity|].
      intros j f Hj. apply elem_of_cons in Hj as [->|Hj]; [apply Hi|apply Hl, Hj].
    + intros [-> Hall]. split; [split; [reflexivity|]|].
      * intros f Hf Hr. apply (Hall i f); [|exact Hf|exact Hr].
        apply elem_of_cons. left. reflexivity.
      * intros j f Hj. apply Hall. apply elem_of_cons. right. exact Hj.
Qed.

Lemma validateForm_spec fm :
  static (validateForm fm).2 = static fm
  /\ ((validateForm fm).1 = true <->
      forall i f, fields fm !! i = Some f -> required f = true ->
                  (validateField f fm).1 = true).
Proof.
  unfold validateForm.
  destruct (forEach_required fm (seq 0 (length (fields fm))) true fm eq_refl)
    as [H1 H2].
  split; [exact H1|]. cbn zeta in H2. rewrite H2. split.
  - intros [_ H] i f Hf. apply (H i f); [|exact Hf]. apply elem_of_seq.
    pose proof (lookup_lt_Some _ _ _ Hf). lia.
  - intros H. split; [reflexivity|]. intros i f _. apply H.
Qed.


Lemma static_values fm fm' :
  static fm = static fm' -> value <$> fields fm = value <$> fields fm'.
Proof.
  intros [= Hin _ _ _ _ _ _].
  apply (f_equal (fmap (fun x : string * string * bool * string * option nat =>
                          x.1.1.1.1))) in Hin.
  rewrite <- !list_fmap_compose in Hin. exact Hin.
Qed.

End FormFacts.

(** C6. When some required field fails validation, [handleSubmit] does
    not call [submitForm] (the number of submissions and the submit
    control are unchanged, no success banner is added), the first general
    error element holds the form-level message, no such element is added
    when one exists already (so there is exactly one unless the page held
    more before), the value of every field is unchanged, and the default
    action of the event has been prevented. *)
Theorem invalid_submit_is_rejected (resolves : bool)
    (fm : FormValidation.form) (i : nat) (f : FormValidation.field) :
  FormValidation.fields fm !! i = Some f ->
  FormValidation.required f = true ->
  (FormValidation.validateField f fm).1 = false ->
  let fm' := FormValidation.handleSubmit resolves fm in
  FormValidation.submissions fm' = FormValidation.submissions fm
  /\ FormValidation.submitButton fm' = FormValidation.submitButton fm
  /\ FormValidation.successes fm' = FormValidation.successes fm
  /\ head (FormValidation.generalErrors fm')
     = Some "Por favor, corrija os erros antes de enviar."
  /\ length (FormValidation.generalErrors fm')
     = Nat.max 1 (length (FormValidation.generalErrors fm))
  /\ FormValidation.value <$> FormValidation.fields fm'
     = FormValidation.value <$> FormValidation.fields fm
  /\ FormValidation.defaultPrevented fm'
     = S (FormValidation.defaultPrevented fm).
Proof.
  intros Hf Hr Hbad fm'. subst fm'. unfold FormValidation.handleSubmit.
  set (fm1 := FormValidation.preventDefault fm).
  destruct (validateForm_spec fm1) as [Hst Hvalid].
  destruct (FormValidation.validateForm fm1) as [isValid fm2].
  cbn [fst snd] in *.
  assert (isValid = false) as ->.
  { destruct isValid; [|reflexivity].
    pose proof (proj1 Hvalid eq_refl i f Hf Hr) as H.
    rewrite (validateField_result f fm1 fm) in H. congruence. }
  pose proof (static_values _ _ Hst) as Hvalues.
  injection Hst as _ _ Hb He Hs Hn Hd.
  cbn [FormValidation.showFormError FormValidation.submissions
       FormValidation.submitButton FormValidation.successes
       FormValidation.generalErrors FormValidation.fields
       FormValidation.defaultPrevented].
  rewrite Hn, Hb, Hs, He, Hd, Hvalues.
  split_and!; try reflexivity.
  - destruct (FormValidation.generalErrors fm); reflexivity.
  - cbn. destruct (FormValidation.generalErrors fm); reflexivity.
Qed.

(** A form whose only field is a required email field holding ["a@b"]. *)
Lemma invalid_submit_is_rejected_witness :
  let f := {| FormValidation.value := "a@b";
              FormValidation.type := "email";
              FormValidation.required := true;
              FormValidation.defaultValue := "";
              FormValidation.closest := Some 0%nat;
              FormValidation.validity := None |} in
  let fm := {| FormValidation.fields := [f];
               FormValidation.groups :=
                 [{| FormValidation.error := false;
                     FormValidation.formError := None |}];
               FormValidation.submitButton :=
                 Some {| FormValidation.disabled := false;
                         FormValidation.label := "Enviar" |};
               FormValidation.generalErrors := [];
               FormValidation.successes := [];
               FormValidation.submissions := 0;
               FormValidation.defaultPrevented := 0 |} in
  FormValidation.fields fm !! 0%nat = Some f
  /\ FormValidation.required f = true
  /\ (FormValidation.validateField f fm).1 = false
  /\ FormValidation.submissions (FormValidation.handleSubmit true fm)
     = FormValidation.submissions fm.
Proof.
  intros f fm.
  assert (H1 : FormValidation.fields fm !! 0%nat = Some f) by reflexivity.
  assert (H2 : FormValidation.required f = true) by reflexivity.
  assert (H3 : (FormValidation.validateField f fm).1 = false) by reflexivity.
  split; [exact H1|]. split; [exact H2|]. split; [exact H3|].
  exact (proj1 (invalid_submit_is_rejected true fm 0 f H1 H2 H3)).
Defined.

Section DisplayFacts.
Import Regex FormValidation.
Implicit Types (f : field) (fm : form).

Lemma shape_lookup fm fm' (i : nat) f :
  shape fm = shape fm' -> fields fm !! i = Some f ->
  exists f', fields fm' !! i = Some f'
             /\ closest f' = closest f /\ validity f' = validity f.
Proof.
  intros [= Hfs _] Hf.
  assert (H : ((fun f => (closest f, validity f)) <$> fields fm') !! i
              = Some (closest f, validity f))
    by (rewrite <- Hfs, list_lookup_fmap, Hf; reflexivity).
  rewrite list_lookup_fmap in H.
  destruct (fields fm' !! i) as [f'|]; [|discriminate].
  exists f'. cbn in H. split; [reflexivity|]. split; congruence.
Qed.

Lemma error_shown_shape f f' fm fm' :
  closest f = closest f' -> groups fm = groups fm' ->
  error_shown f fm = error_shown f' fm'.
Proof.
  intros Hc Hg. unfold error_shown.
  rewrite (fieldGroup_static f f' fm fm' Hc) by (rewrite Hg; reflexivity).
  rewrite Hg. reflexivity.
Qed.

(** The error display of a field is the ['error'] class of its group. *)
Lemma error_shown_group f f' fm fm' (k : nat) :
  fieldGroup f fm = Some k -> closest f' = closest f ->
  length (groups fm') = length (groups fm) ->
  error_shown f' fm' = error <$> groups fm' !! k.
Proof.
  intros Hk Hc Hl. unfold error_shown.
  rewrite (fieldGroup_static f' f fm' fm Hc Hl), Hk. reflexivity.
Qed.

Lemma closest_lookup fm fm' (i : nat) f :
  closest <$> fields fm = closest <$> fields fm' ->
  fields fm !! i = Some f ->
  exists f', fields fm' !! i = Some f' /\ closest f' = closest f.
Proof.
  intros Hc Hf.
  assert (H : (closest <$> fields fm') !! i = Some (closest f))
    by (rewrite <- Hc, list_lookup_fmap, Hf; reflexivity).
  rewrite list_lookup_fmap in H.
  destruct (fields fm' !! i) as [f'|]; [|discriminate].
  exists f'. cbn in H. split; congruence.
Qed.

Lemma distinct_groups_ext fm fm' :
  closest <$> fields fm = closest <$> fields fm' ->
  length (groups fm) = length (groups fm') ->
  distinct_groups fm -> distinct_groups fm'.
Proof.
  intros Hc Hl Hd i j f1 f2 g H1 H2 G1 G2.
  destruct (closest_lookup fm' fm i f1 (eq_sym Hc) H1) as (a & Ha & Hca).
  destruct (closest_lookup fm' fm j f2 (eq_sym Hc) H2) as (b & Hb & Hcb).
  apply (Hd i j a b g Ha Hb).
  - rewrite <- G1. apply fieldGroup_static; assumption.
  - rewrite <- G2. apply fieldGroup_static; assumption.
Qed.

Lemma static_closest fm fm' :
  static fm = static fm' ->
  closest <$> fields fm = closest <$> fields fm'
  /\ length (groups fm) = length (groups fm').
Proof.
  intros [= Hin Hl _ _ _ _ _]. split; [|exact Hl].
  apply (f_equal (fmap (fun x : string * string * bool * string * option nat =>
                          x.2))) in Hin.
  rewrite <- !list_fmap_compose in Hin. exact Hin.
Qed.

Lemma distinct_groups_static fm fm' :
  static fm = static fm' -> distinct_groups fm -> distinct_groups fm'.
Proof.
  intros Hst. destruct (static_closest fm fm' Hst) as [Hc Hl].
  apply distinct_groups_ext; assumption.
Qed.

Lemma shape_submitForm (resolves : bool) fm :
  shape (submitForm resolves fm).2 = shape fm.
Proof.
  destruct fm as [fs gs [sb|] ge su n d]; destruct resolves; try reflexivity.
  set (fm := {| fields := fs; groups := gs; submitButton := Some sb;
                generalErrors := ge; successes := su; submissions := n;
                defaultPrevented := d |}).
  assert (E : fields (submitForm true fm).2 = fields (reset fm))
    by reflexivity.
  assert (G : groups (submitForm true fm).2 = gs) by reflexivity.
  unfold shape. rewrite E, G. unfold reset, with_fields. cbn [fields].
  rewrite <- list_fmap_compose. reflexivity.
Qed.

(** After [blur], the field carries the result and its group shows the
    error exactly when the result is "invalid". *)
Lemma blur_display (i : nat) f fm :
  fields fm !! i = Some f ->
  let v := (validateField f fm).1 in
  let fm' := step fm (Blur i) in
  fields fm' !! i = Some (record_validity v f)
  /\ forall k, fieldGroup f fm = Some k ->
               error_shown (record_validity v f) fm' = Some (negb v).
Proof.
  intros Hf. cbn zeta. cbn [step].
  destruct (validate_at_effect i f fm Hf) as (Hres & Hfs & Hst & _ & Hown).
  cbn zeta in *. rewrite <- Hres. split.
  - rewrite Hfs, list_lookup_alter_eq, Hf. reflexivity.
  - intros k Hk. unfold error_shown.
    rewrite (fieldGroup_static (record_validity (validate_at i fm).1 f) f
               (validate_at i fm).2 fm eq_refl) by (injection Hst; auto).
    rewrite Hk. cbn. apply Hown, Hk.
Qed.

(** After [input], the field holds the new text, its validity is the one
    of the last validation, and its group shows no error. *)
Lemma input_display (i : nat) (text : string) f fm :
  fields fm !! i = Some f ->
  let fm' := step fm (Input i text) in
  exists f',
    fields fm' !! i = Some f'
    /\ value f' = text
    /\ closest f' = closest f
    /\ validity f' = validity f
    /\ forall k, fieldGroup f fm = Some k -> error_shown f' fm' = Some false.
Proof.
  intros Hf. cbn zeta. cbn [step].
  set (f1 := {| value := text; type := type f; required := required f;
                defaultValue := defaultValue f; closest := closest f;
                validity := validity f |}).
  assert (H1 : fields (typed i text fm) !! i = Some f1).
  { unfold typed. cbn. rewrite list_lookup_alter_eq, Hf. reflexivity. }
  rewrite H1. exists f1.
  assert (Hg : fieldGroup f1 (typed i text fm) = fieldGroup f fm) by reflexivity.
  unfold clearError. rewrite Hg.
  destruct (fieldGroup f fm) as [k|] eqn:Hk.
  - split_and!; [exact H1|reflexivity|reflexivity|reflexivity|].
    intros k' [= <-]. unfold error_shown.
    apply fieldGroup_Some in Hk as Hk'. destruct Hk' as [Hc Hlt].
    destruct (lookup_lt_is_Some_2 _ _ Hlt) as [grp Hgrp].
    assert (Hg' : fieldGroup f1 (clearFieldError (Some k) (typed i text fm))
                  = Some k).
    { apply fieldGroup_Some. split; [exact Hc|]. cbn. rewrite length_alter. exact Hlt. }
    rewrite Hg'. cbn. rewrite list_lookup_alter_eq, Hgrp. reflexivity.
  - split_and!; [exact H1|reflexivity|reflexivity|reflexivity|discriminate].
Qed.

(** Validating another field leaves a field and its group alone, when no
    group is shared. *)
Lemma validate_at_elsewhere (j i : nat) f fm (k : nat) :
  distinct_groups fm -> fields fm !! i = Some f -> fieldGroup f fm = Some k ->
  j <> i ->
  fields (validate_at j fm).2 !! i = Some f
  /\ groups (validate_at j fm).2 !! k = groups fm !! k.
Proof.
  intros Hd Hf Hk Hji.
  destruct (fields fm !! j) as [fj|] eqn:Hj;
    [|unfold validate_at; rewrite Hj; auto].
  destruct (validate_at_effect j fj fm Hj) as (_ & Hfs & _ & Hother & _).
  split.
  - rewrite Hfs, list_lookup_alter_ne by exact Hji. exact Hf.
  - apply Hother. intros Hkj. apply Hji. exact (Hd j i fj f k Hj Hf Hkj Hk).
Qed.

(** The [input] listener of another field leaves a field and its group
    alone, when no group is shared. *)
Lemma input_elsewhere (j i : nat) (text : string) f fm (k : nat) :
  distinct_groups fm -> fields fm !! i = Some f -> fieldGroup f fm = Some k ->
  j <> i ->
  fields (step fm (Input j text)) !! i = Some f
  /\ groups (step fm (Input j text)) !! k = groups fm !! k.
Proof.
  intros Hd Hf Hk Hji. cbn [step].
  assert (Hi : fields (typed j text fm) !! i = Some f).
  { unfold typed. cbn. rewrite list_lookup_alter_ne by exact Hji. exact Hf. }
  destruct (fields fm !! j) as [fj|] eqn:Hj.
  - assert (H1 : fields (typed j text fm) !! j
                 = Some {| value := text; type := type fj;
                           required := required fj;
                           defaultValue := defaultValue fj;
                           closest := closest fj; validity := validity fj |}).
    { unfold typed. cbn. rewrite list_lookup_alter_eq, Hj. reflexivity. }
    rewrite H1. unfold clearError.
    match goal with |- context [fieldGroup ?a ?b] =>
      change (fieldGroup a b) with (fieldGroup fj fm) end.
    destruct (fieldGroup fj fm) as [kj|] eqn:Hkj; [|auto].
    split; [exact Hi|]. cbn. apply list_lookup_alter_ne.
    intros ->. apply Hji. exact (Hd j i fj f k Hj Hf Hkj Hk).
  - assert (H1 : fields (typed j text fm) !! j = None).
    { unfold typed. cbn. rewrite list_lookup_alter_eq, Hj. reflexivity. }
    rewrite H1. auto.
Qed.

(** What one step of the [forEach] of [validateForm] does to the field at
    position [i]. *)
Lemma validate_required_effect (b : bool) fm (j i : nat) f (k : nat) :
  distinct_groups fm -> fields fm !! i = Some f -> fieldGroup f fm = Some k ->
  let r := validate_required (b, fm) j in
  let v := (validateField f fm).1 in
  static r.2 = static fm
  /\ exists f1,
       fields r.2 !! i = Some f1 /\ inputs f1 = inputs f
       /\ if bool_decide (j = i) && required f
          then validity f1 = Some v
               /\ error <$> groups r.2 !! k = Some (negb v)
          else f1 = f /\ groups r.2 !! k = groups fm !! k.
Proof.
  intros Hd Hf Hk. cbn zeta. unfold validate_required.
  destruct (fields fm !! j) as [fj|] eqn:Hj.
  - destruct (required fj) eqn:Hr.
    + destruct (decide (j = i)) as [->|Hji].
      * assert (fj = f) as -> by congruence.
        rewrite bool_decide_eq_true_2, Hr by reflexivity. cbn [andb].
        destruct (validate_at_effect i f fm Hf) as (Hres & Hfs & Hst & _ & Hown).
        destruct (validate_at i fm) as [ok fm']. cbn [fst snd] in *.
        split; [exact Hst|]. exists (record_validity ok f).
        rewrite Hfs, list_lookup_alter_eq, Hf. subst ok.
        split_and!; [reflexivity|reflexivity|reflexivity|apply Hown, Hk].
      * rewrite bool_decide_eq_false_2 by exact Hji. cbn [andb].
        pose proof (validate_at_static j fm) as Hst.
        destruct (validate_at_elsewhere j i f fm k Hd Hf Hk Hji) as [H1 H2].
        destruct (validate_at j fm) as [ok fm']. cbn [fst snd] in *.
        split; [exact Hst|]. exists f. cbn [andb]. auto.
    + split; [reflexivity|]. exists f. split; [exact Hf|]. split; [reflexivity|].
      destruct (decide (j = i)) as [->|Hji].
      * assert (fj = f) as -> by congruence.
        rewrite Hr, andb_false_r. split; reflexivity.
      * rewrite bool_decide_eq_false_2 by exact Hji. split; reflexivity.
  - split; [reflexivity|]. exists f. split; [exact Hf|]. split; [reflexivity|].
    rewrite bool_decide_eq_false_2 by congruence. split; reflexivity.
Qed.

(** What the [forEach] of [validateForm], over any list of positions,
    does to the field at position [i]. *)
Lemma forEach_required_effect (i k : nat) (l : list nat) :
  forall (b : bool) fm f,
    distinct_groups fm -> fields fm !! i = Some f ->
    fieldGroup f fm = Some k ->
    let r := foldl validate_required (b, fm) l in
    let v := (validateField f fm).1 in
    static r.2 = static fm
    /\ exists f',
         fields r.2 !! i = Some f' /\ inputs f' = inputs f
         /\ if bool_decide (i ∈ l) && required f
            then validity f' = Some v
                 /\ error <$> groups r.2 !! k = Some (negb v)
            else validity f' = validity f
                 /\ error <$> groups r.2 !! k = error <$> groups fm !! k.
Proof.
  induction l as [|j l IH]; intros b fm f Hd Hf Hk; cbn [foldl].
  { cbn zeta. split; [reflexivity|]. exists f.
    rewrite bool_decide_eq_false_2 by apply not_elem_of_nil.
    split; [exact Hf|]. split; [reflexivity|]. split; reflexivity. }
  destruct (validate_required_effect b fm j i f k Hd Hf Hk)
    as (Hst & f1 & Hf1 & Hin & Hstep).
  destruct (validate_required (b, fm) j) as [b1 fm1]. cbn [fst snd] in *.
  destruct (static_closest fm1 fm Hst) as [_ Hlen].
  assert (Hk1 : fieldGroup f1 fm1 = Some k).
  { rewrite <- Hk. apply fieldGroup_static; [|exact Hlen].
    injection Hin; auto. }
  destruct (IH b1 fm1 f1 (distinct_groups_static fm fm1 (eq_sym Hst) Hd)
              Hf1 Hk1) as (Hst' & f' & Hf' & Hin' & Hrest).
  cbn zeta in *.
  split; [congruence|]. exists f'. split; [exact Hf'|].
  split; [congruence|].
  assert (Hr : required f1 = required f) by (injection Hin; auto).
  rewrite (validateField_inputs f1 f fm1 fm Hin), Hr in Hrest.
  destruct (required f) eqn:Hreq; rewrite ?andb_true_r, ?andb_false_r in *.
  - destruct (decide (i ∈ l)) as [Hl|Hl].
    + rewrite bool_decide_eq_true_2 in Hrest by exact Hl.
      rewrite bool_decide_eq_true_2 by (apply elem_of_cons; auto).
      exact Hrest.
    + rewrite bool_decide_eq_false_2 in Hrest by exact Hl.
      destruct Hrest as [Hv He].
      destruct (decide (j = i)) as [->|Hji].
      * rewrite bool_decide_eq_true_2 in Hstep by reflexivity.
        rewrite bool_decide_eq_true_2 by (apply elem_of_cons; auto).
        destruct Hstep as [Hv1 He1]. split; congruence.
      * rewrite bool_decide_eq_false_2 in Hstep by exact Hji.
        rewrite bool_decide_eq_false_2
          by (intros [->|H]%elem_of_cons; [apply Hji; reflexivity|exact (Hl H)]).
        destruct Hstep as [-> Hg]. split; [exact Hv|]. rewrite He, Hg.
        reflexivity.
  - destruct Hstep as [-> Hg], Hrest as [Hv He].
    split; [exact Hv|]. rewrite He, Hg. reflexivity.
Qed.

(** After [submit], a required field carries the result of its
    validation and its group shows the error exactly when that result is
    "invalid"; a field that is not required is as before. *)
Lemma submit_display (resolves : bool) fm (i : nat) f (k : nat) :
  distinct_groups fm -> fields fm !! i = Some f -> fieldGroup f fm = Some k ->
  let fm' := handleSubmit resolves fm in
  let v := (validateField f fm).1 in
  exists f',
    fields fm' !! i = Some f' /\ closest f' = closest f
    /\ if required f
       then validity f' = Some v /\ error_shown f' fm' = Some (negb v)
       else validity f' = validity f /\ error_shown f' fm' = error_shown f fm.
Proof.
  intros Hd Hf Hk. cbn zeta. unfold handleSubmit, validateForm.
  set (fm1 := preventDefault fm).
  destruct (forEach_required_effect i k (seq 0 (length (fields fm1))) true
              fm1 f)
    as (Hst & f2 & Hf2 & Hin & Heff).
  { apply (distinct_groups_ext fm); [reflexivity|reflexivity|exact Hd]. }
  { exact Hf. }
  { exact Hk. }
  cbn zeta in Heff.
  rewrite bool_decide_eq_true_2 in Heff
    by (apply elem_of_seq; pose proof (lookup_lt_Some _ _ _ Hf); cbn; lia).
  cbn [andb] in Heff.
  rewrite (validateField_result f fm1 fm) in Heff.
  destruct (foldl _ _ _) as [isValid fm2]. cbn [fst snd] in *.
  destruct (static_closest fm2 fm1 Hst) as [_ Hlen].
  assert (Hc2 : closest f2 = closest f) by (injection Hin; auto).
  assert (Hsh : forall fm3, shape fm3 = shape fm2 ->
            exists f',
              fields fm3 !! i = Some f' /\ closest f' = closest f
              /\ if required f
                 then validity f' = Some (validateField f fm).1
                      /\ error_shown f' fm3
                         = Some (negb (validateField f fm).1)
                 else validity f' = validity f
                      /\ error_shown f' fm3 = error_shown f fm).
  { intros fm3 Hsh.
    destruct (shape_lookup fm2 fm3 i f2 (eq_sym Hsh) Hf2)
      as (f' & Hf' & Hc & Hv).
    assert (Hg : groups fm3 = groups fm2) by (injection Hsh; auto).
    exists f'. split; [exact Hf'|]. split; [congruence|].
    assert (Hshown : error_shown f' fm3 = error <$> groups fm2 !! k).
    { rewrite <- Hg. apply (error_shown_group f f' fm fm3 k Hk);
        [congruence|]. rewrite Hg. exact Hlen. }
    rewrite Hshown, Hv.
    destruct (required f); destruct Heff as [H1 H2]; (split; [exact H1|]).
    - exact H2.
    - rewrite H2. symmetry.
      apply (error_shown_group f f fm fm k Hk); reflexivity. }
  destruct isValid; apply Hsh; [apply shape_submitForm|reflexivity].
Qed.

(** No event moves a field to another group or changes the number of
    groups. *)
Lemma step_frame fm (e : event) :
  closest <$> fields (step fm e) = closest <$> fields fm
  /\ length (groups (step fm e)) = length (groups fm).
Proof.
  destruct e as [i|i text|resolves]; cbn [step].
  - apply static_closest, validate_at_static.
  - assert (Hc : closest <$> fields (typed i text fm) = closest <$> fields fm).
    { unfold typed. cbn [fields with_fields].
      apply fmap_alter_same. reflexivity. }
    destruct (fields (typed i text fm) !! i) as [f|]; [|auto].
    unfold clearError. destruct (fieldGroup f _) as [k|]; [|auto].
    split; [exact Hc|]. cbn. apply length_alter.
  - unfold handleSubmit.
    destruct (validateForm_spec (preventDefault fm)) as [Hst _].
    destruct (validateForm (preventDefault fm)) as [isValid fm2].
    cbn [snd] in Hst. destruct (static_closest _ _ Hst) as [Hc Hl].
    cbn in Hc, Hl. destruct isValid.
    + pose proof (shape_submitForm resolves fm2) as [= Hfs Hg].
      rewrite Hg. split; [|exact Hl]. rewrite <- Hc.
      apply (f_equal (fmap (fun x : option nat * option bool => x.1))) in Hfs.
      rewrite <- !list_fmap_compose in Hfs. exact Hfs.
    + auto.
Qed.

Lemma step_distinct_groups fm (e : event) :
  distinct_groups fm -> distinct_groups (step fm e).
Proof.
  destruct (step_frame fm e) as [Hc Hl].
  apply distinct_groups_ext; symmetry; assumption.
Qed.

(** What one event does to a field standing in a group of its own. *)
Lemma step_field fm (e : event) (i : nat) f (k : nat) :
  distinct_groups fm -> fields fm !! i = Some f -> fieldGroup f fm = Some k ->
  let v := (validateField f fm).1 in
  let fm' := step fm e in
  exists f',
    fields fm' !! i = Some f'
    /\ match effect_on e i f with
       | Validated =>
           validity f' = Some v /\ error_shown f' fm' = Some (negb v)
       | Cleared =>
           validity f' = validity f /\ error_shown f' fm' = Some false
       | Untouched =>
           validity f' = validity f /\ error_shown f' fm' = error_shown f fm
       end.
Proof.
  intros Hd Hf Hk. cbn zeta.
  destruct (step_frame fm e) as [_ Hlen].
  assert (Hsame : forall fm', length (groups fm') = length (groups fm) ->
            groups fm' !! k = groups fm !! k ->
            error_shown f fm' = error_shown f fm).
  { intros fm' Hl Hg.
    rewrite (error_shown_group f f fm fm' k Hk eq_refl Hl), Hg.
    symmetry. apply (error_shown_group f f fm fm k Hk); reflexivity. }
  destruct e as [j|j text|resolves]; cbn [effect_on].
  - destruct (decide (j = i)) as [->|Hji].
    + destruct (blur_display i f fm Hf) as [H1 H2]. cbn zeta in *.
      eexists. split; [exact H1|]. split; [reflexivity|]. apply (H2 k Hk).
    + destruct (validate_at_elsewhere j i f fm k Hd Hf Hk Hji) as [H1 H2].
      exists f. split; [exact H1|]. split; [reflexivity|].
      apply Hsame; [exact Hlen|exact H2].
  - destruct (decide (j = i)) as [->|Hji].
    + destruct (input_display i text f fm Hf) as (f' & H1 & _ & _ & H2 & H3).
      exists f'. split; [exact H1|]. split; [exact H2|]. apply (H3 k Hk).
    + destruct (input_elsewhere j i text f fm k Hd Hf Hk Hji) as [H1 H2].
      exists f. split; [exact H1|]. split; [reflexivity|].
      apply Hsame; [exact Hlen|exact H2].
  - destruct (submit_display resolves fm i f k Hd Hf Hk) as (f' & H1 & _ & H2).
    exists f'. split; [exact H1|]. cbn [step].
    destruct (required f); exact H2.
Qed.

Lemma step_shown_only_if_invalid fm (e : event) :
  distinct_groups fm -> shown_only_if_invalid fm ->
  shown_only_if_invalid (step fm e).
Proof.
  intros Hd Hinv i f' Hf' Hshown.
  destruct (step_frame fm e) as [Hc Hl].
  destruct (closest_lookup (step fm e) fm i f' Hc Hf') as (f & Hf & Hcf).
  assert (Hk : exists k, fieldGroup f fm = Some k).
  { rewrite (fieldGroup_static f f' fm (step fm e) Hcf (eq_sym Hl)).
    unfold error_shown in Hshown.
    destruct (fieldGroup f' (step fm e)) as [k|]; [eauto|discriminate]. }
  destruct Hk as [k Hk].
  destruct (step_field fm e i f k Hd Hf Hk) as (f'' & Hf'' & Heff).
  cbn zeta in *. rewrite Hf' in Hf''. injection Hf'' as <-.
  destruct (effect_on e i f); destruct Heff as [Hv Hs]; rewrite Hs in Hshown.
  - rewrite Hv. destruct (validateField f fm).1; [discriminate|reflexivity].
  - discriminate.
  - rewrite Hv. exact (Hinv i f Hf Hshown).
Qed.

Lemma run_shown_only_if_invalid (events : list event) :
  forall fm,
    distinct_groups fm -> shown_only_if_invalid fm ->
    shown_only_if_invalid (run fm events).
Proof.
  induction events as [|e events IH]; intros fm Hd Hinv; [exact Hinv|].
  apply IH; [apply step_distinct_groups, Hd|].
  apply step_shown_only_if_invalid; assumption.
Qed.

End DisplayFacts.

(** C4, as the code has it. Take a form where no two fields share a
    [.form-group], and a field of it inside a group. An event that
    validates the field (its [blur], or [submit] when the field is
    [[required]]) leaves the field with the validity just computed and
    its error on display exactly when that validity is "invalid". The
    [input] event of the field leaves its last validity as it was and
    its error hidden, whatever that validity is. Every other event
    ([blur] or [input] of another field, [submit] for a field that is not
    required) leaves both the last validity and the error display of the
    field as they were. Hence, after any sequence of events, an error is
    on display only for a field whose last validation failed, provided
    this held of the page at the start. *)
Theorem error_display_follows_validation (fm : FormValidation.form) :
  FormValidation.distinct_groups fm ->
  (forall (e : FormValidation.event) (i : nat) (f : FormValidation.field)
          (k : nat),
      FormValidation.fields fm !! i = Some f ->
      FormValidation.fieldGroup f fm = Some k ->
      let v := (FormValidation.validateField f fm).1 in
      let fm' := FormValidation.step fm e in
      exists f',
        FormValidation.fields fm' !! i = Some f'
        /\ match FormValidation.effect_on e i f with
           | FormValidation.Validated =>
               FormValidation.validity f' = Some v
               /\ FormValidation.error_shown f' fm' = Some (negb v)
           | FormValidation.Cleared =>
               FormValidation.validity f' = FormValidation.validity f
               /\ FormValidation.error_shown f' fm' = Some false
           | FormValidation.Untouched =>
               FormValidation.validity f' = FormValidation.validity f
               /\ FormValidation.error_shown f' fm'
                  = FormValidation.error_shown f fm
           end)
  /\ (forall events : list FormValidation.event,
         FormValidation.shown_only_if_invalid fm ->
         FormValidation.shown_only_if_invalid (FormValidation.run fm events)).
Proof.
  intros Hd. split.
  - intros e i f k Hf Hk. exact (step_field fm e i f k Hd Hf Hk).
  - intros events Hinv. exact (run_shown_only_if_invalid events fm Hd Hinv).
Qed.

(** A form with one required empty field, left by the user: the field is
    recorded invalid and its error is shown. *)
Lemma error_display_follows_validation_witness :
  let f := {| FormValidation.value := "";
              FormValidation.type := "text";
              FormValidation.required := true;
              FormValidation.defaultValue := "";
              FormValidation.closest := Some 0%nat;
              FormValidation.validity := None |} in
  let fm := {| FormValidation.fields := [f];
               FormValidation.groups :=
                 [{| FormValidation.error := false;
                     FormValidation.formError :=
                       Some {| FormValidation.message := "";
                               FormValidation.display := "none" |} |}];
               FormValidation.submitButton := None;
               FormValidation.generalErrors := [];
               FormValidation.successes := [];
               FormValidation.submissions := 0;
               FormValidation.defaultPrevented := 0 |} in
  let fm' := FormValidation.step fm (FormValidation.Blur 0) in
  FormValidation.distinct_groups fm
  /\ exists f',
       FormValidation.fields fm' !! 0%nat = Some f'
       /\ FormValidation.validity f' = Some false
       /\ FormValidation.error_shown f' fm' = Some true.
Proof.
  intros f fm fm'.
  assert (Hd : FormValidation.distinct_groups fm).
  { intros [|i] [|j] f1 f2 g H1 H2 _ _; cbn in H1, H2;
      try reflexivity; discriminate. }
  split; [exact Hd|].
  exact (proj1 (error_display_follows_validation fm Hd)
           (FormValidation.Blur 0) 0%nat f 0%nat eq_refl eq_refl).
Defined.

(** C4, as the spec states it, fails after an [input] event: a required
    empty field is left ([blur]: invalid, error shown), then a character
    is typed ([input]: the error is cleared, nothing is validated); the
    last computed validity is "invalid" and no error is on display. *)
Lemma error_display_after_input_counterexample :
  let f := {| FormValidation.value := "";
              FormValidation.type := "text";
              FormValidation.required := true;
              FormValidation.defaultValue := "";
              FormValidation.closest := Some 0%nat;
              FormValidation.validity := None |} in
  let fm := {| FormValidation.fields := [f];
               FormValidation.groups :=
                 [{| FormValidation.error := false;
                     FormValidation.formError :=
                       Some {| FormValidation.message := "";
                               FormValidation.display := "none" |} |}];
               FormValidation.submitButton := None;
               FormValidation.generalErrors := [];
               FormValidation.successes := [];
               FormValidation.submissions := 0;
               FormValidation.defaultPrevented := 0 |} in
  let fm' := FormValidation.run fm
               [FormValidation.Blur 0; FormValidation.Input 0 "a"] in
  (exists f', FormValidation.fields fm' !! 0%nat = Some f'
              /\ FormValidation.validity f' = Some false
              /\ FormValidation.error_shown f' fm' = Some false)
  /\ ~ FormValidation.display_follows_validity fm'.
Proof.
  intros f fm fm'.
  assert (H : exists f', FormValidation.fields fm' !! 0%nat = Some f'
                         /\ FormValidation.validity f' = Some false
                         /\ FormValidation.error_shown f' fm' = Some false).
  { eexists. split; [reflexivity|]. split; reflexivity. }
  split; [exact H|].
  destruct H as (f' & H1 & H2 & H3). intros Hinv.
  specialize (Hinv 0%nat f' false false H1 H2 H3). discriminate Hinv.
Qed.

(** * Properties of the rest of the script *)

(** ** [debounce] and [throttle] on any sequence of invocations *)

Section DebounceLaws.
Import Timing.
Context {A : Type}.
Implicit Types (events : list (Debounced.event A)) (s : debounced A).

(** The executions a pending timer and the events to come add. *)
Lemma debounce_from (wait : Z) events :
  forall s,
    d_executed (foldl (Debounced.step wait) s events)
    = d_executed s
      ++ match timeout s with
         | Some tm =>
             match Debounced.fires (due tm) events with
             | Some now => [(now, captured tm)]
             | None => []
             end
         | None => []
         end
      ++ Debounced.executions wait events.
Proof.
  induction events as [|[t a|now] events IH]; intros s; cbn [foldl].
  - cbn. destruct (timeout s); rewrite app_nil_r; reflexivity.
  - rewrite IH. cbn [Debounced.step executedFunction timeout d_executed
                     setTimeout due captured Debounced.fires
                     Debounced.executions].
    destruct (timeout s); cbn [app];
      destruct (Debounced.fires (t + Z.max 0 wait) events); reflexivity.
  - rewrite IH. cbn [Debounced.step Debounced.fires Debounced.executions].
    unfold Debounced.later_at.
    destruct (timeout s) as [tm|] eqn:E; [|rewrite E; reflexivity].
    destruct (due tm <=? now); [|rewrite E; reflexivity].
    cbn [timeout d_executed app]. rewrite <- app_assoc. reflexivity.
Qed.

Lemma fires_due (d : Z) events (now : Z) :
  Debounced.fires d events = Some now -> d <= now.
Proof.
  induction events as [|[t a|t] events IH]; cbn; [discriminate..|].
  destruct (d <=? t) eqn:E; [|exact IH].
  intros [= <-]. lia.
Qed.

(** The executions are those of a subsequence of the invocations. *)
Lemma executions_kept (wait : Z) events :
  exists kept,
    kept `sublist_of` Debounced.invocations events
    /\ Forall2 (Debounced.executes wait) kept
               (Debounced.executions wait events).
Proof.
  induction events as [|[t a|t] events (kept & Hsub & Hall)].
  - exists []. split; constructor.
  - cbn [Debounced.executions].
    change (Debounced.invocations (Debounced.Invoke t a :: events))
      with ((t, a) :: Debounced.invocations events).
    destruct (Debounced.fires (t + Z.max 0 wait) events) as [now|] eqn:E.
    + exists ((t, a) :: kept). split; [apply sublist_skip, Hsub|].
      constructor; [|exact Hall]. split; [reflexivity|].
      apply fires_due in E. exact E.
    + exists kept. split; [apply sublist_cons, Hsub|exact Hall].
  - exists kept. split; [exact Hsub|exact Hall].
Qed.

(** A pending timer is the one of the last invocation. *)
Lemma debounce_pending (wait : Z) events :
  forall tm,
    timeout (Debounced.run wait events) = Some tm ->
    exists t a,
      last (Debounced.invocations events) = Some (t, a)
      /\ tm = setTimeout t wait a.
Proof.
  induction events as [|e events IH] using rev_ind; intros tm.
  - discriminate.
  - unfold Debounced.run, Debounced.invocations.
    rewrite foldl_app, omap_app. cbn [foldl omap].
    destruct e as [t a|now]; cbn [Debounced.step Debounced.invocation].
    + intros [= <-]. exists t, a. split; [apply last_snoc|reflexivity].
    + rewrite app_nil_r. unfold Debounced.later_at.
      change (foldl (Debounced.step wait) debounce events)
        with (Debounced.run wait events).
      destruct (timeout (Debounced.run wait events)) as [tm0|] eqn:E;
        [|rewrite E; discriminate].
      destruct (due tm0 <=? now); [discriminate|].
      rewrite E. intros [= <-]. apply IH. reflexivity.
Qed.

End DebounceLaws.

Section TimingLaws.
Import Timing.
Context {A : Type}.

Lemma accounted_more (made : list (Z * A)) (c : Z * A) (s : throttled A) :
  Throttled.accounted made s ->
  (length (t_executed s)
   + match timeoutId s with Some _ => 1 | None => 0 end
   <= length made)%nat
  /\ Forall (fun e => exists c', c' ∈ made ++ [c] /\ c'.2 = e.2 /\ c'.1 <= e.1)
            (t_executed s)
  /\ (forall tm, timeoutId s = Some tm ->
        exists c', c' ∈ made ++ [c] /\ c'.2 = captured tm /\ c'.1 <= due tm).
Proof.
  intros (Hn & Hlog & Htm). split; [exact Hn|]. split.
  - eapply Forall_impl; [exact Hlog|].
    intros e (c' & Hc' & H1 & H2). exists c'.
    split; [apply elem_of_app; left; exact Hc'|auto].
  - intros tm Hsome. destruct (Htm tm Hsome) as (c' & Hc' & H1 & H2).
    exists c'. split; [apply elem_of_app; left; exact Hc'|auto].
Qed.

Lemma accounted_trailing (made : list (Z * A)) (s : throttled A) :
  Throttled.accounted made s -> Throttled.accounted made (trailing s).
Proof.
  intros H. pose proof H as (Hn & Hlog & Htm). unfold trailing.
  destruct (timeoutId s) as [tm|] eqn:E; [|exact H].
  split_and!; cbn [t_executed timeoutId].
  - rewrite length_app. cbn. lia.
  - apply Forall_app. split; [exact Hlog|].
    constructor; [|constructor]. exact (Htm tm eq_refl).
  - discriminate.
Qed.

Lemma accounted_tick (made : list (Z * A)) (now : Z) (s : throttled A) :
  Throttled.accounted made s -> Throttled.accounted made (t_tick now s).
Proof.
  intros H. unfold t_tick. destruct (timeoutId s) as [tm|] eqn:E; [|exact H].
  destruct (due tm <=? now); [|exact H].
  apply accounted_trailing, H.
Qed.

Lemma accounted_call (made : list (Z * A)) (delay now : Z) (a : A)
    (s : throttled A) :
  Throttled.accounted made s ->
  Throttled.accounted (made ++ [(now, a)]) (throttled_call delay now a s).
Proof.
  intros H. destruct (accounted_more made (now, a) s H) as (Hn & Hlog & Htm).
  assert (Hin : (now, a) ∈ made ++ [(now, a)]).
  { apply elem_of_app. right. apply list_elem_of_singleton. reflexivity. }
  unfold throttled_call.
  destruct (delay <? now - lastExecTime s); split_and!;
    cbn [t_executed timeoutId]; rewrite ?length_app; cbn [length].
  - lia.
  - apply Forall_app. split; [exact Hlog|].
    constructor; [|constructor]. exists (now, a). cbn. split_and!; [exact Hin|reflexivity|lia].
  - exact Htm.
  - destruct (timeoutId s); lia.
  - exact Hlog.
  - intros tm [= <-]. exists (now, a). unfold setTimeout. cbn.
    split_and!; [exact Hin|reflexivity|lia].
Qed.

Lemma t_run_accounted (delay : Z) (calls : list (Z * A)) :
  forall made s,
    Throttled.accounted made s ->
    Throttled.accounted (made ++ calls) (t_run delay calls s).
Proof.
  induction calls as [|[t a] calls IH]; intros made s H; cbn [t_run].
  - rewrite app_nil_r. apply accounted_trailing, H.
  - replace (made ++ (t, a) :: calls) with ((made ++ [(t, a)]) ++ calls)
      by (rewrite <- app_assoc; reflexivity).
    apply IH, accounted_call, accounted_tick, H.
Qed.

End TimingLaws.

(** X1. [debounce] on any interleaving of invocations and looks of the
    event loop at the timers, where a timer may run late and an
    invocation clears the timer of the invocation before it, due or
    not. The action is executed exactly for the invocations whose timer
    is looked at, [wait] or more after the invocation (a negative wait
    counts as zero), before the wrapper is invoked again; so the
    executions are those of a subsequence of the invocations, each with
    the arguments of its invocation and at least [wait] after it, and a
    timer still pending is the one of the last invocation. *)
Theorem debounce_executes_kept {A : Type} (wait : Z)
    (events : list (Debounced.event A)) :
  let s := Debounced.run wait events in
  Timing.d_executed s = Debounced.executions wait events
  /\ (exists kept,
        kept `sublist_of` Debounced.invocations events
        /\ Forall2 (Debounced.executes wait) kept (Timing.d_executed s))
  /\ (forall tm,
        Timing.timeout s = Some tm ->
        exists t a,
          last (Debounced.invocations events) = Some (t, a)
          /\ tm = Timing.setTimeout t wait a).
Proof.
  cbn zeta.
  assert (E : Timing.d_executed (Debounced.run wait events)
              = Debounced.executions wait events).
  { unfold Debounced.run. rewrite debounce_from. reflexivity. }
  split; [exact E|]. split.
  - rewrite E. apply executions_kept.
  - apply debounce_pending.
Qed.

(** Two invocations in one task with [wait] 0, and two invocations 15 ms
    apart with [wait] 10 while the loop is busy: the first timer is due
    when the second invocation clears it, and only the second invocation
    executes. *)
Example debounce_clears_due_timer :
  Timing.d_executed
    (Debounced.run 0 [Debounced.Invoke 5 "a"; Debounced.Invoke 5 "b";
                      Debounced.Timers 5])
  = [(5, "b")]
  /\ Timing.d_executed
       (Debounced.run 10 [Debounced.Invoke 0 "a"; Debounced.Invoke 15 "b";
                          Debounced.Timers 25])
     = [(25, "b")].
Proof. split; reflexivity. Qed.

(** X2. [throttle], with timers that fire when they are due, on any
    sequence of invocations: the action is executed no more often than
    the wrapper was invoked, and every execution carries the arguments of
    an invocation and takes place no earlier than that invocation. *)
Theorem throttle_executions_accounted {A : Type} (delay : Z)
    (calls : list (Z * A)) :
  let log := Timing.t_executed (Timing.t_run delay calls Timing.throttle) in
  (length log <= length calls)%nat
  /\ Forall (fun e => exists c, c ∈ calls /\ c.2 = e.2 /\ c.1 <= e.1) log.
Proof.
  assert (H0 : Throttled.accounted [] (@Timing.throttle A)).
  { split_and!; cbn; [lia|constructor|discriminate]. }
  destruct (t_run_accounted delay calls [] _ H0) as (Hn & Hlog & _).
  cbn zeta. rewrite app_nil_l in *. split; [lia|exact Hlog].
Qed.

(** ** Throttled scroll listeners *)

Section ListenerFacts.
Import ThrottledListener.
Context {W : Type}.
Variable func : W -> W.
Variable delay : Z.
Implicit Types (s : listener W) (e : loop_event W).

(** [invoke] follows [Timing.throttled_call]: the same timer, the same
    [lastExecTime], and the callback applied once for every execution
    logged. *)
Lemma invoke_throttled_call {A : Type} (now : Z) (a : A)
    (st : Timing.throttled A) s :
  timeoutId s = Timing.due <$> Timing.timeoutId st ->
  lastExecTime s = Timing.lastExecTime st ->
  let st' := Timing.throttled_call delay now a st in
  let s' := invoke func delay now s in
  timeoutId s' = Timing.due <$> Timing.timeoutId st'
  /\ lastExecTime s' = Timing.lastExecTime st'
  /\ world s'
     = Nat.iter (length (Timing.t_executed st')
                 - length (Timing.t_executed st)) func (world s).
Proof.
  intros Ht Hl. cbn zeta. unfold invoke, Timing.throttled_call.
  rewrite Hl. destruct (delay <? now - Timing.lastExecTime st);
    cbn [timeoutId lastExecTime world Timing.timeoutId Timing.lastExecTime
         Timing.t_executed].
  - rewrite length_app. cbn [length].
    replace (length (Timing.t_executed st) + 1 - length (Timing.t_executed st))%nat
      with 1%nat by lia.
    auto.
  - rewrite Nat.sub_diag. auto.
Qed.

(** Between the last scroll and the end: the page satisfies [P], and
    either it satisfies [Q] or a timer is pending. *)
Lemma step_quiet_keeps (P Q : W -> Prop) s e :
  (forall w, P w -> P (func w) /\ Q (func w)) ->
  quiet P Q e ->
  P (world s) /\ (Q (world s) \/ timeoutId s <> None) ->
  P (world (step func delay s e))
  /\ (Q (world (step func delay s e))
      \/ timeoutId (step func delay s e) <> None).
Proof.
  intros Hfunc He [HP HQ]. destruct e as [t move|t|change]; cbn [step].
  - destruct He.
  - unfold expire. destruct (timeoutId s) as [due|] eqn:E; [|rewrite E; auto].
    destruct (due <=? t); [|rewrite E; auto].
    cbn. destruct (Hfunc _ HP). auto.
  - cbn. destruct (He _ HP) as [HP' HQ']. split; [exact HP'|].
    destruct HQ as [HQ|HQ]; auto.
Qed.

(** After the last scroll the callback runs on a page that has the
    property [P] the scroll set up, so that what it brings about, [Q],
    holds in the end. *)
Lemma run_after_last_scroll (P Q : W -> Prop) (before : list (loop_event W))
    (t : Z) (move : W -> W) (after : list (loop_event W)) s :
  (forall w, P (move w)) ->
  (forall w, P w -> P (func w) /\ Q (func w)) ->
  Forall (quiet P Q) after ->
  let final := world (run func delay s (before ++ Scrolled t move :: after)) in
  P final /\ Q final.
Proof.
  intros Hmove Hfunc Hafter. cbn zeta. unfold run. rewrite foldl_app.
  cbn [foldl].
  set (s1 := foldl (step func delay) s before).
  assert (H : P (world (step func delay s1 (Scrolled t move)))
              /\ (Q (world (step func delay s1 (Scrolled t move)))
                  \/ timeoutId (step func delay s1 (Scrolled t move)) <> None)).
  { cbn [step]. unfold invoke. cbn [lastExecTime world timeoutId].
    destruct (delay <? t - lastExecTime s1); cbn [world timeoutId].
    - destruct (Hfunc _ (Hmove (world s1))). auto.
    - split; [apply Hmove|right; discriminate]. }
  generalize dependent (step func delay s1 (Scrolled t move)).
  clear s1. induction Hafter as [|e after He _ IH]; intros s2 H.
  - cbn [foldl]. unfold settle. destruct H as [HP HQ].
    destruct (timeoutId s2) as [due|] eqn:E.
    + cbn. apply Hfunc, HP.
    + split; [exact HP|]. destruct HQ as [HQ|HQ]; [exact HQ|contradiction].
  - cbn [foldl]. apply IH. apply step_quiet_keeps; assumption.
Qed.

Lemma quiet_timers (P Q : W -> Prop) (timers : list Z) :
  Forall (quiet P Q) (Expired <$> timers).
Proof. apply Forall_fmap, Forall_forall. intros t _. exact I. Qed.

(** A property of the page that the callback and every event keep holds
    in the end. *)
Lemma run_invariant (K : W -> Prop) (events : list (loop_event W)) :
  (forall w, K w -> K (func w)) ->
  Forall (keeps K) events ->
  forall s, K (world s) -> K (world (run func delay s events)).
Proof.
  intros Hfunc Hall. unfold run.
  assert (Hsettle : forall s, K (world s) -> K (world (settle func s))).
  { intros s Hs. unfold settle. destruct (timeoutId s); [apply Hfunc|]; exact Hs. }
  induction Hall as [|e events He _ IH]; intros s Hs; cbn [foldl].
  - apply Hsettle, Hs.
  - apply IH. destruct e as [t move|t|change]; cbn [step].
    + unfold invoke. cbn [lastExecTime world].
      destruct (delay <? t - lastExecTime s); cbn [world]; auto.
    + unfold expire. destruct (timeoutId s); [|exact Hs].
      destruct (_ <=? _); [apply Hfunc|]; exact Hs.
    + cbn. apply He, Hs.
Qed.

Lemma schedule_ending_at {Y : Type} (scroll_to : Y -> W -> W)
    (before : list (Z * option Y)) (t : Z) (y : Y) (timers : list Z) :
  schedule scroll_to (ending_at before t y timers)
  = schedule scroll_to before
      ++ Scrolled t (scroll_to y) :: (Expired <$> timers).
Proof.
  unfold schedule, ending_at. rewrite fmap_app. cbn [fmap list_fmap].
  f_equal. f_equal. rewrite <- list_fmap_compose. reflexivity.
Qed.

Lemma schedule_keeps {Y : Type} (scroll_to : Y -> W -> W) (K : W -> Prop)
    (ticks : list (Z * option Y)) :
  (forall y w, K w -> K (scroll_to y w)) ->
  Forall (keeps K) (schedule scroll_to ticks).
Proof.
  intros H. unfold schedule. apply Forall_fmap, Forall_forall.
  intros [t [y|]] _; cbn; [apply H|exact I].
Qed.

End ListenerFacts.

(** ** What the scroll listeners leave when scrolling has stopped *)

Section HeaderFacts.
Import HeaderScrollEffect.

Lemma handleScroll_header (p : page) :
  header (handleScroll p) = (fun _ => 100 <? scrollY p) <$> header p.
Proof.
  unfold handleScroll. cbn. destruct (100 <? scrollY p);
    destruct (header p); reflexivity.
Qed.

Lemma fmap_const_is_Some {B C} (c : C) (o o' : option B) :
  (is_Some o <-> is_Some o') -> (fun _ => c) <$> o = (fun _ => c) <$> o'.
Proof.
  intros H. destruct o, o'; cbn; try reflexivity.
  - destruct (proj1 H ltac:(eauto)) as [? [=]].
  - destruct (proj2 H ltac:(eauto)) as [? [=]].
Qed.

End HeaderFacts.

(** X3. The header after scrolling has stopped. Whatever the listener of
    [HeaderScrollEffect] has gone through before, and whenever its timer
    is looked at afterwards, once the window has scrolled to [y] for the
    last time and the pending timer has run, the header (when the page
    has one) carries ['scrolled'] exactly when [y > 100], and
    [lastScrollY] is [y]. *)
Theorem header_follows_last_scroll
    (s : ThrottledListener.listener HeaderScrollEffect.page)
    (before : list (Z * option Z)) (t y : Z) (timers : list Z) :
  let final :=
    ThrottledListener.world
      (ThrottledListener.run HeaderScrollEffect.handleScroll 16 s
         (ThrottledListener.schedule HeaderScrollEffect.scroll_to
            (ThrottledListener.ending_at before t y timers))) in
  HeaderScrollEffect.scrollY final = y
  /\ HeaderScrollEffect.lastScrollY final = y
  /\ HeaderScrollEffect.header final
     = (fun _ => 100 <? y)
         <$> HeaderScrollEffect.header (ThrottledListener.world s).
Proof.
  cbn zeta. rewrite schedule_ending_at.
  set (events := ThrottledListener.schedule HeaderScrollEffect.scroll_to before
                   ++ ThrottledListener.Scrolled t (HeaderScrollEffect.scroll_to y)
                        :: (ThrottledListener.Expired <$> timers)).
  destruct (run_after_last_scroll HeaderScrollEffect.handleScroll 16
              (fun w => HeaderScrollEffect.scrollY w = y)
              (fun w => HeaderScrollEffect.lastScrollY w = y
                        /\ exists w0,
                             HeaderScrollEffect.header w
                             = (fun _ => 100 <? y) <$> HeaderScrollEffect.header w0
                             /\ (is_Some (HeaderScrollEffect.header w0)
                                 <-> is_Some (HeaderScrollEffect.header w)))
              (ThrottledListener.schedule HeaderScrollEffect.scroll_to before)
              t (HeaderScrollEffect.scroll_to y)
              (ThrottledListener.Expired <$> timers) s)
    as (Hy & Hl & w0 & Hb & Hw0).
  { reflexivity. }
  { intros w Hw. split; [exact Hw|]. split; [exact Hw|].
    exists w. rewrite handleScroll_header, Hw.
    split; [reflexivity|]. rewrite fmap_is_Some. reflexivity. }
  { apply quiet_timers. }
  fold events in Hy, Hl, Hb, Hw0.
  assert (Hsome :
    is_Some (HeaderScrollEffect.header
               (ThrottledListener.world
                  (ThrottledListener.run HeaderScrollEffect.handleScroll 16 s events)))
    <-> is_Some (HeaderScrollEffect.header (ThrottledListener.world s))).
  { apply (run_invariant HeaderScrollEffect.handleScroll 16
             (fun w => is_Some (HeaderScrollEffect.header w)
                       <-> is_Some (HeaderScrollEffect.header
                                      (ThrottledListener.world s)))).
    - intros w Hw. rewrite handleScroll_header, fmap_is_Some. exact Hw.
    - unfold events. rewrite <- schedule_ending_at.
      apply schedule_keeps. intros ? ? H. exact H.
    - reflexivity. }
  split; [exact Hy|]. split; [exact Hl|].
  rewrite Hb. apply fmap_const_is_Some. rewrite Hw0. exact Hsome.
Qed.

(** X4. The scroll-to-top button after scrolling has stopped: once the
    window has scrolled to [y] for the last time and the pending timer of
    the listener has run, the button is visible exactly when [y > 500];
    the listener itself never scrolls the window. *)
Theorem scroll_to_top_follows_last_scroll
    (s : ThrottledListener.listener ScrollToTop.page)
    (before : list (Z * option Z)) (t y : Z) (timers : list Z) :
  let final :=
    ThrottledListener.world
      (ThrottledListener.run ScrollToTop.handleScroll 100 s
         (ThrottledListener.schedule ScrollToTop.scroll_to
            (ThrottledListener.ending_at before t y timers))) in
  ScrollToTop.scrollY final = y
  /\ ScrollToTop.visible final = (500 <? y)
  /\ ScrollToTop.scrollTo final
     = ScrollToTop.scrollTo (ThrottledListener.world s).
Proof.
  cbn zeta. split_and!.
  - rewrite schedule_ending_at.
    apply (run_after_last_scroll ScrollToTop.handleScroll 100
             (fun w => ScrollToTop.scrollY w = y) (fun _ => True));
      [reflexivity|intros w Hw; split; [exact Hw|exact I]|apply quiet_timers].
  - rewrite schedule_ending_at.
    apply (run_after_last_scroll ScrollToTop.handleScroll 100
             (fun w => ScrollToTop.scrollY w = y)
             (fun w => ScrollToTop.visible w = (500 <? y)));
      [reflexivity| |apply quiet_timers].
    intros w Hw. split; [exact Hw|]. cbn. rewrite Hw.
    destruct (500 <? y); reflexivity.
  - apply (run_invariant ScrollToTop.handleScroll 100
             (fun w => ScrollToTop.scrollTo w
                       = ScrollToTop.scrollTo (ThrottledListener.world s)));
      [intros w Hw; exact Hw| |reflexivity].
    apply schedule_keeps. intros ? ? H. exact H.
Qed.

Section NavListenerFacts.
Import ActiveNavigation.

Lemma handleScroll_href (scrollY : Z) (sections : list page_section)
    (links : list nav_link) :
  href <$> handleScroll scrollY sections links = href <$> links.
Proof.
  unfold handleScroll. rewrite <- list_fmap_compose.
  apply list_fmap_ext. intros i l _. reflexivity.
Qed.

(** The outcome depends on the hrefs of the links, not on which of them
    were active before. *)
Lemma handleScroll_ext (scrollY : Z) (sections : list page_section)
    (links links' : list nav_link) :
  href <$> links = href <$> links' ->
  handleScroll scrollY sections links = handleScroll scrollY sections links'.
Proof.
  intros H. unfold handleScroll.
  set (c := current_section scrollY sections).
  assert (E : forall l : list nav_link, mark c <$> l
              = (fun h => {| href := h;
                             active := if decide (h = "#" +:+ c)
                                       then true else false |})
                  <$> (href <$> l)).
  { intros l. rewrite <- list_fmap_compose. apply list_fmap_ext.
    intros i x _. reflexivity. }
  rewrite (E links), (E links'), H. reflexivity.
Qed.

End NavListenerFacts.

(** X5. The active link after scrolling has stopped: once the window has
    scrolled to [y] for the last time and the pending timer of the
    listener of [ActiveNavigation] has run, the nav links are the ones
    the handler computes for [y]; links that were active at an earlier
    position are not left active. *)
Theorem active_link_follows_last_scroll
    (sections : list ActiveNavigation.page_section)
    (s : ThrottledListener.listener ScrollListeners.nav_page)
    (before : list (Z * option Z)) (t y : Z) (timers : list Z) :
  let final :=
    ThrottledListener.world
      (ThrottledListener.run (ScrollListeners.highlight sections) 10 s
         (ThrottledListener.schedule ScrollListeners.nav_scroll_to
            (ThrottledListener.ending_at before t y timers))) in
  ScrollListeners.scrollY final = y
  /\ ScrollListeners.navLinks final
     = ActiveNavigation.handleScroll y sections
         (ScrollListeners.navLinks (ThrottledListener.world s)).
Proof.
  cbn zeta.
  assert (Hhref :
    ActiveNavigation.href
      <$> ScrollListeners.navLinks
            (ThrottledListener.world
               (ThrottledListener.run (ScrollListeners.highlight sections) 10 s
                  (ThrottledListener.schedule ScrollListeners.nav_scroll_to
                     (ThrottledListener.ending_at before t y timers))))
    = ActiveNavigation.href
        <$> ScrollListeners.navLinks (ThrottledListener.world s)).
  { apply (run_invariant (ScrollListeners.highlight sections) 10
             (fun w => ActiveNavigation.href <$> ScrollListeners.navLinks w
                       = ActiveNavigation.href
                           <$> ScrollListeners.navLinks
                                 (ThrottledListener.world s)));
      [| |reflexivity].
    - intros w Hw. cbn. rewrite handleScroll_href. exact Hw.
    - apply schedule_keeps. intros ? ? H. exact H. }
  rewrite schedule_ending_at in *.
  destruct (run_after_last_scroll (ScrollListeners.highlight sections) 10
              (fun w => ScrollListeners.scrollY w = y)
              (fun w => exists links,
                   ScrollListeners.navLinks w
                   = ActiveNavigation.handleScroll y sections links)
              (ThrottledListener.schedule ScrollListeners.nav_scroll_to before)
              t (ScrollListeners.nav_scroll_to y)
              (ThrottledListener.Expired <$> timers) s)
    as (Hy & links & Hlinks).
  { reflexivity. }
  { intros w Hw. split; [exact Hw|]. exists (ScrollListeners.navLinks w).
    cbn. rewrite Hw. reflexivity. }
  { apply quiet_timers. }
  split; [exact Hy|]. rewrite Hlinks. apply handleScroll_ext.
  rewrite <- Hhref, Hlinks, handleScroll_href. reflexivity.
Qed.

Section CounterListenerFacts.
Import CounterAnimation ScrollListeners.
Implicit Types (p : page) (v : viewport).

Lemma start_animation_length (i : nat) p :
  length (statNumbers (start_animation i p)) = length (statNumbers p).
Proof.
  unfold start_animation. destruct (statNumbers p !! i); [|reflexivity].
  destruct (updateCounter _). cbn. apply length_alter.
Qed.

Lemma visit_length v p (i : nat) :
  length (statNumbers (visit v p i)) = length (statNumbers p).
Proof.
  unfold visit. destruct (decide _); [reflexivity|].
  destruct (isInViewport v i); [|reflexivity].
  cbn. apply start_animation_length.
Qed.

Lemma forEach_length v (l : list nat) :
  forall p, length (statNumbers (foldl (visit v) p l)) = length (statNumbers p).
Proof.
  induction l as [|i l IH]; intros p; cbn [foldl]; [reflexivity|].
  rewrite IH. apply visit_length.
Qed.

Lemma handleScroll_length v p :
  length (statNumbers (handleScroll v p)) = length (statNumbers p).
Proof. apply forEach_length. Qed.

Lemma forEach_callback_length (cbs : list (nat * counter)) :
  forall p,
    length (statNumbers (foldl run_callback p cbs)) = length (statNumbers p).
Proof.
  induction cbs as [|cb cbs IH]; intros p; cbn [foldl]; [reflexivity|].
  rewrite IH. unfold run_callback. destruct (updateCounter _). cbn.
  apply length_alter.
Qed.

Lemma animation_frame_length p :
  length (statNumbers (animation_frame p)) = length (statNumbers p).
Proof. unfold animation_frame. rewrite forEach_callback_length. reflexivity. Qed.

(** After the handler has run, every element that is in the viewport is
    in the visited set. *)
Lemma handleScroll_visible v p (i : nat) :
  (i < length (statNumbers p))%nat -> isInViewport v i = true ->
  i ∈ animated (handleScroll v p).
Proof.
  intros Hi Hv. destruct (lookup_lt_is_Some_2 _ _ Hi) as [s Hs].
  destruct (decide (i ∈ animated p)) as [Hin|Hout].
  - apply (handleScroll_animated v p i Hin).
  - apply (handleScroll_first v p i s Hout Hv Hs).
Qed.

Lemma visit_started_once v p (i : nat) :
  (i < length (statNumbers p))%nat ->
  started_once p -> started_once (visit v p i).
Proof.
  intros Hi Hp. unfold visit. destruct (decide _) as [|Hout]; [exact Hp|].
  destruct (isInViewport v i); [|exact Hp].
  destruct (lookup_lt_is_Some_2 _ _ Hi) as [s Hs].
  intros j. destruct (Hp j) as [Hcount Hlt]. destruct (Hp i) as [Hi0 _].
  rewrite decide_False in Hi0 by exact Hout.
  unfold animations_started, mark_animated, start_animation in *.
  rewrite Hs. destruct (updateCounter _) as [text next].
  cbn [animated started statNumbers].
  rewrite animations_started_snoc, length_alter.
  destruct (decide (i = j)) as [->|Hij].
  - rewrite Hi0. split; [|intros _; exact Hi].
    rewrite decide_True; [reflexivity|].
    apply elem_of_union. right. apply elem_of_singleton. reflexivity.
  - rewrite Hcount, Nat.add_0_r.
    assert (Hiff : j ∈ animated p ∪ {[i]} <-> j ∈ animated p).
    { rewrite elem_of_union, elem_of_singleton.
      split; [intros [Hj|Hj]; [exact Hj|congruence]|intros Hj; left; exact Hj]. }
    split.
    + destruct (decide (j ∈ animated p)) as [Hj|Hj].
      * rewrite decide_True; [reflexivity|apply Hiff, Hj].
      * rewrite decide_False; [reflexivity|]. intros Hj'. apply Hj, Hiff, Hj'.
    + intros Hj. apply Hlt, Hiff, Hj.
Qed.

Lemma forEach_started_once v (l : list nat) :
  forall p,
    Forall (fun i => (i < length (statNumbers p))%nat) l ->
    started_once p -> started_once (foldl (visit v) p l).
Proof.
  induction l as [|i l IH]; intros p Hl Hp; cbn [foldl]; [exact Hp|].
  apply Forall_cons in Hl as [Hi Hl].
  apply IH; [|apply visit_started_once; assumption].
  eapply Forall_impl; [exact Hl|]. intros j Hj. rewrite visit_length. exact Hj.
Qed.

Lemma handleScroll_started_once v p :
  started_once p -> started_once (handleScroll v p).
Proof.
  apply forEach_started_once, Forall_forall.
  intros i Hi. apply elem_of_seq in Hi. lia.
Qed.

Lemma animation_frame_started_once p :
  started_once p -> started_once (animation_frame p).
Proof.
  intros Hp j. unfold animations_started.
  rewrite animation_frame_length. unfold animation_frame.
  destruct (forEach_callback (frame_queue p)
              {| statNumbers := statNumbers p; animated := animated p;
                 frame_queue := []; started := started p |}) as [-> ->].
  exact (Hp j).
Qed.

Lemma fresh_started_once (stats : list stat) : started_once (fresh stats).
Proof.
  intros j. cbn. split; [reflexivity|]. intros H.
  apply not_elem_of_empty in H. destruct H.
Qed.

End CounterListenerFacts.

(** X6. The counters after scrolling has stopped. From the page
    [new CounterAnimation()] starts on, whatever scrolls, timer checks
    and animation frames come before, once the window has scrolled for
    the last time (showing [v]) and the pending timer of the listener has
    run, every counter element that is then in the viewport is in the
    visited set and has had exactly one animation started; no element has
    had more than one. *)
Theorem visible_counters_are_started
    (stats : list CounterAnimation.stat) (v0 : CounterAnimation.viewport)
    (before : list ScrollListeners.counter_tick) (t : Z)
    (v : CounterAnimation.viewport)
    (after : list ScrollListeners.counter_tick) :
  forallb ScrollListeners.no_scroll after = true ->
  let final :=
    (ThrottledListener.world
       (ThrottledListener.run ScrollListeners.count 100
          (ThrottledListener.throttle (v0, ScrollListeners.fresh stats))
          (ScrollListeners.counter_event
             <$> (before ++ ScrollListeners.Scroll t v :: after)))).2 in
  (forall element,
      (element < length stats)%nat ->
      CounterAnimation.isInViewport v element = true ->
      element ∈ CounterAnimation.animated final
      /\ CounterAnimation.animations_started element final = 1%nat)
  /\ (forall element,
         (CounterAnimation.animations_started element final <= 1)%nat).
Proof.
  intros Hafter. cbn zeta.
  set (events := ScrollListeners.counter_event
                   <$> (before ++ ScrollListeners.Scroll t v :: after)).
  set (run := ThrottledListener.run ScrollListeners.count 100
                (ThrottledListener.throttle (v0, ScrollListeners.fresh stats))
                events).
  assert (HK : ScrollListeners.started_once (ThrottledListener.world run).2
               /\ length (CounterAnimation.statNumbers
                            (ThrottledListener.world run).2)
                  = length stats).
  { apply (run_invariant ScrollListeners.count 100
             (fun w => ScrollListeners.started_once w.2
                       /\ length (CounterAnimation.statNumbers w.2)
                          = length stats)).
    - intros w [H1 H2]. cbn. split.
      + apply handleScroll_started_once, H1.
      + rewrite handleScroll_length. exact H2.
    - apply Forall_fmap, Forall_forall. intros [t' v'|t'|] _; cbn.
      + intros w H. exact H.
      + exact I.
      + intros w [H1 H2]. cbn. split.
        * apply animation_frame_started_once, H1.
        * rewrite animation_frame_length. exact H2.
    - split; [apply fresh_started_once|reflexivity]. }
  destruct HK as [Honce Hlen].
  assert (HQ : forall element,
             (element < length stats)%nat ->
             CounterAnimation.isInViewport v element = true ->
             element ∈ CounterAnimation.animated (ThrottledListener.world run).2).
  { rewrite <- Hlen. unfold run, events. rewrite fmap_app.
    cbn [fmap list_fmap]. cbn [ScrollListeners.counter_event].
    apply (run_after_last_scroll ScrollListeners.count 100
             (fun w => w.1 = v)
             (fun w => forall element,
                  (element < length (CounterAnimation.statNumbers w.2))%nat ->
                  CounterAnimation.isInViewport v element = true ->
                  element ∈ CounterAnimation.animated w.2)).
    - reflexivity.
    - intros w Hv. cbn. split; [exact Hv|].
      intros element He Hin. rewrite Hv.
      rewrite handleScroll_length in He.
      apply handleScroll_visible; assumption.
    - apply Forall_fmap, Forall_forall. intros tick Htick.
      apply list_elem_of_In in Htick.
      apply (proj1 (forallb_forall _ _) Hafter) in Htick.
      destruct tick as [t' v'|t'|]; [discriminate|exact I|].
      cbn. intros w Hv. split; [exact Hv|].
      intros HQ element He Hin. rewrite animation_frame_length in He.
      unfold CounterAnimation.animation_frame.
      destruct (forEach_callback (CounterAnimation.frame_queue w.2)
                  {| CounterAnimation.statNumbers :=
                       CounterAnimation.statNumbers w.2;
                     CounterAnimation.animated := CounterAnimation.animated w.2;
                     CounterAnimation.frame_queue := [];
                     CounterAnimation.started := CounterAnimation.started w.2 |})
        as [-> _].
      apply HQ; assumption. }
  split.
  - intros element He Hin. specialize (HQ element He Hin).
    split; [exact HQ|]. destruct (Honce element) as [-> _].
    rewrite decide_True by exact HQ. reflexivity.
  - intros element. destruct (Honce element) as [-> _].
    destruct (decide _); lia.
Qed.

(** One counter below the fold when the page is set up; the window
    scrolls once and shows it, then a frame runs and the timer is looked
    at. *)
Lemma visible_counters_are_started_witness :
  let stats := [{| CounterAnimation.data_target := JsNum.of_Z 100;
                   CounterAnimation.textContent :=
                     CounterAnimation.Markup "0" |}] in
  let below := {| CounterAnimation.innerHeight := 800;
                  CounterAnimation.bounding :=
                    fun _ => {| CounterAnimation.top := 900;
                                CounterAnimation.bottom := 950 |} |} in
  let shown := {| CounterAnimation.innerHeight := 800;
                  CounterAnimation.bounding :=
                    fun _ => {| CounterAnimation.top := 100;
                                CounterAnimation.bottom := 150 |} |} in
  let after := [ScrollListeners.Frame; ScrollListeners.Timer 1200] in
  forallb ScrollListeners.no_scroll after = true
  /\ (forall element,
        (CounterAnimation.animations_started element
           (ThrottledListener.world
              (ThrottledListener.run ScrollListeners.count 100
                 (ThrottledListener.throttle
                    (below, ScrollListeners.fresh stats))
                 (ScrollListeners.counter_event
                    <$> ([] ++ ScrollListeners.Scroll 1000 shown :: after)))).2
         <= 1)%nat).
Proof.
  intros stats below shown after.
  assert (H : forallb ScrollListeners.no_scroll after = true) by reflexivity.
  split; [exact H|].
  exact (proj2 (visible_counters_are_started stats below [] 1000 shown after H)).
Defined.

(** ** The animations of the counters run to their targets *)

Section CounterFramesFacts.
Import JsNum CounterAnimation CounterFrames.
Implicit Types (p : page) (v : viewport) (c : counter).

Lemma frames_nonempty (n : nat) c (trace : list jsnum) :
  frames n c = Some trace -> trace <> [].
Proof.
  destruct n as [|n]; [discriminate|]. rewrite frames_S.
  destruct (updateCounter c) as [text [c'|]].
  - destruct (frames n c'); [|discriminate]. intros [= <-]. discriminate.
  - intros [= <-]. discriminate.
Qed.

Lemma finishes_within_more (n n' : nat) c :
  (n <= n')%nat -> finishes_within n c -> finishes_within n' c.
Proof.
  intros Hle (trace & H & Hl). exists trace.
  split; [exact (frames_more n n' c trace H Hle)|exact Hl].
Qed.

Lemma updateCounter_target c (text : jsnum) c' :
  updateCounter c = (text, Some c') -> target c' = target c.
Proof.
  unfold updateCounter. cbn zeta. destruct (lt _ _); [|discriminate].
  intros [= _ <-]. reflexivity.
Qed.

(** One frame of a closure that finishes within [S n] frames. *)
Lemma finishes_within_step (n : nat) c :
  finishes_within (S n) c ->
  match updateCounter c with
  | (text, None) => text = target c
  | (text, Some c') => target c' = target c /\ finishes_within n c'
  end.
Proof.
  intros (trace & H & Hl). rewrite frames_S in H.
  destruct (updateCounter c) as [text [c'|]] eqn:E.
  - split; [exact (updateCounter_target c text c' E)|].
    destruct (frames n c') as [rest|] eqn:F; [|discriminate].
    injection H as <-. exists rest. split; [exact F|].
    rewrite (updateCounter_target c text c' E).
    destruct rest as [|x rest]; [destruct (frames_nonempty n c' [] F eq_refl)|].
    rewrite last_cons_cons in Hl. exact Hl.
  - injection H as <-. cbn in Hl. congruence.
Qed.

(** What takes at most [S k] frames on a page does so on every page with
    the same targets. *)
Lemma within_targets (k : nat) (l l' : list stat) :
  data_target <$> l = data_target <$> l' -> within k l -> within k l'.
Proof.
  unfold within. intros E H.
  apply (Forall_fmap data_target
           (fun t => finishes_within (S k) (new_counter t))).
  rewrite <- E.
  apply (Forall_fmap data_target
           (fun t => finishes_within (S k) (new_counter t))).
  exact H.
Qed.

Lemma within_more (k k' : nat) (l : list stat) :
  (k <= k')%nat -> within k l -> within k' l.
Proof.
  unfold within. intros Hle H. eapply Forall_impl; [exact H|].
  intros s Hs. apply (finishes_within_more (S k)); [lia|exact Hs].
Qed.

(** The animation of a parsed target ends. *)
Lemma parsed_finishes (t : jsnum) :
  parsed t -> exists n, finishes_within (S n) (new_counter t).
Proof.
  intros Hp.
  assert (Hstop : lt (add (current (new_counter t))
                          (increment (new_counter t))) t = false ->
                  exists n, finishes_within (S n) (new_counter t)).
  { intros H. exists 0%nat, [t].
    split; [exact (animation_immediate t H 1%nat ltac:(lia))|reflexivity]. }
  destruct (parsed_cases t Hp)
    as [->|[[s ->]|[[s ->]|(s & m & e & -> & Hd & He)]]].
  - apply Hstop. reflexivity.
  - apply Hstop. destruct s; reflexivity.
  - apply Hstop. destruct s; reflexivity.
  - destruct s.
    + apply Hstop. apply first_comparison_negative; assumption.
    + destruct (animation_positive m e Hd He) as (n & Hrun & _).
      exists n. eexists.
      split; [exact (Hrun (S n) ltac:(lia))|apply last_snoc].
Qed.

Lemma parsed_within (stats : list stat) :
  Forall (fun s => parsed (data_target s)) stats ->
  exists k, within k stats.
Proof.
  induction 1 as [|s l Hs _ [k IH]]; [exists 0%nat; constructor|].
  destruct (parsed_finishes _ Hs) as [n Hn].
  exists (Nat.max n k). constructor.
  - apply (finishes_within_more (S n)); [lia|exact Hn].
  - apply (within_more k); [lia|exact IH].
Qed.

(** No event changes the target of an element. *)
Lemma visit_targets v p (i : nat) :
  data_target <$> statNumbers (visit v p i) = data_target <$> statNumbers p.
Proof.
  unfold visit. destruct (decide _); [reflexivity|].
  destruct (isInViewport v i); [|reflexivity].
  unfold mark_animated, start_animation.
  destruct (statNumbers p !! i); [|reflexivity].
  destruct (updateCounter _). cbn [statNumbers].
  apply fmap_alter_same. reflexivity.
Qed.

Lemma step_targets p (e : event) :
  data_target <$> statNumbers (step p e) = data_target <$> statNumbers p.
Proof.
  destruct e as [v|]; cbn [step].
  - unfold handleScroll. generalize (seq 0 (length (statNumbers p))).
    intros l. revert p. induction l as [|i l IH]; intros p; [reflexivity|].
    cbn [foldl]. rewrite IH. apply visit_targets.
  - unfold animation_frame.
    change (data_target <$> statNumbers p)
      with (data_target
              <$> statNumbers {| statNumbers := statNumbers p;
                                 animated := animated p;
                                 frame_queue := [];
                                 started := started p |}).
    generalize {| statNumbers := statNumbers p; animated := animated p;
                  frame_queue := []; started := started p |}.
    generalize (frame_queue p). intros cbs.
    induction cbs as [|cb cbs IH]; intros p0; [reflexivity|].
    cbn [foldl]. rewrite IH. unfold run_callback.
    destruct (updateCounter _). cbn [statNumbers].
    apply fmap_alter_same. reflexivity.
Qed.

Lemma run_targets (events : list event) :
  forall p,
    data_target <$> statNumbers (run p events) = data_target <$> statNumbers p.
Proof.
  induction events as [|e events IH]; intros p; [reflexivity|].
  cbn [run foldl]. etransitivity; [apply (IH (step p e))|apply step_targets].
Qed.

Lemma queued_for_snoc (element : nat) (cb : nat * counter)
    (queue : list (nat * counter)) :
  filter (fun cb' : nat * counter => cb'.1 = element) (queue ++ [cb])
  = filter (fun cb' : nat * counter => cb'.1 = element) queue
    ++ (if decide (cb.1 = element) then [cb] else []).
Proof.
  rewrite filter_app. reflexivity.
Qed.

Lemma settling_more (n n' : nat) p :
  (n <= n')%nat -> settling n p -> settling n' p.
Proof.
  intros Hle Hp element. destruct (Hp element) as [Hout Hin].
  split; [exact Hout|]. intros He.
  destruct (Hin He) as (s & Hs & [H|(c & Hq & Ht & Hf)]).
  - exists s. split; [exact Hs|]. left. exact H.
  - exists s. split; [exact Hs|]. right. exists c.
    split; [exact Hq|]. split; [exact Ht|].
    exact (finishes_within_more n n' c Hle Hf).
Qed.

(** The handler on one element. *)
Lemma visit_settling (k : nat) v p (i : nat) :
  (i < length (statNumbers p))%nat -> within k (statNumbers p) ->
  settling k p -> settling k (visit v p i).
Proof.
  intros Hi Hw Hp. unfold visit. destruct (decide _) as [|Hout]; [exact Hp|].
  destruct (isInViewport v i); [|exact Hp].
  destruct (lookup_lt_is_Some_2 _ _ Hi) as [s Hs].
  pose proof (proj1 (Hp i) Hout) as Hqi.
  pose proof (finishes_within_step k _ (Forall_lookup_1 _ _ _ _ Hw Hs))
    as Hstep.
  change (target (new_counter (data_target s))) with (data_target s) in Hstep.
  intros j. destruct (Hp j) as [Hjout Hjin].
  unfold mark_animated, start_animation, queued_for in *.
  rewrite Hs. destruct (updateCounter _) as [text next].
  cbn [animated statNumbers frame_queue].
  assert (Hiff : i <> j -> (j ∈ animated p ∪ {[i]} <-> j ∈ animated p)).
  { intros Hij. rewrite elem_of_union, elem_of_singleton.
    split; [intros [Hj|Hj]; [exact Hj|congruence]|intros Hj; left; exact Hj]. }
  assert (Hq : i <> j ->
               filter (fun cb : nat * counter => cb.1 = j)
                 match next with
                 | Some c => frame_queue p ++ [(i, c)]
                 | None => frame_queue p
                 end
               = filter (fun cb : nat * counter => cb.1 = j) (frame_queue p)).
  { intros Hij. destruct next as [c|]; [|reflexivity].
    rewrite queued_for_snoc. cbn [fst].
    rewrite decide_False by exact Hij. apply app_nil_r. }
  destruct (decide (i = j)) as [<-|Hij].
  - split.
    + intros H. exfalso. apply H, elem_of_union. right.
      apply elem_of_singleton. reflexivity.
    + intros _. exists (write text s).
      split; [rewrite list_lookup_alter_eq, Hs; reflexivity|].
      destruct next as [c|].
      * right. exists c. destruct Hstep as [Ht Hf].
        rewrite queued_for_snoc, Hqi. cbn [fst].
        rewrite decide_True by reflexivity.
        split; [reflexivity|]. split; [exact Ht|exact Hf].
      * left. split; [exact Hqi|]. unfold settled. cbn. rewrite Hstep.
        reflexivity.
  - rewrite (Hq Hij), list_lookup_alter_ne by exact Hij. split.
    + intros H. apply Hjout. intros H'. apply H, (Hiff Hij), H'.
    + intros H. apply Hjin, (Hiff Hij), H.
Qed.

Lemma forEach_settling (k : nat) v (l : list nat) :
  forall p,
    Forall (fun i => (i < length (statNumbers p))%nat) l ->
    within k (statNumbers p) ->
    settling k p -> settling k (foldl (visit v) p l).
Proof.
  induction l as [|i l IH]; intros p Hl Hw Hp; cbn [foldl]; [exact Hp|].
  apply Forall_cons in Hl as [Hi Hl].
  apply IH; [| |apply visit_settling; assumption].
  - eapply Forall_impl; [exact Hl|].
    intros j Hj. rewrite visit_length. exact Hj.
  - apply (within_targets k (statNumbers p)); [|exact Hw].
    symmetry. apply visit_targets.
Qed.

Lemma handleScroll_settling (k : nat) v p :
  within k (statNumbers p) -> settling k p -> settling k (handleScroll v p).
Proof.
  apply forEach_settling, Forall_forall.
  intros i Hi. apply elem_of_seq in Hi. lia.
Qed.

(** One frame: the closures that ask for another frame are queued again,
    in order. *)
Lemma forEach_callback_queue (cbs : list (nat * counter)) :
  forall p,
    frame_queue (foldl run_callback p cbs)
    = frame_queue p
      ++ omap (fun cb : nat * counter =>
                 (fun c => (cb.1, c)) <$> (updateCounter cb.2).2) cbs.
Proof.
  induction cbs as [|cb cbs IH]; intros p; cbn [foldl omap list_omap].
  - symmetry. apply app_nil_r.
  - rewrite IH. unfold run_callback.
    destruct (updateCounter cb.2) as [text [c|]]; cbn.
    + rewrite <- app_assoc. reflexivity.
    + reflexivity.
Qed.

(** One frame, for one element: the closures queued for it write to it,
    in order. *)
Lemma forEach_callback_stat (element : nat) (cbs : list (nat * counter)) :
  forall p,
    statNumbers (foldl run_callback p cbs) !! element
    = foldl (fun (o : option stat) (cb : nat * counter) =>
               write (updateCounter cb.2).1 <$> o)
            (statNumbers p !! element)
            (filter (fun cb : nat * counter => cb.1 = element) cbs).
Proof.
  induction cbs as [|cb cbs IH]; intros p; cbn [foldl]; [reflexivity|].
  rewrite IH.
  assert (E : statNumbers (run_callback p cb)
              = alter (write (updateCounter cb.2).1) cb.1 (statNumbers p)).
  { unfold run_callback. destruct (updateCounter cb.2). reflexivity. }
  rewrite E. destruct (decide (cb.1 = element)) as [H|H].
  - rewrite filter_cons_True by exact H. cbn [foldl].
    rewrite H, list_lookup_alter_eq. reflexivity.
  - rewrite filter_cons_False by exact H.
    rewrite list_lookup_alter_ne by exact H. reflexivity.
Qed.

Lemma queued_for_omap (element : nat) (cbs : list (nat * counter)) :
  filter (fun cb : nat * counter => cb.1 = element)
    (omap (fun cb : nat * counter =>
             (fun c => (cb.1, c)) <$> (updateCounter cb.2).2) cbs)
  = omap (fun cb : nat * counter =>
            (fun c => (cb.1, c)) <$> (updateCounter cb.2).2)
      (filter (fun cb : nat * counter => cb.1 = element) cbs).
Proof.
  induction cbs as [|cb cbs IH]; [reflexivity|]. cbn [omap list_omap].
  destruct (decide (cb.1 = element)) as [H|H].
  - rewrite (filter_cons_True _ cb cbs H). cbn [omap list_omap].
    destruct (updateCounter cb.2) as [text [c|]];
      cbn [snd fmap option_fmap option_map].
    + rewrite filter_cons_True by exact H. f_equal. exact IH.
    + exact IH.
  - rewrite (filter_cons_False _ cb cbs H).
    destruct (updateCounter cb.2) as [text [c|]];
      cbn [snd fmap option_fmap option_map].
    + rewrite filter_cons_False by exact H. exact IH.
    + exact IH.
Qed.

(** One animation frame brings every animation one frame closer to its
    target. *)
Lemma animation_frame_settling (n : nat) p :
  settling (S n) p -> settling n (animation_frame p).
Proof.
  intros Hp element. destruct (Hp element) as [Hout Hin].
  unfold queued_for, animation_frame in *.
  destruct (forEach_callback (frame_queue p)
              {| statNumbers := statNumbers p; animated := animated p;
                 frame_queue := []; started := started p |}) as [-> _].
  rewrite forEach_callback_queue, forEach_callback_stat.
  cbn [animated frame_queue statNumbers app].
  rewrite queued_for_omap. split.
  - intros H. rewrite (Hout H). reflexivity.
  - intros H. destruct (Hin H) as (s & Hs & [[Hq Hset]|(c & Hq & Ht & Hf)]).
    + exists s. rewrite Hq, Hs. split; [reflexivity|]. left.
      split; [reflexivity|exact Hset].
    + rewrite Hq, Hs. cbn [foldl omap list_omap snd fst fmap option_fmap option_map].
      pose proof (finishes_within_step n c Hf) as Hstep.
      destruct (updateCounter c) as [text [c'|]]; cbn.
      * exists (write text s). split; [reflexivity|]. right. exists c'.
        destruct Hstep as [Ht' Hf']. split; [reflexivity|].
        split; [cbn; congruence|exact Hf'].
      * exists (write text s). split; [reflexivity|]. left.
        split; [reflexivity|]. unfold settled. cbn. congruence.
Qed.

Lemma step_settling (k : nat) p (e : event) :
  within k (statNumbers p) -> settling k p -> settling k (step p e).
Proof.
  intros Hw Hp. destruct e as [v|]; cbn [step].
  - apply handleScroll_settling; assumption.
  - apply animation_frame_settling. apply (settling_more k); [lia|exact Hp].
Qed.

Lemma run_settling (k : nat) (events : list event) :
  forall p,
    within k (statNumbers p) -> settling k p -> settling k (run p events).
Proof.
  induction events as [|e events IH]; intros p Hw Hp; [exact Hp|].
  cbn [run foldl]. apply (IH (step p e)).
  - apply (within_targets k (statNumbers p)); [|exact Hw].
    symmetry. apply step_targets.
  - apply step_settling; assumption.
Qed.

Lemma frames_settling (n : nat) :
  forall p, settling n p -> settling 0 (run p (repeat Frame n)).
Proof.
  induction n as [|n IH]; intros p Hp; [exact Hp|].
  cbn [repeat run foldl step].
  apply (IH (animation_frame p)), animation_frame_settling, Hp.
Qed.

(** When no frame is left to run, no closure is queued. *)
Lemma settling_done p :
  settling 0 p ->
  frame_queue p = []
  /\ forall element, element ∈ animated p ->
       exists s, statNumbers p !! element = Some s /\ settled s.
Proof.
  intros Hp.
  assert (Hq : forall element, queued_for element p = []).
  { intros element. destruct (Hp element) as [Hout Hin].
    destruct (decide (element ∈ animated p)) as [H|H]; [|exact (Hout H)].
    destruct (Hin H) as (s & _ & [[Hq _]|(c & _ & _ & trace & Hf & _)]);
      [exact Hq|discriminate Hf]. }
  split.
  - destruct (frame_queue p) as [|cb queue] eqn:E; [reflexivity|].
    specialize (Hq cb.1). unfold queued_for in Hq. rewrite E in Hq.
    rewrite filter_cons_True in Hq by reflexivity. discriminate Hq.
  - intros element H. destruct (Hp element) as [_ Hin].
    destruct (Hin H) as (s & Hs & [[_ Hset]|(c & Hc & _)]).
    + exists s. split; [exact Hs|exact Hset].
    + rewrite Hq in Hc. discriminate Hc.
Qed.

Lemma run_app (events more : list event) p :
  run p (events ++ more) = run (run p events) more.
Proof. apply foldl_app. Qed.

Lemma fresh_settling (k : nat) (stats : list stat) :
  settling k (ScrollListeners.fresh stats).
Proof.
  intros element. split; [reflexivity|].
  intros H. change (element ∈ (∅ : gset nat)) in H.
  apply not_elem_of_empty in H. destruct H.
Qed.

End CounterFramesFacts.

(** X17. Every animation that was started runs to its target. When the
    animation of every counter of the page takes at most [k + 1] frames
    (126 for a target of 100), then from the page [new CounterAnimation()]
    sets up, after any executions of the scroll handler and animation
    frames, [k] or more further animation frames leave no [updateCounter]
    closure waiting for a frame, and every element of the visited set
    shows the number of its [data-target] attribute (as parsed). Such a
    [k] exists for every page whose attributes are parsed by [parseInt]
    (integers, or NaN for an attribute that is no number). *)
Theorem started_counters_reach_target
    (stats : list CounterAnimation.stat) (v : CounterAnimation.viewport)
    (events : list CounterAnimation.event) :
  (forall k more,
      CounterFrames.within k stats -> (k <= more)%nat ->
      let p := CounterAnimation.run (CounterAnimation.init stats v)
                 (events ++ repeat CounterAnimation.Frame more) in
      CounterAnimation.frame_queue p = []
      /\ forall element,
           element ∈ CounterAnimation.animated p ->
           exists s0,
             stats !! element = Some s0
             /\ CounterAnimation.textContent
                  <$> CounterAnimation.statNumbers p !! element
                = Some (CounterAnimation.Written
                          (CounterAnimation.data_target s0)))
  /\ (Forall (fun s => CounterAnimation.parsed
                         (CounterAnimation.data_target s)) stats ->
      exists k, CounterFrames.within k stats).
Proof.
  split; [|apply parsed_within].
  intros k more Hw Hmore. cbn zeta. rewrite run_app.
  set (p1 := CounterAnimation.run (CounterAnimation.init stats v) events).
  pose proof (step_targets (ScrollListeners.fresh stats)
                (CounterAnimation.Scroll v)) as Hinit.
  change (CounterAnimation.step (ScrollListeners.fresh stats)
            (CounterAnimation.Scroll v))
    with (CounterAnimation.init stats v) in Hinit.
  change (CounterAnimation.statNumbers (ScrollListeners.fresh stats))
    with stats in Hinit.
  assert (H1 : CounterFrames.settling k p1).
  { apply run_settling.
    - apply (within_targets k stats); [symmetry; exact Hinit|exact Hw].
    - apply (handleScroll_settling k v (ScrollListeners.fresh stats));
        [exact Hw|apply fresh_settling]. }
  pose proof (run_targets (events ++ repeat CounterAnimation.Frame more)
                (CounterAnimation.init stats v)) as Ht.
  rewrite run_app in Ht. fold p1 in Ht.
  rewrite Hinit in Ht.
  destruct (settling_done _
              (frames_settling more p1 (settling_more k more p1 Hmore H1)))
    as [Hq Hall].
  split; [exact Hq|].
  intros element He. destruct (Hall element He) as (s & Hs & Hset).
  apply (f_equal (fun l => l !! element)) in Ht.
  rewrite !list_lookup_fmap, Hs in Ht. cbn in Ht.
  destruct (stats !! element) as [s0|]; [|discriminate Ht].
  injection Ht as Ht. exists s0. split; [reflexivity|].
  rewrite Hs. cbn. rewrite Hset, Ht. reflexivity.
Qed.

(** A page with one counter whose target is 100: 125 further frames. *)
Lemma started_counters_reach_target_witness :
  let stats := [{| CounterAnimation.data_target := JsNum.of_Z 100;
                   CounterAnimation.textContent :=
                     CounterAnimation.Markup "0" |}] in
  let v := {| CounterAnimation.innerHeight := 800;
              CounterAnimation.bounding :=
                fun _ => {| CounterAnimation.top := 100;
                            CounterAnimation.bottom := 150 |} |} in
  CounterFrames.within 125 stats
  /\ CounterAnimation.frame_queue
       (CounterAnimation.run (CounterAnimation.init stats v)
          ([] ++ repeat CounterAnimation.Frame 125)) = [].
Proof.
  intros stats v.
  assert (H : CounterFrames.within 125 stats).
  { repeat constructor. eexists. split; vm_compute; reflexivity. }
  split; [exact H|].
  exact (proj1 (proj1 (started_counters_reach_target stats v []) 125%nat
                  125%nat H (Nat.le_refl 125))).
Defined.

Section ParallaxFacts.
Import ParallaxEffect.

Lemma handleParallax_window (p : page) :
  pageYOffset (handleParallax p) = pageYOffset p
  /\ innerHeight (handleParallax p) = innerHeight p
  /\ offsetHeight (handleParallax p) = offsetHeight p.
Proof.
  unfold handleParallax. cbn zeta.
  destruct (_ <? _); split_and!; reflexivity.
Qed.

End ParallaxFacts.

(** X7. The hero section after scrolling has stopped: once the window has
    scrolled to [y] for the last time and the pending timer of the
    listener of [ParallaxEffect] has run, the translation of the hero
    section is [y * -0.5] when [y] is below the height of the section
    plus the height of the window; from there on the handler leaves the
    translation alone, so it is the one of some position below that
    bound, or the one the page was given. *)
Theorem parallax_follows_last_scroll
    (s : ThrottledListener.listener ParallaxEffect.page)
    (before : list (Z * option Z)) (t y : Z) (timers : list Z) :
  let start := ThrottledListener.world s in
  let final :=
    ThrottledListener.world
      (ThrottledListener.run ParallaxEffect.handleParallax 16 s
         (ThrottledListener.schedule ParallaxEffect.scroll_to
            (ThrottledListener.ending_at before t y timers))) in
  ParallaxEffect.pageYOffset final = y
  /\ (y < ParallaxEffect.offsetHeight start + ParallaxEffect.innerHeight start ->
      ParallaxEffect.transform final = Some (inject_Z y * - (1 # 2))%Q)
  /\ (ParallaxEffect.transform final = ParallaxEffect.transform start
      \/ exists y',
           y' < ParallaxEffect.offsetHeight start
                + ParallaxEffect.innerHeight start
           /\ ParallaxEffect.transform final = Some (inject_Z y' * - (1 # 2))%Q).
Proof.
  cbn zeta.
  set (H := ParallaxEffect.offsetHeight (ThrottledListener.world s)).
  set (V := ParallaxEffect.innerHeight (ThrottledListener.world s)).
  set (fixed := fun w => ParallaxEffect.offsetHeight w = H
                         /\ ParallaxEffect.innerHeight w = V).
  assert (Hfixed_func : forall w, fixed w -> fixed (ParallaxEffect.handleParallax w)).
  { intros w [H1 H2]. destruct (handleParallax_window w) as (_ & E1 & E2).
    split; congruence. }
  assert (HK :
    (fun w => fixed w
              /\ (ParallaxEffect.transform w
                  = ParallaxEffect.transform (ThrottledListener.world s)
                  \/ exists y', y' < H + V
                       /\ ParallaxEffect.transform w
                          = Some (inject_Z y' * - (1 # 2))%Q))
      (ThrottledListener.world
         (ThrottledListener.run ParallaxEffect.handleParallax 16 s
            (ThrottledListener.schedule ParallaxEffect.scroll_to
               (ThrottledListener.ending_at before t y timers))))).
  { apply (run_invariant ParallaxEffect.handleParallax 16).
    - intros w [Hf Ht]. split; [apply Hfixed_func, Hf|].
      destruct Hf as [H1 H2]. unfold ParallaxEffect.handleParallax. cbn zeta.
      rewrite H1, H2.
      destruct (Z.ltb_spec (ParallaxEffect.pageYOffset w) (H + V)); [|exact Ht].
      right. eexists. split; [eassumption|reflexivity].
    - apply schedule_keeps. intros y' w Hw. exact Hw.
    - split; [split; reflexivity|left; reflexivity]. }
  destruct HK as [[HH HV] Htrans].
  rewrite schedule_ending_at in *.
  destruct (run_after_last_scroll ParallaxEffect.handleParallax 16
              (fun w => ParallaxEffect.pageYOffset w = y)
              (fun w => ParallaxEffect.pageYOffset w
                        < ParallaxEffect.offsetHeight w
                          + ParallaxEffect.innerHeight w ->
                        ParallaxEffect.transform w
                        = Some (inject_Z y * - (1 # 2))%Q)
              (ThrottledListener.schedule ParallaxEffect.scroll_to before)
              t (ParallaxEffect.scroll_to y)
              (ThrottledListener.Expired <$> timers) s)
    as (Hy & Hrate).
  { reflexivity. }
  { intros w Hw. destruct (handleParallax_window w) as (E0 & E1 & E2).
    split; [congruence|]. rewrite E0, E1, E2.
    unfold ParallaxEffect.handleParallax. cbn zeta.
    destruct (Z.ltb_spec (ParallaxEffect.pageYOffset w)
                (ParallaxEffect.offsetHeight w + ParallaxEffect.innerHeight w));
      [|lia].
    intros _. cbn. rewrite Hw. reflexivity. }
  { apply quiet_timers. }
  split; [exact Hy|]. split; [|exact Htrans].
  intros Hlt. apply Hrate. rewrite Hy, HH, HV. exact Hlt.
Qed.

(** A hero section 600 high in a window 800 high, scrolled to 300. *)
Lemma parallax_follows_last_scroll_witness :
  let start := {| ParallaxEffect.pageYOffset := 0;
                  ParallaxEffect.innerHeight := 800;
                  ParallaxEffect.offsetHeight := 600;
                  ParallaxEffect.transform := None |} in
  300 < 600 + 800
  /\ ParallaxEffect.transform
       (ThrottledListener.world
          (ThrottledListener.run ParallaxEffect.handleParallax 16
             (ThrottledListener.throttle start)
             (ThrottledListener.schedule ParallaxEffect.scroll_to
                (ThrottledListener.ending_at [] 1000 300 []))))
     = Some (inject_Z 300 * - (1 # 2))%Q.
Proof.
  intros start.
  assert (H : 300 < 600 + 800) by lia.
  split; [exact H|].
  exact (proj1 (proj2 (parallax_follows_last_scroll
                         (ThrottledListener.throttle start) [] 1000 300 []))
           H).
Defined.

(** X8. The translation of the hero section stays within bounds: as long
    as the window is never scrolled above the top ([y >= 0]), a
    translation written by [handleParallax] is never downward and is
    less than half the height of the section plus the height of the
    window upward. *)
Theorem parallax_translation_bounded
    (s : ThrottledListener.listener ParallaxEffect.page)
    (ticks : list (Z * option Z)) (r : Q) :
  let start := ThrottledListener.world s in
  let final :=
    ThrottledListener.world
      (ThrottledListener.run ParallaxEffect.handleParallax 16 s
         (ThrottledListener.schedule ParallaxEffect.scroll_to ticks)) in
  0 <= ParallaxEffect.pageYOffset start ->
  Forall (fun tick => forall y, tick.2 = Some y -> 0 <= y) ticks ->
  ParallaxEffect.transform start = None ->
  ParallaxEffect.transform final = Some r ->
  (- inject_Z (ParallaxEffect.offsetHeight start
              + ParallaxEffect.innerHeight start) < 2 * r /\ r <= 0)%Q.
Proof.
  cbn zeta. intros Hstart Hticks Hnone.
  set (H := ParallaxEffect.offsetHeight (ThrottledListener.world s)).
  set (V := ParallaxEffect.innerHeight (ThrottledListener.world s)).
  set (K := fun w =>
              ParallaxEffect.offsetHeight w = H
              /\ ParallaxEffect.innerHeight w = V
              /\ 0 <= ParallaxEffect.pageYOffset w
              /\ forall r', ParallaxEffect.transform w = Some r' ->
                            (- inject_Z (H + V) < 2 * r' /\ r' <= 0)%Q).
  assert (HK : K (ThrottledListener.world
                    (ThrottledListener.run ParallaxEffect.handleParallax 16 s
                       (ThrottledListener.schedule ParallaxEffect.scroll_to
                          ticks)))).
  { apply (run_invariant ParallaxEffect.handleParallax 16 K).
    - intros w (H1 & H2 & H3 & H4).
      destruct (handleParallax_window w) as (E0 & E1 & E2).
      split_and!; [congruence|congruence|congruence|].
      unfold ParallaxEffect.handleParallax. cbn zeta. rewrite H1, H2.
      destruct (Z.ltb_spec (ParallaxEffect.pageYOffset w) (H + V)); [|exact H4].
      cbn. intros r' [= <-].
      assert (Hlt : (inject_Z (ParallaxEffect.pageYOffset w) < inject_Z (H + V))%Q)
        by (rewrite <- Zlt_Qlt; assumption).
      assert (Hge : (inject_Z 0 <= inject_Z (ParallaxEffect.pageYOffset w))%Q)
        by (rewrite <- Zle_Qle; assumption).
      change (inject_Z 0) with 0%Q in Hge.
      remember (inject_Z (ParallaxEffect.pageYOffset w)) as a eqn:Ea.
      remember (inject_Z (H + V)) as b eqn:Eb.
      clear - Hlt Hge. split; lra.
    - unfold ThrottledListener.schedule. apply Forall_fmap.
      eapply Forall_impl; [exact Hticks|].
      intros [t [y|]] Hy; cbn; [|exact I].
      intros w (H1 & H2 & _ & H4). split_and!; [exact H1|exact H2| |exact H4].
      apply Hy. reflexivity.
    - split_and!; [reflexivity|reflexivity|exact Hstart|].
      intros r'. rewrite Hnone. discriminate. }
  destruct HK as (_ & _ & _ & Hr). apply Hr.
Qed.

(** The same page, scrolled to 300: the translation is -150. *)
Lemma parallax_translation_bounded_witness :
  let start := {| ParallaxEffect.pageYOffset := 0;
                  ParallaxEffect.innerHeight := 800;
                  ParallaxEffect.offsetHeight := 600;
                  ParallaxEffect.transform := None |} in
  let ticks := [(1000, Some 300)] in
  let r := (inject_Z 300 * - (1 # 2))%Q in
  0 <= ParallaxEffect.pageYOffset start
  /\ Forall (fun tick : Z * option Z => forall y, tick.2 = Some y -> 0 <= y)
            ticks
  /\ ParallaxEffect.transform
       (ThrottledListener.world
          (ThrottledListener.run ParallaxEffect.handleParallax 16
             (ThrottledListener.throttle start)
             (ThrottledListener.schedule ParallaxEffect.scroll_to ticks)))
     = Some r
  /\ (- inject_Z (600 + 800) < 2 * r /\ r <= 0)%Q.
Proof.
  intros start ticks r.
  assert (H0 : 0 <= ParallaxEffect.pageYOffset start) by (cbn; lia).
  assert (H1 : Forall (fun tick : Z * option Z =>
                         forall y, tick.2 = Some y -> 0 <= y) ticks).
  { repeat constructor. cbn. intros y [= <-]. lia. }
  assert (H2 : ParallaxEffect.transform
                 (ThrottledListener.world
                    (ThrottledListener.run ParallaxEffect.handleParallax 16
                       (ThrottledListener.throttle start)
                       (ThrottledListener.schedule ParallaxEffect.scroll_to
                          ticks)))
               = Some r) by reflexivity.
  split; [exact H0|]. split; [exact H1|]. split; [exact H2|].
  exact (parallax_translation_bounded (ThrottledListener.throttle start)
           ticks r H0 H1 eq_refl H2).
Defined.

(** ** Mobile menu *)

Section MobileMenuFacts.
Import MobileMenu.
Implicit Types (m : menu) (path : list element).

Lemma consistent_close m : consistent (close m).
Proof. repeat split. Qed.

Lemma consistent_open m : consistent (open m).
Proof. repeat split. Qed.

Lemma consistent_toggle m : consistent (toggle m).
Proof. unfold toggle. destruct (isOpen m); repeat split. Qed.

Lemma listeners_consistent m (el : element) :
  consistent m -> consistent (listeners m el).
Proof.
  intros H. unfold listeners.
  destruct (is_navLink el); [apply consistent_close|].
  destruct (is_menuToggle el); [apply consistent_toggle|exact H].
Qed.

Lemma bubble_consistent path :
  forall m, consistent m -> consistent (foldl listeners m path).
Proof.
  induction path as [|el path IH]; intros m H; cbn [foldl]; [exact H|].
  apply IH, listeners_consistent, H.
Qed.

Lemma step_consistent (wired : bool) m (e : event) :
  consistent m -> consistent (step wired m e).
Proof.
  intros H. destruct e as [path|key]; cbn [step].
  - unfold click. destruct wired; [|exact H]. unfold outside.
    destruct (_ && _); [apply consistent_close|apply bubble_consistent, H].
  - unfold keydown. destruct wired; [|exact H].
    destruct (if decide _ then _ else _); [apply consistent_close|exact H].
Qed.

(** On a path without the toggle, the listeners of the elements close the
    menu when a nav link is among them and do nothing otherwise. *)
Lemma bubble_no_toggle path :
  forall m,
    existsb is_menuToggle path = false ->
    foldl listeners m path
    = if existsb is_navLink path then close m else m.
Proof.
  induction path as [|el path IH]; intros m H; cbn [foldl existsb] in *;
    [reflexivity|].
  apply orb_false_iff in H as [Hel H]. rewrite (IH _ H).
  unfold listeners. rewrite Hel.
  destruct (is_navLink el); cbn [orb]; [|reflexivity].
  destruct (existsb is_navLink path); reflexivity.
Qed.

(** On a path with the toggle and without nav links, they toggle it
    once. *)
Lemma bubble_toggle path :
  forall m,
    existsb is_navLink path = false ->
    foldl listeners m path = Nat.iter (toggles path) toggle m.
Proof.
  induction path as [|el path IH]; intros m H; cbn [foldl existsb] in *;
    [reflexivity|].
  apply orb_false_iff in H as [Hel H]. rewrite (IH _ H).
  unfold listeners, toggles. rewrite Hel.
  destruct (is_menuToggle el) eqn:E.
  - rewrite filter_cons_True by exact E. cbn [length].
    rewrite Nat.iter_succ_r. reflexivity.
  - rewrite filter_cons_False by (rewrite E; discriminate). reflexivity.
Qed.

Lemma toggles_existsb path :
  (0 < toggles path)%nat -> existsb is_menuToggle path = true.
Proof.
  unfold toggles. induction path as [|el path IH]; cbn [existsb]; [cbn; lia|].
  destruct (is_menuToggle el) eqn:E; [reflexivity|].
  rewrite filter_cons_False by (rewrite E; discriminate). exact IH.
Qed.

End MobileMenuFacts.

(** X9. The page follows the menu. When the navbar class, the
    [aria-expanded] attribute and the scroll lock of the page agree with
    [isOpen], they still agree after any sequence of clicks anywhere and
    keys pressed: page scroll is locked exactly while the menu is open. *)
Theorem menu_stays_consistent (wired : bool) (m : MobileMenu.menu)
    (events : list MobileMenu.event) :
  MobileMenu.consistent m ->
  MobileMenu.consistent (foldl (MobileMenu.step wired) m events).
Proof.
  revert m. induction events as [|e events IH]; intros m H; cbn [foldl];
    [exact H|].
  apply IH, step_consistent, H.
Qed.

(** A closed menu: a click on the toggle, then Escape. *)
Lemma menu_stays_consistent_witness :
  let m := {| MobileMenu.isOpen := false; MobileMenu.active := false;
              MobileMenu.aria_expanded := Some "false";
              MobileMenu.overflow := "" |} in
  let events :=
    [MobileMenu.Click [{| MobileMenu.is_menuToggle := true;
                          MobileMenu.is_navLink := false;
                          MobileMenu.is_navbar := false |}];
     MobileMenu.Keydown "Escape"] in
  MobileMenu.consistent m
  /\ MobileMenu.consistent (foldl (MobileMenu.step true) m events).
Proof.
  intros m events.
  assert (H : MobileMenu.consistent m) by (repeat split).
  split; [exact H|].
  exact (menu_stays_consistent true m events H).
Defined.

(** X10. What a click does to the menu, when the toggle and the navbar
    exist. A click that does not pass through the toggle closes the menu
    when it passes through a nav link or does not pass through the
    navbar, and leaves it alone otherwise (a click inside the navbar next
    to the links). A click that passes through the toggle and through no
    nav link inverts [isOpen] and makes the page agree with it, whatever
    the page was before; a second such click brings back a menu the page
    agreed with. *)
Theorem menu_click (m : MobileMenu.menu) (path : list MobileMenu.element) :
  (existsb MobileMenu.is_menuToggle path = false ->
   MobileMenu.click true path m
   = if existsb MobileMenu.is_navLink path
        || negb (existsb MobileMenu.is_navbar path)
     then MobileMenu.close m else m)
  /\ (MobileMenu.toggles path = 1%nat ->
      existsb MobileMenu.is_navLink path = false ->
      MobileMenu.click true path m = MobileMenu.toggle m
      /\ MobileMenu.isOpen (MobileMenu.click true path m)
         = negb (MobileMenu.isOpen m)
      /\ MobileMenu.consistent (MobileMenu.click true path m)
      /\ (MobileMenu.consistent m ->
          MobileMenu.click true path (MobileMenu.click true path m) = m)).
Proof.
  split.
  - intros Hno. unfold MobileMenu.click, MobileMenu.outside.
    rewrite (bubble_no_toggle path m Hno), Hno.
    destruct (existsb MobileMenu.is_navLink path),
      (existsb MobileMenu.is_navbar path); reflexivity.
  - intros Hone Hlinks.
    assert (E : forall m', MobileMenu.click true path m' = MobileMenu.toggle m').
    { intros m'. unfold MobileMenu.click, MobileMenu.outside.
      rewrite (bubble_toggle path m' Hlinks), Hone.
      rewrite (toggles_existsb path) by lia.
      rewrite andb_false_r. reflexivity. }
    rewrite !E. split; [reflexivity|]. split; [|split; [apply consistent_toggle|]].
    + unfold MobileMenu.toggle. destruct (MobileMenu.isOpen m); reflexivity.
    + intros (H1 & H2 & H3). destruct m as [o a x v]. cbn in H1, H2, H3.
      subst a x v. destruct o; reflexivity.
Qed.

(** A click on the icon inside the toggle of a closed menu. *)
Lemma menu_click_witness :
  let m := {| MobileMenu.isOpen := false; MobileMenu.active := false;
              MobileMenu.aria_expanded := None;
              MobileMenu.overflow := "" |} in
  let path := [{| MobileMenu.is_menuToggle := false;
                  MobileMenu.is_navLink := false;
                  MobileMenu.is_navbar := false |};
               {| MobileMenu.is_menuToggle := true;
                  MobileMenu.is_navLink := false;
                  MobileMenu.is_navbar := false |}] in
  MobileMenu.toggles path = 1%nat
  /\ existsb MobileMenu.is_navLink path = false
  /\ MobileMenu.isOpen (MobileMenu.click true path m) = negb (MobileMenu.isOpen m).
Proof.
  intros m path.
  assert (H1 : MobileMenu.toggles path = 1%nat) by reflexivity.
  assert (H2 : existsb MobileMenu.is_navLink path = false) by reflexivity.
  split; [exact H1|]. split; [exact H2|].
  exact (proj1 (proj2 (proj2 (menu_click m path) H1 H2))).
Defined.

(** ** Smooth scrolling *)

Section SmoothScrollFacts.
Import SmoothScroll.
Implicit Types (ids : gset string) (l : link) (o : outcome).

Lemma scrollIntoView_spec ids (targetId : string) o :
  defaultPrevented (scrollIntoView ids targetId o) = defaultPrevented o
  /\ thrown (scrollIntoView ids targetId o) = thrown o
  /\ scrolledIntoView (scrollIntoView ids targetId o)
     = scrolledIntoView o
         ++ (if decide (targetId <> "" /\ targetId ∈ ids)
             then [targetId] else []).
Proof.
  unfold scrollIntoView, getElementById.
  destruct (decide _); cbn; rewrite ?app_nil_r; auto.
Qed.

Lemma scrollIntoView_missing ids (targetId : string) o :
  targetId ∉ ids -> scrollIntoView ids targetId o = o.
Proof.
  intros H. unfold scrollIntoView, getElementById.
  rewrite decide_False by (intros [_ Hin]; contradiction). reflexivity.
Qed.

Lemma sound_for_scrollIntoView ids (h : string) o :
  sound_for ids h o -> defaultPrevented o = true ->
  sound_for ids h (scrollIntoView ids (substring1 h) o).
Proof.
  intros [Hall _] Hp.
  destruct (scrollIntoView_spec ids (substring1 h) o) as (E1 & _ & E3).
  split; [|intros _; congruence].
  rewrite E3. apply Forall_app. split; [exact Hall|].
  destruct (decide _) as [[H1 H2]|_]; repeat constructor; assumption.
Qed.

Lemma sound_for_click ids l (h : string) :
  href l = Some h -> sound_for ids h (click ids l).
Proof.
  intros Hh. unfold click, in_page, on_navLink, on_anchor. rewrite Hh.
  assert (H0 : sound_for ids h {| defaultPrevented := false;
                                  scrolledIntoView := []; thrown := [] |}).
  { split; [constructor|intros H; contradiction]. }
  assert (Hprev : forall o, sound_for ids h o -> sound_for ids h (preventDefault o)).
  { intros o [H1 _]. split; [exact H1|reflexivity]. }
  assert (H1 : sound_for ids h
                 (if is_navLink l
                  then scrollIntoView ids (substring1 h)
                         (preventDefault
                            {| defaultPrevented := false;
                               scrolledIntoView := []; thrown := [] |})
                  else {| defaultPrevented := false;
                          scrolledIntoView := []; thrown := [] |})).
  { destruct (is_navLink l); [|exact H0].
    apply sound_for_scrollIntoView; [apply Hprev, H0|reflexivity]. }
  destruct (is_anchor l && String.prefix "#" h); [|exact H1].
  destruct (decide _); [exact H1|].
  apply sound_for_scrollIntoView; [apply Hprev, H1|reflexivity].
Qed.

End SmoothScrollFacts.

(** X11. What a click on a link scrolls to. Every element that is
    scrolled into view is an element of the document whose id is the
    [href] of the link without its first character, and that id is not
    empty; nothing is scrolled unless the default action of the click is
    prevented; [scrollIntoView] is called at most twice, and twice on the
    same element only for a nav link that is also an in-page anchor. *)
Theorem smooth_scroll_targets (ids : gset string) (l : SmoothScroll.link) :
  let o := SmoothScroll.click ids l in
  (forall id, id ∈ SmoothScroll.scrolledIntoView o ->
     exists h, SmoothScroll.href l = Some h
               /\ id = SmoothScroll.substring1 h /\ id <> "" /\ id ∈ ids)
  /\ (SmoothScroll.scrolledIntoView o <> [] ->
      SmoothScroll.defaultPrevented o = true)
  /\ (length (SmoothScroll.scrolledIntoView o) <= 2)%nat
  /\ (length (SmoothScroll.scrolledIntoView o) = 2%nat ->
      SmoothScroll.is_navLink l = true /\ SmoothScroll.in_page l <> None).
Proof.
  cbn zeta. destruct l as [nav anchor [h|]].
  - pose proof (sound_for_click ids
                  {| SmoothScroll.is_navLink := nav;
                     SmoothScroll.is_anchor := anchor;
                     SmoothScroll.href := Some h |} h eq_refl) as [Hall Hprev].
    split; [|split; [exact Hprev|]].
    + intros id Hid. exists h. split; [reflexivity|].
      exact (proj1 (Forall_forall _ _) Hall id Hid).
    + clear. unfold SmoothScroll.click, SmoothScroll.in_page,
        SmoothScroll.on_navLink, SmoothScroll.on_anchor,
        SmoothScroll.scrollIntoView, SmoothScroll.getElementById.
      cbn [SmoothScroll.href SmoothScroll.is_navLink SmoothScroll.is_anchor].
      destruct nav, (anchor && String.prefix "#" h);
        repeat (destruct (decide _); cbn);
        cbn; (split; [lia|intros H; try discriminate H; split; try congruence]).
  - split_and!; [intros id Hid|intros H|destruct nav; cbn; lia
                |destruct nav; cbn; discriminate].
    + destruct nav; cbn in Hid; apply elem_of_nil in Hid; destruct Hid.
    + destruct nav; cbn in *; [reflexivity|contradiction].
Qed.

(** X12. Links that do nothing. A click on a nav link always has its
    default action prevented: when the link has no [href] the listener
    throws and nothing is scrolled, and when the [href] without its first
    character is not the id of an element of the document (a link to
    another page, for one) nothing is scrolled either, so the click has
    no effect at all. A click on an anchor with [href] ["#"] or ["#!"]
    that is not a nav link is left to the browser: the default action is
    not prevented and nothing is scrolled. *)
Theorem smooth_scroll_dead_links (ids : gset string) (l : SmoothScroll.link) :
  let o := SmoothScroll.click ids l in
  (SmoothScroll.is_navLink l = true ->
   SmoothScroll.defaultPrevented o = true
   /\ (SmoothScroll.href l = None ->
       SmoothScroll.scrolledIntoView o = []
       /\ SmoothScroll.thrown o = ["TypeError"])
   /\ (forall h, SmoothScroll.href l = Some h ->
         SmoothScroll.substring1 h ∉ ids ->
         SmoothScroll.scrolledIntoView o = []))
  /\ (SmoothScroll.is_navLink l = false ->
      SmoothScroll.href l = Some "#" \/ SmoothScroll.href l = Some "#!" ->
      o = {| SmoothScroll.defaultPrevented := false;
             SmoothScroll.scrolledIntoView := [];
             SmoothScroll.thrown := [] |}).
Proof.
  cbn zeta. destruct l as [nav anchor href]. cbn. split.
  - intros ->. split_and!.
    + unfold SmoothScroll.click, SmoothScroll.in_page,
        SmoothScroll.on_navLink, SmoothScroll.on_anchor,
        SmoothScroll.scrollIntoView, SmoothScroll.getElementById.
      cbn [SmoothScroll.href SmoothScroll.is_navLink SmoothScroll.is_anchor].
      destruct href as [h|]; [|reflexivity].
      destruct (anchor && String.prefix "#" h);
        repeat (destruct (decide _); cbn); reflexivity.
    + intros ->. split; reflexivity.
    + intros h -> Hout.
      unfold SmoothScroll.click, SmoothScroll.in_page,
        SmoothScroll.on_navLink, SmoothScroll.on_anchor.
      cbn [SmoothScroll.href SmoothScroll.is_navLink SmoothScroll.is_anchor].
      destruct (anchor && String.prefix "#" h);
        [destruct (decide _)|];
        rewrite ?(scrollIntoView_missing ids _ _ Hout); reflexivity.
  - intros -> [->| ->]; unfold SmoothScroll.click, SmoothScroll.in_page;
      cbn [SmoothScroll.href SmoothScroll.is_navLink SmoothScroll.is_anchor];
      destruct anchor; try reflexivity; cbn;
      unfold SmoothScroll.on_anchor; rewrite decide_True by auto; reflexivity.
Qed.

(** A nav link without [href]. *)
Lemma smooth_scroll_dead_links_witness :
  let l := {| SmoothScroll.is_navLink := true;
              SmoothScroll.is_anchor := true;
              SmoothScroll.href := None |} in
  SmoothScroll.is_navLink l = true
  /\ SmoothScroll.href l = None
  /\ SmoothScroll.thrown (SmoothScroll.click ∅ l) = ["TypeError"].
Proof.
  intros l.
  assert (H1 : SmoothScroll.is_navLink l = true) by reflexivity.
  assert (H2 : SmoothScroll.href l = None) by reflexivity.
  split; [exact H1|]. split; [exact H2|].
  exact (proj2 (proj1 (proj2 (proj1 (smooth_scroll_dead_links ∅ l) H1)) H2)).
Defined.

(** ** Fade-in reveal *)

Section ScrollAnimationsFacts.
Import ScrollAnimations.
Implicit Types (st : state) (e : entry).

(** What one entry does. *)
Lemma on_entry_spec st e (i : nat) :
  (i ∈ fade_in_up (on_entry st e)
   <-> i ∈ fade_in_up st \/ (isIntersecting e = true /\ i = target e))
  /\ (i ∈ observed (on_entry st e)
      <-> i ∈ observed st /\ ~ (isIntersecting e = true /\ i = target e)).
Proof.
  unfold on_entry. destruct (isIntersecting e); cbn.
  - rewrite elem_of_union, elem_of_difference, elem_of_singleton.
    split; [tauto|]. split; [intros [H1 H2]; split; [exact H1|tauto]|].
    intros [H1 H2]. split; [exact H1|]. intros ->. apply H2. auto.
  - split; [|split; [intros H; split; [exact H|intros [[=] _]]|tauto]].
    split; [auto|intros [H|[[=] _]]; exact H].
Qed.


Lemma callback_spec (entries : list entry) :
  forall st (i : nat),
    (i ∈ fade_in_up (callback st entries)
     <-> i ∈ fade_in_up st
         \/ exists e, e ∈ entries /\ isIntersecting e = true /\ i = target e)
    /\ (i ∈ observed (callback st entries)
        <-> i ∈ observed st
            /\ ~ exists e, e ∈ entries /\ isIntersecting e = true
                           /\ i = target e).
Proof.
  unfold callback.
  induction entries as [|e entries IH]; intros st i; cbn [foldl].
  - split; split.
    + auto.
    + intros [H|(e & He & _)]; [exact H|]. apply elem_of_nil in He. destruct He.
    + intros H. split; [exact H|]. intros (e & He & _).
      apply elem_of_nil in He. destruct He.
    + intros [H _]. exact H.
  - destruct (IH (on_entry st e) i) as [IH1 IH2].
    destruct (on_entry_spec st e i) as [E1 E2].
    rewrite IH1, IH2, E1, E2. clear IH IH1 IH2 E1 E2.
    split; split.
    + intros [[H|H]|(e' & He' & H)]; [auto| |].
      * right. exists e. split; [apply elem_of_cons; auto|exact H].
      * right. exists e'. split; [apply elem_of_cons; auto|exact H].
    + intros [H|(e' & He' & H)]; [auto|].
      apply elem_of_cons in He' as [->|He']; [auto|].
      right. exists e'. auto.
    + intros [[H1 H2] H3]. split; [exact H1|].
      intros (e' & He' & H). apply elem_of_cons in He' as [->|He'].
      * apply H2, H.
      * apply H3. exists e'. auto.
    + intros [H1 H2]. split; [split; [exact H1|]|].
      * intros H. apply H2. exists e. split; [apply elem_of_cons; auto|exact H].
      * intros (e' & He' & H). apply H2. exists e'.
        split; [apply elem_of_cons; auto|exact H].
Qed.

(** An element the observer does not watch is out of reach of a batch. *)
Lemma deliver_unobserved st (entries : list entry) (i : nat) :
  i ∉ observed st ->
  (i ∈ fade_in_up (deliver st entries) <-> i ∈ fade_in_up st)
  /\ i ∉ observed (deliver st entries).
Proof.
  intros Hi. unfold deliver.
  destruct (callback_spec (filter (fun e => target e ∈ observed st) entries)
              st i) as [H1 H2].
  split.
  - rewrite H1. split; [|auto].
    intros [H|(e & He & _ & ->)]; [exact H|].
    apply list_elem_of_filter in He as [He _]. contradiction.
  - rewrite H2. intros [H _]. contradiction.
Qed.

Lemma run_unobserved (batches : list (list entry)) :
  forall st (i : nat),
    i ∉ observed st ->
    (i ∈ fade_in_up (run st batches) <-> i ∈ fade_in_up st)
    /\ i ∉ observed (run st batches).
Proof.
  unfold run.
  induction batches as [|b batches IH]; intros st i Hi; cbn [foldl].
  - split; [reflexivity|exact Hi].
  - destruct (deliver_unobserved st b i Hi) as [H1 H2].
    destruct (IH (deliver st b) i H2) as [H3 H4].
    split; [rewrite H3; exact H1|exact H4].
Qed.

(** A batch moves elements from the observed to the revealed and does
    nothing else. *)
Lemma deliver_moves st (entries : list entry) (i : nat) :
  (i ∈ fade_in_up st -> i ∈ fade_in_up (deliver st entries))
  /\ (i ∈ observed (deliver st entries) ->
      i ∈ observed st
      /\ (i ∈ fade_in_up (deliver st entries) -> i ∈ fade_in_up st))
  /\ (i ∈ observed st ->
      i ∈ observed (deliver st entries) \/ i ∈ fade_in_up (deliver st entries)).
Proof.
  unfold deliver.
  destruct (callback_spec (filter (fun e => target e ∈ observed st) entries)
              st i) as [H1 H2].
  split_and!.
  - intros H. apply H1. auto.
  - intros H. apply H2 in H as [Ho Hno]. split; [exact Ho|].
    intros H. apply H1 in H as [H|H]; [exact H|contradiction].
  - intros Ho.
    destruct (decide (i ∈ fade_in_up
                        (callback st (filter (fun e => target e ∈ observed st)
                                        entries)))) as [H|H]; [auto|].
    left. apply H2. split; [exact Ho|]. intros Hex. apply H, H1. auto.
Qed.

End ScrollAnimationsFacts.

(** X13. The fade-in reveal is one-shot and loses no element. After any
    batches of entries, every element of [animateElements] is still
    observed or has the class; an element that is still observed has not
    been given the class (it has it only if the page was authored so);
    the class is never taken away; and an element that is no longer
    observed is out of reach of any later batch. *)
Theorem reveal_is_one_shot (animateElements : nat) (styled : gset nat)
    (batches more : list (list ScrollAnimations.entry)) (i : nat) :
  let st := ScrollAnimations.run
              (ScrollAnimations.init animateElements styled) batches in
  ((i < animateElements)%nat ->
   i ∈ ScrollAnimations.observed st \/ i ∈ ScrollAnimations.fade_in_up st)
  /\ (i ∈ ScrollAnimations.observed st ->
      (i < animateElements)%nat
      /\ (i ∈ ScrollAnimations.fade_in_up st -> i ∈ styled))
  /\ (i ∈ styled -> i ∈ ScrollAnimations.fade_in_up st)
  /\ (i ∉ ScrollAnimations.observed st ->
      (i ∈ ScrollAnimations.fade_in_up (ScrollAnimations.run st more)
       <-> i ∈ ScrollAnimations.fade_in_up st)
      /\ i ∉ ScrollAnimations.observed (ScrollAnimations.run st more)).
Proof.
  cbn zeta. split_and!; [| | |apply run_unobserved].
  all: unfold ScrollAnimations.run.
  all: induction batches as [|b batches IH] using rev_ind;
    [cbn|rewrite foldl_app; cbn [foldl]].
  - intros Hi. left. apply elem_of_list_to_set, elem_of_seq. lia.
  - intros Hi. destruct (IH Hi) as [H|H].
    + exact (proj2 (proj2 (deliver_moves _ b i)) H).
    + right. exact (proj1 (deliver_moves _ b i) H).
  - intros Hi. apply elem_of_list_to_set, elem_of_seq in Hi.
    split; [lia|auto].
  - intros Hi.
    destruct (proj1 (proj2 (deliver_moves _ b i)) Hi) as [Ho Hf].
    destruct (IH Ho) as [H1 H2]. split; [exact H1|].
    intros H. apply H2, Hf, H.
  - auto.
  - intros Hi. exact (proj1 (deliver_moves _ b i) (IH Hi)).
Qed.

(** Three cards; the second one has come into view. *)
Lemma reveal_is_one_shot_witness :
  let st := ScrollAnimations.run (ScrollAnimations.init 3 ∅)
              [[{| ScrollAnimations.target := 1%nat;
                   ScrollAnimations.isIntersecting := true |}]] in
  (1 < 3)%nat
  /\ (1%nat ∈ ScrollAnimations.observed st
      \/ 1%nat ∈ ScrollAnimations.fade_in_up st).
Proof.
  intros st.
  assert (H : (1 < 3)%nat) by lia.
  split; [exact H|].
  exact (proj1 (reveal_is_one_shot 3 ∅
                  [[{| ScrollAnimations.target := 1%nat;
                       ScrollAnimations.isIntersecting := true |}]] [] 1%nat)
           H).
Defined.

(** ** The patterns of the form *)

Section RegexFacts.
Import Regex RegexLanguage.

Lemma append_empty (s1 s2 : string) : s1 +:+ s2 = "" -> s1 = "" /\ s2 = "".
Proof. destruct s1; cbn; [auto|discriminate]. Qed.

Lemma append_cons (s1 s2 s : string) (c : ascii) :
  s1 +:+ s2 = String c s ->
  (s1 = "" /\ s2 = String c s)
  \/ exists s1', s1 = String c s1' /\ s = s1' +:+ s2.
Proof.
  destruct s1 as [|c1 s1]; cbn; [auto|].
  intros [= -> <-]. right. eauto.
Qed.

Lemma nullable_matches (r : regex) : nullable r = true <-> matches r "".
Proof.
  split.
  - induction r; cbn; intros H; try discriminate.
    + constructor.
    + apply andb_true_iff in H as [H1 H2].
      change "" with ("" +:+ ""). constructor; auto.
    + apply orb_true_iff in H as [H|H];
        [apply matches_Alt_l|apply matches_Alt_r]; auto.
    + constructor.
  - intros H. remember "" as s eqn:Es.
    induction H; cbn; try reflexivity; try discriminate.
    + apply append_empty in Es as [-> ->]. rewrite IHmatches1, IHmatches2; auto.
    + rewrite IHmatches; auto.
    + rewrite IHmatches; auto. apply orb_true_r.
Qed.

Lemma deriv_matches (r : regex) (c : ascii) :
  forall s, matches (deriv c r) s <-> matches r (String c s).
Proof.
  intros s. split.
  - revert s. induction r; intros s H; cbn in H.
    + inversion H.
    + inversion H.
    + destruct (p c) eqn:E; inversion H; subst. constructor. exact E.
    + destruct (nullable r1) eqn:N.
      * inversion H as [| | | ? ? ? H1 | ? ? ? H2 | |]; subst.
        -- inversion H1; subst.
           change (String c (s1 +:+ s2)) with (String c s1 +:+ s2).
           constructor; auto.
        -- change (String c s) with ("" +:+ String c s).
           constructor; [apply nullable_matches, N|auto].
      * inversion H; subst.
        change (String c (s1 +:+ s2)) with (String c s1 +:+ s2).
        constructor; auto.
    + inversion H; subst; [apply matches_Alt_l|apply matches_Alt_r]; auto.
    + inversion H; subst.
      change (String c (s1 +:+ s2)) with (String c s1 +:+ s2).
      constructor; auto.
  - intros H. remember (String c s) as s' eqn:Es. revert s Es.
    induction H; intros s0 Es; cbn.
    + discriminate.
    + injection Es as -> <-. rewrite H. constructor.
    + apply append_cons in Es as [[-> ->]|(s1' & -> & ->)].
      * rewrite (proj2 (nullable_matches r1) H).
        apply matches_Alt_r. apply IHmatches2. reflexivity.
      * destruct (nullable r1); [apply matches_Alt_l|];
          (constructor; [apply IHmatches1; reflexivity|exact H0]).
    + apply matches_Alt_l. apply IHmatches. exact Es.
    + apply matches_Alt_r. apply IHmatches. exact Es.
    + discriminate.
    + apply append_cons in Es as [[-> ->]|(s1' & -> & ->)].
      * apply IHmatches2. reflexivity.
      * constructor; [apply IHmatches1; reflexivity|exact H0].
Qed.

(** [test] decides the strings of a regular expression. *)
Lemma test_matches (s : string) :
  forall r, test r s = true <-> matches r s.
Proof.
  induction s as [|c s IH]; intros r; cbn [test].
  - apply nullable_matches.
  - rewrite IH. apply deriv_matches.
Qed.

Lemma matches_Star_Class (p : ascii -> bool) (s : string) :
  matches (Star (Class p)) s <-> all p s = true.
Proof.
  split.
  - intros H. remember (Star (Class p)) as r eqn:Er.
    induction H; try discriminate; [reflexivity|].
    injection Er as ->. inversion H; subst. cons_app. cbn.
    rewrite IHmatches2 by reflexivity.
    match goal with E : p _ = true |- _ => rewrite E end. reflexivity.
  - induction s as [|c s IH]; cbn; intros H; [constructor|].
    apply andb_true_iff in H as [Hc Hs].
    change (String c s) with (String c "" +:+ s).
    constructor; [constructor; exact Hc|apply IH, Hs].
Qed.

Lemma matches_plus_Class (p : ascii -> bool) (s : string) :
  matches (plus (Class p)) s <-> s <> "" /\ all p s = true.
Proof.
  unfold plus. split.
  - intros H. inversion H as [| |? ? ? ? H1 H2| | | |]; subst.
    inversion H1; subst. apply matches_Star_Class in H2.
    cons_app. cbn. split; [discriminate|].
    match goal with E : p _ = true |- _ => rewrite E end. exact H2.
  - intros [Hne H]. destruct s as [|c s]; [contradiction|].
    cbn in H. apply andb_true_iff in H as [Hc Hs].
    change (String c s) with (String c "" +:+ s).
    constructor; [constructor; exact Hc|apply matches_Star_Class, Hs].
Qed.

Lemma matches_at_least_Class (p : ascii -> bool) (n : nat) :
  forall s,
    matches (at_least n (Class p)) s
    <-> (n <= String.length s)%nat /\ all p s = true.
Proof.
  induction n as [|n IH]; intros s; cbn [at_least].
  - rewrite matches_Star_Class. split; [intros H; split; [lia|exact H]|tauto].
  - split.
    + intros H. inversion H as [| |? ? ? ? H1 H2| | | |]; subst.
      inversion H1; subst. apply IH in H2 as [Hn Hs]. cons_app. cbn.
      split; [lia|].
      match goal with E : p _ = true |- _ => rewrite E end. exact Hs.
    + intros [Hn H]. destruct s as [|c s]; [cbn in Hn; lia|].
      cbn in Hn, H. apply andb_true_iff in H as [Hc Hs].
      change (String c s) with (String c "" +:+ s).
      constructor; [constructor; exact Hc|]. apply IH. split; [lia|exact Hs].
Qed.

Lemma matches_lit (a : ascii) (s : string) :
  matches (Class (lit a)) s <-> s = String a "".
Proof.
  split.
  - intros H. inversion H; subst. unfold lit in *.
    match goal with E : (if decide _ then _ else _) = true |- _ =>
      destruct (decide _) as [->|]; [reflexivity|discriminate E] end.
  - intros ->. constructor. unfold lit. rewrite decide_True; reflexivity.
Qed.

(** The pattern of e-mail addresses accepts the strings of the shape
    [local@domain.tld]. *)
Lemma test_emailRegex (s : string) :
  test FormValidation.emailRegex s = true <-> email_shape s.
Proof.
  rewrite test_matches. unfold FormValidation.emailRegex, email_shape, word.
  change (fun c => negb (space c || lit "@" c)) with plain. cbn zeta.
  split.
  - intros H.
    inversion H as [| |? ? l ? Hl H1| | | |]; subst.
    inversion H1 as [| |? ? a ? Ha H2| | | |]; subst.
    inversion H2 as [| |? ? d ? Hd H3| | | |]; subst.
    inversion H3 as [| |? ? b ? Hb Ht| | | |]; subst.
    apply matches_lit in Ha, Hb. subst.
    apply matches_plus_Class in Hl, Hd, Ht.
    eexists _, _, _. split; [reflexivity|]. auto.
  - intros (l & d & t & -> & Hl & Hd & Ht).
    constructor; [apply matches_plus_Class, Hl|].
    constructor; [apply matches_lit; reflexivity|].
    constructor; [apply matches_plus_Class, Hd|].
    constructor; [apply matches_lit; reflexivity|].
    apply matches_plus_Class, Ht.
Qed.

(** The pattern of telephone numbers accepts the strings of at least ten
    dialable characters. *)
Lemma test_phoneRegex (s : string) :
  test FormValidation.phoneRegex s = true <-> phone_shape s.
Proof.
  rewrite test_matches. unfold FormValidation.phoneRegex, phone_shape.
  apply (matches_at_least_Class dialable 10).
Qed.

Lemma truthy_empty (s : string) : FormValidation.truthy s = false <-> s = "".
Proof. destruct s; cbn; split; congruence. Qed.

End RegexFacts.

(** X14. What [validateField] accepts. A field is valid exactly when its
    trimmed value is empty and the field is not required, or the trimmed
    value is not empty and, for an e-mail field, has the shape
    [local@domain.tld] (three non-empty parts without white space or at
    sign) and, for a telephone field, consists of at least ten
    characters, each a digit, a parenthesis, white space, a hyphen or a
    plus sign. Fields of other types accept every non-empty value. *)
Theorem validateField_accepts (f : FormValidation.field)
    (fm : FormValidation.form) :
  let value := FormValidation.trim (FormValidation.value f) in
  (FormValidation.validateField f fm).1 = true
  <-> (value = "" /\ FormValidation.required f = false)
      \/ (value <> ""
          /\ (FormValidation.type f = "email" -> RegexLanguage.email_shape value)
          /\ (FormValidation.type f = "tel" -> RegexLanguage.phone_shape value)).
Proof.
  cbn zeta. unfold FormValidation.validateField. cbn zeta.
  set (value := FormValidation.trim (FormValidation.value f)).
  pose proof (truthy_empty value) as Hempty.
  pose proof (test_emailRegex value) as Hemail.
  pose proof (test_phoneRegex value) as Hphone.
  destruct (FormValidation.truthy value) eqn:T.
  - assert (Hne : value <> "") by (intros E; apply Hempty in E; discriminate).
    rewrite andb_false_r.
    destruct (decide (FormValidation.type f = "email")) as [Ee|Ee];
      destruct (decide (FormValidation.type f = "tel")) as [Et|Et];
      try (rewrite Ee in Et; discriminate Et).
    + destruct (Regex.test FormValidation.emailRegex value) eqn:E; cbn.
      * split; [intros _; right|reflexivity].
        split; [exact Hne|]. split; [intros _; apply Hemail; reflexivity|].
        intros E'. congruence.
      * split; [discriminate|]. intros [[E' _]|(_ & H & _)]; [contradiction|].
        apply Hemail in H; [discriminate H|exact Ee].
    + destruct (Regex.test FormValidation.phoneRegex value) eqn:E; cbn.
      * split; [intros _; right|reflexivity].
        split; [exact Hne|]. split; [intros E'; congruence|].
        intros _. apply Hphone. reflexivity.
      * split; [discriminate|]. intros [[E' _]|(_ & _ & H)]; [contradiction|].
        apply Hphone in H; [discriminate H|exact Et].
    + cbn. split; [intros _; right|reflexivity].
      split; [exact Hne|]. split; intros E'; contradiction.
  - assert (He : value = "") by (apply Hempty; reflexivity).
    destruct (FormValidation.required f); cbn.
    + split; [discriminate|]. intros [[_ [=]]|[H _]]; contradiction.
    + destruct (decide _), (decide _); cbn; (split; [auto|reflexivity]).
Qed.

(** ** Submitting a valid form *)

Section ValidSubmitFacts.
Import FormValidation.
Implicit Types (fm : form).

(** What [submitForm] leaves of a form that has a submit control. *)
Lemma submitForm_effect (resolves : bool) fm (b : button) :
  submitButton fm = Some b ->
  let fm' := (submitForm resolves fm).2 in
  submissions fm' = S (submissions fm)
  /\ defaultPrevented fm' = defaultPrevented fm
  /\ submitButton fm' = Some {| disabled := false; label := label b |}
  /\ successes fm'
     = (if resolves
        then "Mensagem enviada com sucesso! Entraremos em contato em breve."
             :: successes fm
        else successes fm)
  /\ generalErrors fm'
     = (if resolves then generalErrors fm
        else generalErrors
               (showFormError "Erro ao enviar mensagem. Tente novamente." fm))
  /\ fields fm' = (if resolves then fields (reset fm) else fields fm).
Proof.
  intros Hb. destruct fm as [fs gs sb ge su n d]. cbn in Hb. subst sb.
  destruct resolves; repeat split; reflexivity.
Qed.

(** Without a submit control [submitForm] throws at its second line. *)
Lemma submitForm_no_button (resolves : bool) fm :
  submitButton fm = None ->
  submitForm resolves fm
  = (Throw "TypeError",
     {| fields := fields fm; groups := groups fm; submitButton := None;
        generalErrors := generalErrors fm; successes := successes fm;
        submissions := S (submissions fm);
        defaultPrevented := defaultPrevented fm |}).
Proof.
  intros Hb. destruct fm as [fs gs sb ge su n d]. cbn in Hb. subst sb.
  destruct resolves; reflexivity.
Qed.

Lemma static_defaults fm fm' :
  static fm = static fm' ->
  defaultValue <$> fields fm = defaultValue <$> fields fm'.
Proof.
  intros [= Hin _ _ _ _ _ _].
  apply (f_equal (fmap (fun x : string * string * bool * string * option nat =>
                          x.1.2))) in Hin.
  rewrite <- !list_fmap_compose in Hin. exact Hin.
Qed.

Lemma reset_values fm :
  value <$> fields (reset fm) = defaultValue <$> fields fm.
Proof.
  unfold reset, with_fields. cbn [fields].
  rewrite <- list_fmap_compose. reflexivity.
Qed.

Lemma showFormError_length (msg : string) fm :
  head (generalErrors (showFormError msg fm)) = Some msg
  /\ length (generalErrors (showFormError msg fm))
     = Nat.max 1 (length (generalErrors fm)).
Proof. cbn. destruct (generalErrors fm); split; reflexivity. Qed.

(** The general errors after one event: as before, or with the first one
    rewritten, or with a first one created. *)
Lemma step_generalErrors fm (e : event) :
  generalErrors (step fm e) = generalErrors fm
  \/ exists msg, generalErrors (step fm e)
                 = generalErrors (showFormError msg fm).
Proof.
  destruct e as [i|i text|resolves]; cbn [step].
  - left. pose proof (validate_at_static i fm) as [= _ _ _ He _ _ _].
    exact He.
  - left. destruct (fields (typed i text fm) !! i) as [f|]; [|reflexivity].
    unfold clearError. destruct (fieldGroup f _); reflexivity.
  - unfold handleSubmit.
    destruct (validateForm_spec (preventDefault fm)) as [Hst _].
    destruct (validateForm (preventDefault fm)) as [isValid fm2].
    cbn [snd] in Hst. injection Hst as _ _ _ He _ _ _. cbn in He.
    destruct isValid.
    + destruct (submitButton fm2) as [b|] eqn:Hb.
      * destruct (submitForm_effect resolves fm2 b Hb)
          as (_ & _ & _ & _ & Hge & _).
        rewrite Hge. destruct resolves; [left; exact He|].
        right. eexists. cbn. rewrite He. reflexivity.
      * rewrite (submitForm_no_button resolves fm2 Hb). left. exact He.
    + right. eexists. cbn. rewrite He. reflexivity.
Qed.

End ValidSubmitFacts.

(** X15. Submitting a valid form. When every required field passes
    [validateField], [handleSubmit] prevents the default action and calls
    [submitForm] once. With a submit control in the form, the control
    ends enabled with its label, and: when the submission resolves, one
    success banner is put first, every field takes its default value, and
    the general errors are as before (an error shown by an earlier
    attempt stays); when it rejects, the first general error holds the
    sending error (created if there was none), no banner is added and the
    fields keep their values. Without a submit control [submitForm]
    throws before it shows anything: no banner, no error, values kept. *)
Theorem valid_submit_is_sent (resolves : bool) (fm : FormValidation.form) :
  (forall i f,
      FormValidation.fields fm !! i = Some f ->
      FormValidation.required f = true ->
      (FormValidation.validateField f fm).1 = true) ->
  let fm' := FormValidation.handleSubmit resolves fm in
  FormValidation.submissions fm' = S (FormValidation.submissions fm)
  /\ FormValidation.defaultPrevented fm'
     = S (FormValidation.defaultPrevented fm)
  /\ (forall b,
        FormValidation.submitButton fm = Some b ->
        FormValidation.submitButton fm'
        = Some {| FormValidation.disabled := false;
                  FormValidation.label := FormValidation.label b |}
        /\ if resolves then
             FormValidation.successes fm'
             = "Mensagem enviada com sucesso! Entraremos em contato em breve."
               :: FormValidation.successes fm
             /\ FormValidation.generalErrors fm'
                = FormValidation.generalErrors fm
             /\ FormValidation.value <$> FormValidation.fields fm'
                = FormValidation.defaultValue <$> FormValidation.fields fm
           else
             FormValidation.successes fm' = FormValidation.successes fm
             /\ head (FormValidation.generalErrors fm')
                = Some "Erro ao enviar mensagem. Tente novamente."
             /\ length (FormValidation.generalErrors fm')
                = Nat.max 1 (length (FormValidation.generalErrors fm))
             /\ FormValidation.value <$> FormValidation.fields fm'
                = FormValidation.value <$> FormValidation.fields fm)
  /\ (FormValidation.submitButton fm = None ->
      FormValidation.submitButton fm' = None
      /\ FormValidation.successes fm' = FormValidation.successes fm
      /\ FormValidation.generalErrors fm' = FormValidation.generalErrors fm
      /\ FormValidation.value <$> FormValidation.fields fm'
         = FormValidation.value <$> FormValidation.fields fm).
Proof.
  intros Hvalid fm'. subst fm'. unfold FormValidation.handleSubmit.
  set (fm1 := FormValidation.preventDefault fm).
  destruct (validateForm_spec fm1) as [Hst Hok].
  destruct (FormValidation.validateForm fm1) as [isValid fm2].
  cbn [fst snd] in *.
  assert (isValid = true) as ->.
  { apply Hok. intros i f Hf Hr.
    rewrite (validateField_result f fm1 fm). exact (Hvalid i f Hf Hr). }
  pose proof (static_values _ _ Hst) as Hvalues.
  pose proof (static_defaults _ _ Hst) as Hdefaults.
  injection Hst as _ _ Hb He Hs Hn Hd. cbn in Hb, He, Hs, Hn, Hd, Hvalues, Hdefaults.
  destruct (FormValidation.submitButton fm) as [b0|] eqn:Hfm.
  - destruct (submitForm_effect resolves fm2 b0 Hb)
      as (Hn' & Hd' & Hb' & Hs' & He' & Hf').
    cbn zeta in *.
    split; [rewrite Hn', Hn; reflexivity|].
    split; [rewrite Hd', Hd; reflexivity|].
    split; [|discriminate].
    intros b [= <-]. split; [exact Hb'|].
    rewrite Hs', He', Hf'. destruct resolves.
    + split; [rewrite Hs; reflexivity|]. split; [exact He|].
      rewrite reset_values. exact Hdefaults.
    + split; [exact Hs|].
      destruct (showFormError_length
                  "Erro ao enviar mensagem. Tente novamente." fm2) as [H1 H2].
      split; [exact H1|]. split; [rewrite H2, He; reflexivity|exact Hvalues].
  - rewrite (submitForm_no_button resolves fm2 Hb). cbn.
    split; [rewrite Hn; reflexivity|].
    split; [rewrite Hd; reflexivity|].
    split; [discriminate|]. intros _. auto.
Qed.

(** A form with one required e-mail field holding a valid address; the
    submission resolves. *)
Lemma valid_submit_is_sent_witness :
  let f := {| FormValidation.value := "ana@gym.com";
              FormValidation.type := "email";
              FormValidation.required := true;
              FormValidation.defaultValue := "";
              FormValidation.closest := Some 0%nat;
              FormValidation.validity := None |} in
  let fm := {| FormValidation.fields := [f];
               FormValidation.groups :=
                 [{| FormValidation.error := false;
                     FormValidation.formError := None |}];
               FormValidation.submitButton :=
                 Some {| FormValidation.disabled := false;
                         FormValidation.label := "Enviar" |};
               FormValidation.generalErrors := [];
               FormValidation.successes := [];
               FormValidation.submissions := 0;
               FormValidation.defaultPrevented := 0 |} in
  (forall i f',
      FormValidation.fields fm !! i = Some f' ->
      FormValidation.required f' = true ->
      (FormValidation.validateField f' fm).1 = true)
  /\ FormValidation.submissions (FormValidation.handleSubmit true fm) = 1%nat.
Proof.
  intros f fm.
  assert (H : forall i f',
             FormValidation.fields fm !! i = Some f' ->
             FormValidation.required f' = true ->
             (FormValidation.validateField f' fm).1 = true).
  { intros [|i] f' Hf _; [|discriminate Hf].
    injection Hf as <-. reflexivity. }
  split; [exact H|].
  exact (proj1 (valid_submit_is_sent true fm H)).
Defined.

(** X16. A general form error is never removed, and the script creates at
    most one. After any sequence of [blur], [input] and [submit] events
    (submissions that succeed included) the form has as many general
    error elements as before, or exactly one when it had none. *)
Theorem general_error_is_never_removed (fm : FormValidation.form)
    (events : list FormValidation.event) :
  let before := length (FormValidation.generalErrors fm) in
  let after :=
    length (FormValidation.generalErrors (FormValidation.run fm events)) in
  (before <= after)%nat /\ (after <= Nat.max 1 before)%nat.
Proof.
  cbn zeta. revert fm.
  induction events as [|e events IH]; intros fm; [cbn; lia|].
  cbn [FormValidation.run foldl].
  change (foldl FormValidation.step (FormValidation.step fm e) events)
    with (FormValidation.run (FormValidation.step fm e) events).
  specialize (IH (FormValidation.step fm e)).
  destruct (step_generalErrors fm e) as [E|[msg E]]; rewrite E in IH.
  - exact IH.
  - destruct (showFormError_length msg fm) as [_ H]. rewrite H in IH. lia.
Qed.
